(** * Voltmeter_kV_TFT: a shallow embedding of the firmware's control loop

    The firmware (src/Voltmeter_esp_tft.ino) is one single-threaded Arduino
    sketch.  Its [float] variables are IEEE-754 binary32 numbers; they are
    modelled with the Standard Library's executable specification of binary
    floating point ([SpecFloat]) at precision 24 and exponent bound 128, so
    every rounding of the source is part of the model.  Unsigned 32-bit
    integers are [Z] with the wrap-around written out. *)

From Stdlib Require Import ZArith List Bool String Ascii Lia QArith Qabs Qpower.
From Stdlib Require Import Decimal DecimalString.
From Stdlib Require DecimalFacts DecimalPos DecimalN Lqa.
From Stdlib Require Import Floats.SpecFloat.
Import ListNotations.
Local Open Scope Z_scope.

(** ** Binary32 arithmetic *)

Module F32.

Definition float := spec_float.

Definition prec : Z := 24.
Definition emax : Z := 128.

Definition add (x y : float) : float := SFadd prec emax x y.
Definition sub (x y : float) : float := SFsub prec emax x y.
Definition mul (x y : float) : float := SFmul prec emax x y.
Definition div (x y : float) : float := SFdiv prec emax x y.
Definition abs (x : float) : float := SFabs x.
Definition leb (x y : float) : bool := SFleb x y.
Definition ltb (x y : float) : bool := SFltb x y.
Definition eqb (x y : float) : bool := SFeqb x y.

(** Conversion of an integer, as in a C cast [(float)n]. *)
Definition of_Z (n : Z) : float := binary_normalize prec emax n 0 false.

(** A decimal literal [n/d] of the source, e.g. [3.3f] as [lit 33 10]:
    both integers are exact in binary32, so the correctly rounded quotient
    is the binary32 number nearest to the decimal. *)
Definition lit (n d : Z) : float := div (of_Z n) (of_Z d).

Definition is_finite (x : float) : bool :=
  match x with
  | S754_zero _ | S754_finite _ _ _ => true
  | _ => false
  end.

Definition is_nan (x : float) : bool :=
  match x with S754_nan => true | _ => false end.

Definition sign (x : float) : bool :=
  match x with
  | S754_zero s | S754_infinity s | S754_finite s _ _ => s
  | S754_nan => false
  end.

(** The exact rational value of a finite number (0 for the others). *)
Definition to_Q (x : float) : Q :=
  match x with
  | S754_finite s m e =>
      let v := match e with
               | Zneg p => Z.pos m # Z.to_pos (2 ^ Z.pos p)
               | _ => inject_Z (Z.pos m * 2 ^ e)
               end in
      if s then Qopp v else v
  | _ => 0%Q
  end.

(** Truncation toward zero, as in a C cast [(int)x] of a finite value
    that fits. *)
Definition to_Z_trunc (x : float) : Z :=
  match x with
  | S754_finite s m e =>
      let v := match e with
               | Zneg p => Z.pos m / 2 ^ Z.pos p
               | _ => Z.pos m * 2 ^ e
               end in
      if s then - v else v
  | _ => 0
  end.

End F32.

Definition f32 : Type := F32.float.

(** ** Constants of the sketch *)

Definition ADC_MAX_CODE : f32 := F32.of_Z 65535.
Definition FS_V_MODE : f32 := F32.lit 33 10.
Definition FS_KV_MODE : f32 := F32.lit 5 10.
Definition ALPHA : f32 := F32.lit 50 100.
Definition REDRAW_THRESHOLD : f32 := F32.lit 1 1000.

Definition MEAS_INTERVAL_MS : Z := 17.
Definition SER_INTERVAL_MS : Z := 101.
Definition DISP_INTERVAL_MS : Z := 250.
Definition HB_PERIOD_MS : Z := 1000.
Definition HB_ON_MS : Z := 15.

(** Geometry and palette. *)
Definition BAR_Y : Z := 32.
Definition BAR_H : Z := 12.
Definition AXIS_Y : Z := 46.
Definition TICK_H : Z := 4.
Definition BAR_X_START : Z := 10.
Definition BAR_X_END : Z := 230.

Definition TAN_PALLADIAN : Z := 0xF6B2.
Definition ORA_BURNING : Z := 0xFD20.
Definition ORA_AMBER : Z := 0xFFE0.
Definition RST_MID_FOOTER : Z := 0xB306.
Definition RST_COPPER : Z := 0xB440.
Definition COL_BLACK : Z := 0x0000.

Record ColorTheme : Type := mkTheme {
  bg : Z; primary : Z; secondary : Z; accent : Z; footer : Z; erase : Z
}.

Definition Theme : ColorTheme :=
  mkTheme COL_BLACK ORA_BURNING ORA_AMBER RST_COPPER RST_MID_FOOTER COL_BLACK.

Definition VERSION_STR : string := "v1.0.0".

(** ** The board and the libraries the sketch talks to *)

Inductive adc_attenuation_t : Type := ADC_0db | ADC_2_5db | ADC_6db | ADC_11db.

Inductive Font : Type := u8g2_font_none | u8g2_font_inb27_mn | u8g2_font_9x15_tr.

Inductive DrawOp : Type :=
| FillScreen (color : Z)
| FillRect (x y w h color : Z)
| DrawFastHLine (x y w color : Z)
| DrawFastVLine (x y h color : Z)
| Print (font : Font) (fg_color bg_color x y : Z) (text : string).

(** What the sketch does to the outside world, in program order. *)
Inductive Event : Type :=
| EvAnalogRead (code : Z)
| EvModeRead (high : bool)
| EvAtten (a : adc_attenuation_t)
| EvSerial (line : string)
| EvLed (on : bool)
| EvDraw (d : DrawOp).

Record Machine : Type := mkMachine {
  filtered_V : f32;
  last_disp_V : f32;
  use_hv_mode : bool;
  last_hv_mode : bool;
  display_filename_str : string;
  msg_buf : string;
  t_meas : Z;
  t_disp : Z;
  t_ser : Z;
  t_hb : Z;
  u8_font : Font;
  u8_fg : Z;
  u8_bg : Z;
  u8_cx : Z;
  u8_cy : Z;
  clock : Z;
  mode_pin_high : bool;
  adc_in : nat -> Z;
  adc_pos : nat;
  serial_up : bool;
  glyph_width : Font -> string -> Z;
  attenuation : adc_attenuation_t;
  led : bool;
  trace : list Event
}.

Definition set_filtered_V (v : f32) (m : Machine) : Machine :=
  mkMachine v (last_disp_V m) (use_hv_mode m) (last_hv_mode m)
  (display_filename_str m) (msg_buf m) (t_meas m) (t_disp m) (t_ser m) (t_hb
  m) (u8_font m) (u8_fg m) (u8_bg m) (u8_cx m) (u8_cy m) (clock m)
  (mode_pin_high m) (adc_in m) (adc_pos m) (serial_up m) (glyph_width m)
  (attenuation m) (led m) (trace m).

Definition set_last_disp_V (v : f32) (m : Machine) : Machine :=
  mkMachine (filtered_V m) v (use_hv_mode m) (last_hv_mode m)
  (display_filename_str m) (msg_buf m) (t_meas m) (t_disp m) (t_ser m) (t_hb
  m) (u8_font m) (u8_fg m) (u8_bg m) (u8_cx m) (u8_cy m) (clock m)
  (mode_pin_high m) (adc_in m) (adc_pos m) (serial_up m) (glyph_width m)
  (attenuation m) (led m) (trace m).

Definition set_use_hv_mode (v : bool) (m : Machine) : Machine :=
  mkMachine (filtered_V m) (last_disp_V m) v (last_hv_mode m)
  (display_filename_str m) (msg_buf m) (t_meas m) (t_disp m) (t_ser m) (t_hb
  m) (u8_font m) (u8_fg m) (u8_bg m) (u8_cx m) (u8_cy m) (clock m)
  (mode_pin_high m) (adc_in m) (adc_pos m) (serial_up m) (glyph_width m)
  (attenuation m) (led m) (trace m).

Definition set_last_hv_mode (v : bool) (m : Machine) : Machine :=
  mkMachine (filtered_V m) (last_disp_V m) (use_hv_mode m) v
  (display_filename_str m) (msg_buf m) (t_meas m) (t_disp m) (t_ser m) (t_hb
  m) (u8_font m) (u8_fg m) (u8_bg m) (u8_cx m) (u8_cy m) (clock m)
  (mode_pin_high m) (adc_in m) (adc_pos m) (serial_up m) (glyph_width m)
  (attenuation m) (led m) (trace m).

Definition set_display_filename_str (v : string) (m : Machine) : Machine :=
  mkMachine (filtered_V m) (last_disp_V m) (use_hv_mode m) (last_hv_mode m) v
  (msg_buf m) (t_meas m) (t_disp m) (t_ser m) (t_hb m) (u8_font m) (u8_fg m)
  (u8_bg m) (u8_cx m) (u8_cy m) (clock m) (mode_pin_high m) (adc_in m)
  (adc_pos m) (serial_up m) (glyph_width m) (attenuation m) (led m) (trace m).

Definition set_msg_buf (v : string) (m : Machine) : Machine :=
  mkMachine (filtered_V m) (last_disp_V m) (use_hv_mode m) (last_hv_mode m)
  (display_filename_str m) v (t_meas m) (t_disp m) (t_ser m) (t_hb m) (u8_font
  m) (u8_fg m) (u8_bg m) (u8_cx m) (u8_cy m) (clock m) (mode_pin_high m)
  (adc_in m) (adc_pos m) (serial_up m) (glyph_width m) (attenuation m) (led m)
  (trace m).

Definition set_t_meas (v : Z) (m : Machine) : Machine :=
  mkMachine (filtered_V m) (last_disp_V m) (use_hv_mode m) (last_hv_mode m)
  (display_filename_str m) (msg_buf m) v (t_disp m) (t_ser m) (t_hb m)
  (u8_font m) (u8_fg m) (u8_bg m) (u8_cx m) (u8_cy m) (clock m) (mode_pin_high
  m) (adc_in m) (adc_pos m) (serial_up m) (glyph_width m) (attenuation m) (led
  m) (trace m).

Definition set_t_disp (v : Z) (m : Machine) : Machine :=
  mkMachine (filtered_V m) (last_disp_V m) (use_hv_mode m) (last_hv_mode m)
  (display_filename_str m) (msg_buf m) (t_meas m) v (t_ser m) (t_hb m)
  (u8_font m) (u8_fg m) (u8_bg m) (u8_cx m) (u8_cy m) (clock m) (mode_pin_high
  m) (adc_in m) (adc_pos m) (serial_up m) (glyph_width m) (attenuation m) (led
  m) (trace m).

Definition set_t_ser (v : Z) (m : Machine) : Machine :=
  mkMachine (filtered_V m) (last_disp_V m) (use_hv_mode m) (last_hv_mode m)
  (display_filename_str m) (msg_buf m) (t_meas m) (t_disp m) v (t_hb m)
  (u8_font m) (u8_fg m) (u8_bg m) (u8_cx m) (u8_cy m) (clock m) (mode_pin_high
  m) (adc_in m) (adc_pos m) (serial_up m) (glyph_width m) (attenuation m) (led
  m) (trace m).

Definition set_t_hb (v : Z) (m : Machine) : Machine :=
  mkMachine (filtered_V m) (last_disp_V m) (use_hv_mode m) (last_hv_mode m)
  (display_filename_str m) (msg_buf m) (t_meas m) (t_disp m) (t_ser m) v
  (u8_font m) (u8_fg m) (u8_bg m) (u8_cx m) (u8_cy m) (clock m) (mode_pin_high
  m) (adc_in m) (adc_pos m) (serial_up m) (glyph_width m) (attenuation m) (led
  m) (trace m).

Definition set_u8_font (v : Font) (m : Machine) : Machine :=
  mkMachine (filtered_V m) (last_disp_V m) (use_hv_mode m) (last_hv_mode m)
  (display_filename_str m) (msg_buf m) (t_meas m) (t_disp m) (t_ser m) (t_hb
  m) v (u8_fg m) (u8_bg m) (u8_cx m) (u8_cy m) (clock m) (mode_pin_high m)
  (adc_in m) (adc_pos m) (serial_up m) (glyph_width m) (attenuation m) (led m)
  (trace m).

Definition set_u8_fg (v : Z) (m : Machine) : Machine :=
  mkMachine (filtered_V m) (last_disp_V m) (use_hv_mode m) (last_hv_mode m)
  (display_filename_str m) (msg_buf m) (t_meas m) (t_disp m) (t_ser m) (t_hb
  m) (u8_font m) v (u8_bg m) (u8_cx m) (u8_cy m) (clock m) (mode_pin_high m)
  (adc_in m) (adc_pos m) (serial_up m) (glyph_width m) (attenuation m) (led m)
  (trace m).

Definition set_u8_bg (v : Z) (m : Machine) : Machine :=
  mkMachine (filtered_V m) (last_disp_V m) (use_hv_mode m) (last_hv_mode m)
  (display_filename_str m) (msg_buf m) (t_meas m) (t_disp m) (t_ser m) (t_hb
  m) (u8_font m) (u8_fg m) v (u8_cx m) (u8_cy m) (clock m) (mode_pin_high m)
  (adc_in m) (adc_pos m) (serial_up m) (glyph_width m) (attenuation m) (led m)
  (trace m).

Definition set_u8_cx (v : Z) (m : Machine) : Machine :=
  mkMachine (filtered_V m) (last_disp_V m) (use_hv_mode m) (last_hv_mode m)
  (display_filename_str m) (msg_buf m) (t_meas m) (t_disp m) (t_ser m) (t_hb
  m) (u8_font m) (u8_fg m) (u8_bg m) v (u8_cy m) (clock m) (mode_pin_high m)
  (adc_in m) (adc_pos m) (serial_up m) (glyph_width m) (attenuation m) (led m)
  (trace m).

Definition set_u8_cy (v : Z) (m : Machine) : Machine :=
  mkMachine (filtered_V m) (last_disp_V m) (use_hv_mode m) (last_hv_mode m)
  (display_filename_str m) (msg_buf m) (t_meas m) (t_disp m) (t_ser m) (t_hb
  m) (u8_font m) (u8_fg m) (u8_bg m) (u8_cx m) v (clock m) (mode_pin_high m)
  (adc_in m) (adc_pos m) (serial_up m) (glyph_width m) (attenuation m) (led m)
  (trace m).

Definition set_clock (v : Z) (m : Machine) : Machine :=
  mkMachine (filtered_V m) (last_disp_V m) (use_hv_mode m) (last_hv_mode m)
  (display_filename_str m) (msg_buf m) (t_meas m) (t_disp m) (t_ser m) (t_hb
  m) (u8_font m) (u8_fg m) (u8_bg m) (u8_cx m) (u8_cy m) v (mode_pin_high m)
  (adc_in m) (adc_pos m) (serial_up m) (glyph_width m) (attenuation m) (led m)
  (trace m).

Definition set_mode_pin_high (v : bool) (m : Machine) : Machine :=
  mkMachine (filtered_V m) (last_disp_V m) (use_hv_mode m) (last_hv_mode m)
  (display_filename_str m) (msg_buf m) (t_meas m) (t_disp m) (t_ser m) (t_hb
  m) (u8_font m) (u8_fg m) (u8_bg m) (u8_cx m) (u8_cy m) (clock m) v (adc_in
  m) (adc_pos m) (serial_up m) (glyph_width m) (attenuation m) (led m) (trace
  m).

Definition set_adc_in (v : nat -> Z) (m : Machine) : Machine :=
  mkMachine (filtered_V m) (last_disp_V m) (use_hv_mode m) (last_hv_mode m)
  (display_filename_str m) (msg_buf m) (t_meas m) (t_disp m) (t_ser m) (t_hb
  m) (u8_font m) (u8_fg m) (u8_bg m) (u8_cx m) (u8_cy m) (clock m)
  (mode_pin_high m) v (adc_pos m) (serial_up m) (glyph_width m) (attenuation
  m) (led m) (trace m).

Definition set_adc_pos (v : nat) (m : Machine) : Machine :=
  mkMachine (filtered_V m) (last_disp_V m) (use_hv_mode m) (last_hv_mode m)
  (display_filename_str m) (msg_buf m) (t_meas m) (t_disp m) (t_ser m) (t_hb
  m) (u8_font m) (u8_fg m) (u8_bg m) (u8_cx m) (u8_cy m) (clock m)
  (mode_pin_high m) (adc_in m) v (serial_up m) (glyph_width m) (attenuation m)
  (led m) (trace m).

Definition set_serial_up (v : bool) (m : Machine) : Machine :=
  mkMachine (filtered_V m) (last_disp_V m) (use_hv_mode m) (last_hv_mode m)
  (display_filename_str m) (msg_buf m) (t_meas m) (t_disp m) (t_ser m) (t_hb
  m) (u8_font m) (u8_fg m) (u8_bg m) (u8_cx m) (u8_cy m) (clock m)
  (mode_pin_high m) (adc_in m) (adc_pos m) v (glyph_width m) (attenuation m)
  (led m) (trace m).

Definition set_glyph_width (v : Font -> string -> Z) (m : Machine) : Machine :=
  mkMachine (filtered_V m) (last_disp_V m) (use_hv_mode m) (last_hv_mode m)
  (display_filename_str m) (msg_buf m) (t_meas m) (t_disp m) (t_ser m) (t_hb
  m) (u8_font m) (u8_fg m) (u8_bg m) (u8_cx m) (u8_cy m) (clock m)
  (mode_pin_high m) (adc_in m) (adc_pos m) (serial_up m) v (attenuation m)
  (led m) (trace m).

Definition set_attenuation (v : adc_attenuation_t) (m : Machine) : Machine :=
  mkMachine (filtered_V m) (last_disp_V m) (use_hv_mode m) (last_hv_mode m)
  (display_filename_str m) (msg_buf m) (t_meas m) (t_disp m) (t_ser m) (t_hb
  m) (u8_font m) (u8_fg m) (u8_bg m) (u8_cx m) (u8_cy m) (clock m)
  (mode_pin_high m) (adc_in m) (adc_pos m) (serial_up m) (glyph_width m) v
  (led m) (trace m).

Definition set_led (v : bool) (m : Machine) : Machine :=
  mkMachine (filtered_V m) (last_disp_V m) (use_hv_mode m) (last_hv_mode m)
  (display_filename_str m) (msg_buf m) (t_meas m) (t_disp m) (t_ser m) (t_hb
  m) (u8_font m) (u8_fg m) (u8_bg m) (u8_cx m) (u8_cy m) (clock m)
  (mode_pin_high m) (adc_in m) (adc_pos m) (serial_up m) (glyph_width m)
  (attenuation m) v (trace m).

Definition set_trace (v : list Event) (m : Machine) : Machine :=
  mkMachine (filtered_V m) (last_disp_V m) (use_hv_mode m) (last_hv_mode m)
  (display_filename_str m) (msg_buf m) (t_meas m) (t_disp m) (t_ser m) (t_hb
  m) (u8_font m) (u8_fg m) (u8_bg m) (u8_cx m) (u8_cy m) (clock m)
  (mode_pin_high m) (adc_in m) (adc_pos m) (serial_up m) (glyph_width m)
  (attenuation m) (led m) v.

(** ** The state monad of the sketch *)

Definition M (A : Type) : Type := Machine -> A * Machine.

Definition ret {A : Type} (a : A) : M A := fun m => (a, m).

Definition bind {A B : Type} (c : M A) (k : A -> M B) : M B :=
  fun m => let (a, m') := c m in k a m'.

Definition gets {A : Type} (f : Machine -> A) : M A := fun m => (f m, m).

Definition modify (f : Machine -> Machine) : M unit := fun m => (tt, f m).

Definition exec {A : Type} (c : M A) (m : Machine) : Machine := snd (c m).

Definition eval {A : Type} (c : M A) (m : Machine) : A := fst (c m).

Declare Scope sketch_scope.
Delimit Scope sketch_scope with sketch.
Notation "x <- c ;; k" := (bind c (fun x => k))
  (at level 61, c at next level, right associativity) : sketch_scope.
Notation "c ;; k" := (bind c (fun _ => k))
  (at level 61, right associativity) : sketch_scope.
Local Open Scope sketch_scope.

Definition when (b : bool) (c : M unit) : M unit := if b then c else ret tt.

Definition emit (e : Event) : M unit :=
  modify (fun m => set_trace (trace m ++ [e]) m).

(** The events a computation adds to the trace of [m]. *)
Definition emitted {A : Type} (c : M A) (m : Machine) : list Event :=
  skipn (List.length (trace m)) (trace (exec c m)).

(** *** Arduino core *)

Definition uint32 (z : Z) : Z := z mod 2 ^ 32.
Definition uint16 (z : Z) : Z := z mod 2 ^ 16.

(** [millis()]: the millisecond counter, an unsigned 32-bit value.  The
    counter is an input of the model; it is the same for every call made
    during one pass through [loop]. *)
Definition millis : M Z := gets (fun m => uint32 (clock m)).

(** [ms_since(start)]: unsigned 32-bit subtraction. *)
Definition ms_since (start : Z) : M Z :=
  now <- millis;; ret (uint32 (now - start)).

(** [analogRead(VOLT_PIN)]: the next conversion result, an unsigned 16-bit
    code. *)
Definition analogRead : M Z :=
  v <- gets (fun m => uint16 (adc_in m (adc_pos m)));;
  modify (fun m => set_adc_pos (S (adc_pos m)) m);;
  emit (EvAnalogRead v);;
  ret v.

(** [digitalRead(MODE_PIN)]: [true] is HIGH. *)
Definition digitalRead_MODE_PIN : M bool :=
  v <- gets mode_pin_high;;
  emit (EvModeRead v);;
  ret v.

Definition analogSetAttenuation (a : adc_attenuation_t) : M unit :=
  modify (set_attenuation a);; emit (EvAtten a).

Definition digitalWrite_LED_BUILTIN (v : bool) : M unit :=
  modify (set_led v);; emit (EvLed v).

Definition digitalRead_LED_BUILTIN : M bool := gets led.

(** [echo]: the message reaches the host only while the port is up. *)
Definition echo (msg : string) : M unit :=
  up <- gets serial_up;;
  when up (emit (EvSerial msg)).

(** *** Display libraries *)

Module tft.
Definition fillScreen (c : Z) : M unit := emit (EvDraw (FillScreen c)).
Definition fillRect (x y w h c : Z) : M unit := emit (EvDraw (FillRect x y w h c)).
Definition drawFastHLine (x y w c : Z) : M unit := emit (EvDraw (DrawFastHLine x y w c)).
Definition drawFastVLine (x y h c : Z) : M unit := emit (EvDraw (DrawFastVLine x y h c)).
End tft.

Module u8g2.
Definition setFont (f : Font) : M unit := modify (set_u8_font f).
Definition setForegroundColor (c : Z) : M unit := modify (set_u8_fg c).
Definition setBackgroundColor (c : Z) : M unit := modify (set_u8_bg c).
Definition setCursor (x y : Z) : M unit :=
  modify (fun m => set_u8_cy y (set_u8_cx x m)).
(** Width in pixels of a string in the current font: the glyph metrics
    are data of the font, an input of the model (an unsigned 16-bit
    value). *)
Definition getUTF8Width (s : string) : M Z :=
  gets (fun m => uint16 (glyph_width m (u8_font m) s)).
(** Draws the string at the cursor and advances the cursor by its width. *)
Definition print (s : string) : M unit :=
  w <- getUTF8Width s;;
  m <- gets (fun m => m);;
  emit (EvDraw (Print (u8_font m) (u8_fg m) (u8_bg m) (u8_cx m) (u8_cy m) s));;
  modify (fun m => set_u8_cx (u8_cx m + w) m).
End u8g2.

(** ** Number formatting of the C library

    [sprintf] and [dtostrf] belong to the C library, not to the sketch; they
    are modelled by their contract: the decimal expansion of the exact
    binary value, rounded to the requested number of fractional digits
    (ties to even for [printf], half up for [dtostrf], which adds half a
    unit of the last digit before it truncates), right-aligned in the
    requested minimum width. *)

Local Open Scope string_scope.

Definition digit_char (d : Z) : ascii := ascii_of_nat (48 + Z.to_nat d).

Definition is_digit (c : ascii) : bool :=
  (48 <=? nat_of_ascii c)%nat && (nat_of_ascii c <=? 57)%nat.

Fixpoint all_chars (p : ascii -> bool) (s : string) : bool :=
  match s with
  | EmptyString => true
  | String c r => p c && all_chars p r
  end.

(** Exactly [k] decimal digits of [n], most significant first. *)
Fixpoint digits_fixed (k : nat) (n : Z) : string :=
  match k with
  | O => EmptyString
  | S k' => digits_fixed k' (n / 10) ++ String (digit_char (n mod 10)) EmptyString
  end.

(** A non-negative integer in decimal, without leading zeros. *)
Definition dec_string (n : Z) : string :=
  NilZero.string_of_uint (N.to_uint (Z.to_N n)).

Fixpoint spaces (k : nat) : string :=
  match k with
  | O => EmptyString
  | S k' => String " " (spaces k')
  end.

Definition pad_left (w : nat) (s : string) : string :=
  spaces (w - String.length s) ++ s.

(** Nearest integer to a non-negative rational. *)
Definition Qround (half_up : bool) (q : Q) : Z :=
  let n := Qnum q in
  let d := Z.pos (Qden q) in
  let fl := n / d in
  match 2 * (n mod d) ?= d with
  | Lt => fl
  | Gt => fl + 1
  | Eq => if half_up then fl + 1 else if Z.even fl then fl else fl + 1
  end.

(** Nearest integer to [|x| * 10^p]. *)
Definition scaled_round (half_up : bool) (p : nat) (x : f32) : Z :=
  Qround half_up (Qabs (F32.to_Q x) * inject_Z (10 ^ Z.of_nat p)).

Definition fmt_fixed (half_up : bool) (p : nat) (x : f32) : string :=
  match x with
  | S754_nan => "nan"
  | S754_infinity s => if s then "-inf" else "inf"
  | _ =>
      let n := scaled_round half_up p x in
      (if F32.sign x then "-" else EmptyString)
      ++ dec_string (n / 10 ^ Z.of_nat p)
      ++ match p with
         | O => EmptyString
         | _ => "." ++ digits_fixed p (n mod 10 ^ Z.of_nat p)
         end
  end.

(** [dtostrf(x, width, prec, buf)]. *)
Definition dtostrf (x : f32) (width prec : nat) : string :=
  pad_left width (fmt_fixed true prec x).

(** [sprintf] with the conversion [%<width>u]. *)
Definition fmt_u (width : nat) (n : Z) : string :=
  pad_left width (dec_string (uint32 n)).

(** [sprintf] with the conversion [%<width>.<prec>f]. *)
Definition fmt_f (width prec : nat) (x : f32) : string :=
  pad_left width (fmt_fixed false prec x).

Definition newline : string := String (ascii_of_nat 10) EmptyString.

Local Close Scope string_scope.

(** ** The sketch *)

(** The oversampling loop of [measureVoltage]: [i] readings are still to
    be taken, [sum] is the 32-bit accumulator.  The 50 us busy-wait between
    readings only paces them and has no effect on the value; the
    microsecond clock is not part of the model. *)
Fixpoint sample_loop (i : nat) (sum : Z) : M Z :=
  match i with
  | O => ret sum
  | S i' => v <- analogRead;; sample_loop i' (uint32 (sum + v))
  end.

Definition N_SAMPLES : nat := 8.

Definition measureVoltage : M f32 :=
  sum <- sample_loop N_SAMPLES 0;;
  let avg_code := F32.div (F32.of_Z sum) (F32.of_Z (Z.of_nat N_SAMPLES)) in
  hv <- gets use_hv_mode;;
  let scale_ref := if hv then F32.lit 11 10 else F32.lit 33 10 in
  ret (F32.mul (F32.div avg_code ADC_MAX_CODE) scale_ref).

(** The [for] loop of [drawBarGraph]: segments of 4 pixels every 5 pixels
    from [x] up to [BAR_X_END]. *)
Fixpoint bar_loop (fuel : nat) (x active_px color : Z) : M unit :=
  match fuel with
  | O => ret tt
  | S fuel' =>
      if x <? BAR_X_END then
        let barColor := if x - BAR_X_START <? active_px then color else 0x2102 in
        tft.fillRect x BAR_Y 4 BAR_H barColor;;
        bar_loop fuel' (x + 5) active_px color
      else ret tt
  end.

Definition bar_active_px (hv : bool) (val : f32) : Z :=
  let fs_limit := if hv then FS_KV_MODE else FS_V_MODE in
  let percent := F32.div val fs_limit in
  let percent := if F32.ltb (F32.of_Z 1) percent then F32.of_Z 1 else percent in
  let percent := if F32.ltb percent (F32.of_Z 0) then F32.of_Z 0 else percent in
  F32.to_Z_trunc (F32.mul percent (F32.of_Z 220)).

Definition drawBarGraph (val : f32) (color : Z) : M unit :=
  hv <- gets use_hv_mode;;
  bar_loop (Z.to_nat (BAR_X_END - BAR_X_START)) BAR_X_START
           (bar_active_px hv val) color.

Definition updateMainUI (val : f32) : M unit :=
  hv <- gets use_hv_mode;;
  let activeColor := if hv then primary Theme else secondary Theme in
  let displayVal := if hv then F32.mul val (F32.of_Z 10) else val in
  (* 1. large number *)
  let sbuf := dtostrf displayVal 5 2 in
  u8g2.setFont u8g2_font_inb27_mn;;
  u8g2.setForegroundColor activeColor;;
  u8g2.setBackgroundColor (bg Theme);;
  valWidth <- u8g2.getUTF8Width sbuf;;
  let xVal := Z.quot (240 - valWidth - 45) 2 in
  u8g2.setCursor xVal 100;;
  u8g2.print sbuf;;
  (* 2. unit area clear + draw *)
  let unitX := xVal + valWidth + 6 in
  tft.fillRect unitX 70 45 35 (bg Theme);;
  u8g2.setFont u8g2_font_9x15_tr;;
  u8g2.setForegroundColor activeColor;;
  u8g2.setBackgroundColor (bg Theme);;
  u8g2.setCursor unitX 100;;
  u8g2.print (if hv then "kV" else "V")%string;;
  (* 3. pin voltage info *)
  (if hv then
     let sbuf := (fmt_f 0 3 val ++ "V")%string in
     u8g2.setFont u8g2_font_9x15_tr;;
     u8g2.setForegroundColor TAN_PALLADIAN;;
     u8g2.setBackgroundColor (bg Theme);;
     u8g2.setCursor BAR_X_START 20;;
     u8g2.print sbuf
   else
     tft.fillRect BAR_X_START 5 100 20 (bg Theme));;
  drawBarGraph val activeColor.

Fixpoint tick_loop (n : nat) (i : Z) : M unit :=
  match n with
  | O => ret tt
  | S n' =>
      tft.drawFastVLine (BAR_X_START + i * 22) AXIS_Y TICK_H (accent Theme);;
      tick_loop n' (i + 1)
  end.

Definition drawStaticUI : M unit :=
  tft.drawFastHLine BAR_X_START AXIS_Y 220 (accent Theme);;
  tick_loop 11 0;;
  u8g2.setFont u8g2_font_9x15_tr;;
  u8g2.setForegroundColor (footer Theme);;
  u8g2.setBackgroundColor (bg Theme);;
  u8g2.setCursor 2 133;;
  name <- gets display_filename_str;;
  u8g2.print name;;
  w <- u8g2.getUTF8Width VERSION_STR;;
  u8g2.setCursor (240 - w - 2) 133;;
  u8g2.print VERSION_STR.

Definition printVolts : M unit :=
  now <- millis;;
  v <- gets filtered_V;;
  modify (set_msg_buf (fmt_u 7 now ++ ", " ++ fmt_f 6 4 v ++ newline)%string);;
  buf <- gets msg_buf;;
  echo buf.

Definition dispVolts : M unit :=
  pin <- digitalRead_MODE_PIN;;
  modify (set_use_hv_mode (negb pin));;
  hv <- gets use_hv_mode;;
  last <- gets last_hv_mode;;
  when (negb (Bool.eqb hv last))
    (analogSetAttenuation (if hv then ADC_0db else ADC_11db);;
     modify (set_last_hv_mode hv);;
     tft.fillScreen (bg Theme);;
     drawStaticUI;;
     v <- gets filtered_V;;
     updateMainUI v);;
  v <- gets filtered_V;;
  shown <- gets last_disp_V;;
  when (F32.leb REDRAW_THRESHOLD (F32.abs (F32.sub v shown)))
    (modify (set_last_disp_V v);;
     v' <- gets last_disp_V;;
     updateMainUI v').

(** The filter update of [loop]:
    [(ALPHA * sample) + (1.0f - ALPHA) * filtered_V]. *)
Definition ema (sample prev : f32) : f32 :=
  F32.add (F32.mul ALPHA sample) (F32.mul (F32.sub (F32.of_Z 1) ALPHA) prev).

Definition acquire : M unit :=
  now <- millis;;
  modify (set_t_meas now);;
  x <- measureVoltage;;
  f <- gets filtered_V;;
  modify (set_filtered_V (ema x f)).

Definition report : M unit :=
  now <- millis;;
  modify (set_t_ser now);;
  printVolts.

Definition render : M unit :=
  now <- millis;;
  modify (set_t_disp now);;
  dispVolts.

Definition heartbeat_on : M unit :=
  now <- millis;;
  modify (set_t_hb now);;
  digitalWrite_LED_BUILTIN true.

Definition led_off : M unit :=
  on <- digitalRead_LED_BUILTIN;;
  t <- gets t_hb;; e <- ms_since t;;
  when (on && (HB_ON_MS <=? e)) (digitalWrite_LED_BUILTIN false).

(** The pattern of the four [if] statements of [loop]:
    [if (ms_since(last) >= interval) { last = millis(); ... }]; the
    assignment to [last] opens each of the four bodies above. *)
Definition every (last : Machine -> Z) (interval : Z) (body : M unit) : M unit :=
  t <- gets last;;
  e <- ms_since t;;
  when (interval <=? e) body.

(** One pass through [loop]. *)
Definition loop : M unit :=
  every t_meas MEAS_INTERVAL_MS acquire;;
  every t_ser SER_INTERVAL_MS report;;
  every t_disp DISP_INTERVAL_MS render;;
  every t_hb HB_PERIOD_MS heartbeat_on;;
  led_off.

(** *** Start-up *)

(** The part of a path after its last [/] or [\]. *)
Fixpoint basename_from (s acc : string) : string :=
  match s with
  | EmptyString => acc
  | String c r =>
      if (Ascii.eqb c (ascii_of_nat 47) || Ascii.eqb c (ascii_of_nat 92))%bool then basename_from r r
      else basename_from r acc
  end.

Definition basename (path : string) : string := basename_from path path.

(** [initHardware]: pin modes and the NeoPixel have no state in the model;
    [path] is the value of [__FILE__]. *)
Definition initHardware (path : string) : M unit :=
  analogSetAttenuation ADC_11db;;
  modify (set_display_filename_str (basename path)).

Definition initDisplay : M unit := tft.fillScreen (bg Theme).

(** [initSerial]: the banner; the bounded wait for the host before it is
    a matter of the clock only. *)
Definition initSerial : M unit :=
  echo (newline ++ "# ------------------------------------------------" ++ newline)%string;;
  name <- gets display_filename_str;;
  modify (set_msg_buf ("# FILE:    " ++ name ++ newline)%string);;
  buf <- gets msg_buf;; echo buf;;
  modify (set_msg_buf ("# VER:     " ++ VERSION_STR ++ newline)%string);;
  buf <- gets msg_buf;; echo buf;;
  modify (set_msg_buf ("# MODE PIN: 8 (Silkscreen A5)" ++ newline)%string);;
  buf <- gets msg_buf;; echo buf;;
  echo ("# COLUMNS: ms, volts_filtered" ++ newline)%string;;
  echo ("# ------------------------------------------------" ++ newline)%string.

Definition setup (path : string) : M unit :=
  initHardware path;;
  initDisplay;;
  drawStaticUI;;
  initSerial.

(** The board at reset, with the initial values of the sketch's globals and
    of the statics of [loop].  The inputs are arguments: the conversion
    results, the glyph metrics, the power-on attenuation of the converter. *)
Definition power_on (adc : nat -> Z) (gw : Font -> string -> Z)
    (att : adc_attenuation_t) : Machine :=
  {| filtered_V := F32.of_Z 0;
     last_disp_V := F32.of_Z (-99);
     use_hv_mode := false;
     last_hv_mode := false;
     display_filename_str := EmptyString;
     msg_buf := EmptyString;
     t_meas := 0; t_disp := 0; t_ser := 0; t_hb := 0;
     u8_font := u8g2_font_none; u8_fg := 0; u8_bg := 0; u8_cx := 0; u8_cy := 0;
     clock := 0;
     mode_pin_high := true;
     adc_in := adc;
     adc_pos := O;
     serial_up := true;
     glyph_width := gw;
     attenuation := att;
     led := false;
     trace := [] |}.

(** *** The environment

    Between two passes through [loop] the environment moves the clock and
    may change the level of the mode pin and the state of the serial
    port. *)
Record Inputs : Type := mkInputs {
  in_clock : Z;
  in_mode_pin_high : bool;
  in_serial_up : bool
}.

Definition present (i : Inputs) (m : Machine) : Machine :=
  set_serial_up (in_serial_up i)
    (set_mode_pin_high (in_mode_pin_high i) (set_clock (in_clock i) m)).

Definition pass (i : Inputs) (m : Machine) : Machine :=
  exec loop (present i m).

Definition run (ins : list Inputs) (m : Machine) : Machine :=
  fold_left (fun m i => pass i m) ins m.

(** ** Vocabulary of the statements *)

(** The range selected by the mode pin: LOW selects the kV range. *)
Definition pin_range (m : Machine) : bool := negb (mode_pin_high m).

(** The attenuation that belongs to a range. *)
Definition atten_of (hv : bool) : adc_attenuation_t :=
  if hv then ADC_0db else ADC_11db.

(** The redraw test of [dispVolts], on the pin-referred values. *)
Definition moved (m : Machine) : bool :=
  F32.leb REDRAW_THRESHOLD (F32.abs (F32.sub (filtered_V m) (last_disp_V m))).

Definition active_color (hv : bool) : Z :=
  if hv then ORA_BURNING else ORA_AMBER.

(** The number shown in large digits for the pin voltage [val]. *)
Definition display_value (hv : bool) (val : f32) : f32 :=
  if hv then F32.mul val (F32.of_Z 10) else val.

Definition number_text (hv : bool) (val : f32) : string :=
  dtostrf (display_value hv val) 5 2.

Definition unit_label (hv : bool) : string := if hv then "kV" else "V".

(** The 44 segments of the bar. *)
Definition bar_ops (active_px color : Z) : list DrawOp :=
  map (fun k => let x := BAR_X_START + 5 * Z.of_nat k in
                FillRect x BAR_Y 4 BAR_H
                  (if x - BAR_X_START <? active_px then color else 0x2102))
      (seq 0 44).

(** The value region: number, unit label, pin-voltage line, bar. *)
Definition value_ops (gw : Font -> string -> Z) (hv : bool) (val : f32)
  : list DrawOp :=
  let w := uint16 (gw u8g2_font_inb27_mn (number_text hv val)) in
  let xVal := Z.quot (240 - w - 45) 2 in
  let unitX := xVal + w + 6 in
  [ Print u8g2_font_inb27_mn (active_color hv) COL_BLACK xVal 100
          (number_text hv val);
    FillRect unitX 70 45 35 COL_BLACK;
    Print u8g2_font_9x15_tr (active_color hv) COL_BLACK unitX 100
          (unit_label hv);
    if hv
    then Print u8g2_font_9x15_tr TAN_PALLADIAN COL_BLACK BAR_X_START 20
               (fmt_f 0 3 val ++ "V")%string
    else FillRect BAR_X_START 5 100 20 COL_BLACK ]
  ++ bar_ops (bar_active_px hv val) (active_color hv).

(** The static chrome: axis, eleven tick marks, the two footer labels. *)
Definition chrome_ops (gw : Font -> string -> Z) (name : string)
  : list DrawOp :=
  DrawFastHLine BAR_X_START AXIS_Y 220 RST_COPPER
  :: map (fun i => DrawFastVLine (BAR_X_START + Z.of_nat i * 22) AXIS_Y
                                 TICK_H RST_COPPER) (seq 0 11)
  ++ [ Print u8g2_font_9x15_tr RST_MID_FOOTER COL_BLACK 2 133 name;
       Print u8g2_font_9x15_tr RST_MID_FOOTER COL_BLACK
             (240 - uint16 (gw u8g2_font_9x15_tr VERSION_STR) - 2) 133
             VERSION_STR ].

(** The state of the text renderer: font, colours, cursor. *)
Definition pen (f : Font) (fg_color bg_color x y : Z) (m : Machine) : Machine :=
  set_u8_cy y (set_u8_cx x (set_u8_bg bg_color (set_u8_fg fg_color
    (set_u8_font f m)))).

(** The machine after some drawing. *)
Definition drawn (ops : list DrawOp) (m : Machine) : Machine :=
  set_trace (trace m ++ map EvDraw ops) m.

(** The difference of the two numbers as the display shows them. *)
Definition display_delta (m : Machine) : f32 :=
  F32.abs (F32.sub (display_value (use_hv_mode m) (filtered_V m))
                   (display_value (use_hv_mode m) (last_disp_V m))).

(** A bench set-up for the examples: glyphs ten pixels wide, a converter
    that returns the same code for ever. *)
Definition bench_gw (f : Font) (s : string) : Z := 10 * Z.of_nat (String.length s).

Definition bench (code : Z) : Machine :=
  exec (setup "/sketch/Voltmeter_kV_TFT.ino")
       (power_on (fun _ => code) bench_gw ADC_0db).

(** The bench with a value on the display: range, filtered value, value
    last drawn, level of the mode pin. *)
Definition showing (hv : bool) (v shown : f32) (pin_high : bool) : Machine :=
  set_mode_pin_high pin_high
    (set_attenuation (atten_of hv)
       (set_last_hv_mode hv
          (set_use_hv_mode hv
             (set_last_disp_V shown (set_filtered_V v (bench 0)))))).

(** Whether an activity is due: the test of [every]. *)
Definition due (last : Machine -> Z) (interval : Z) (m : Machine) : bool :=
  interval <=? uint32 (uint32 (clock m) - last m).

(** The eight conversion results that the next acquisition reads. *)
Definition readings (m : Machine) : list Z :=
  map (fun k => uint16 (adc_in m (k + adc_pos m)%nat)) (seq 0 8).

Definition sum_codes (codes : list Z) : Z := fold_right Z.add 0 codes.

Definition scale_ref (hv : bool) : f32 :=
  if hv then F32.lit 11 10 else F32.lit 33 10.

(** Mean code over full scale times the reference of the range. *)
Definition convert (hv : bool) (codes : list Z) : f32 :=
  F32.mul
    (F32.div (F32.div (F32.of_Z (sum_codes codes)) (F32.of_Z 8)) ADC_MAX_CODE)
    (scale_ref hv).

(** The line that [printVolts] formats. *)
Definition report_line (m : Machine) : string :=
  (fmt_u 7 (uint32 (clock m)) ++ ", " ++ fmt_f 6 4 (filtered_V m) ++ newline)%string.

Definition is_analog_read (e : Event) : bool :=
  match e with EvAnalogRead _ => true | _ => false end.

Definition is_mode_read (e : Event) : bool :=
  match e with EvModeRead _ => true | _ => false end.

Definition is_serial (e : Event) : bool :=
  match e with EvSerial _ => true | _ => false end.

Definition is_draw (e : Event) : bool :=
  match e with EvDraw _ => true | _ => false end.

Definition count (p : Event -> bool) (evs : list Event) : nat :=
  List.length (filter p evs).

(** What the drawing routines leave alone: timers, inputs, converter
    position, LED. *)
Definition same_board (m m' : Machine) : Prop :=
  t_meas m' = t_meas m /\ t_ser m' = t_ser m /\ t_disp m' = t_disp m
  /\ t_hb m' = t_hb m /\ clock m' = clock m
  /\ mode_pin_high m' = mode_pin_high m /\ serial_up m' = serial_up m
  /\ adc_in m' = adc_in m /\ adc_pos m' = adc_pos m
  /\ glyph_width m' = glyph_width m
  /\ display_filename_str m' = display_filename_str m /\ led m' = led m.

(** The range invariant: the converter is set for the range in use, and
    the range in use is the range last configured. *)
Definition range_synced (m : Machine) : Prop :=
  attenuation m = atten_of (use_hv_mode m) /\ last_hv_mode m = use_hv_mode m.

(** The machine after the three timed activities of a pass. *)
Definition after_acquire (m : Machine) : Machine :=
  if due t_meas MEAS_INTERVAL_MS m then exec acquire m else m.

Definition after_report (m : Machine) : Machine :=
  let m1 := after_acquire m in
  if due t_ser SER_INTERVAL_MS m1 then exec report m1 else m1.

Definition after_render (m : Machine) : Machine :=
  let m2 := after_report m in
  if due t_disp DISP_INTERVAL_MS m2 then exec render m2 else m2.


(** *** The scheduler seen from outside

    What the statements on the scheduler are about: the three timers and how often
    each activity has left its mark on the trace (eight conversions per
    acquisition, one line per report, one reading of the mode pin per
    rendering). *)
Record SchedView : Type := mkView {
  v_meas : Z; v_ser : Z; v_disp : Z;
  n_reads : nat; n_lines : nat; n_evals : nat
}.

Definition sched_view (m : Machine) : SchedView :=
  mkView (t_meas m) (t_ser m) (t_disp m)
         (count is_analog_read (trace m))
         (count is_serial (trace m))
         (count is_mode_read (trace m)).

Definition fire (now last interval : Z) : bool :=
  interval <=? uint32 (uint32 now - last).

Definition step_acquire (now : Z) (s : SchedView) : SchedView :=
  if fire now (v_meas s) MEAS_INTERVAL_MS
  then mkView (uint32 now) (v_ser s) (v_disp s)
              (n_reads s + 8) (n_lines s) (n_evals s)
  else s.

Definition step_report (now : Z) (s : SchedView) : SchedView :=
  if fire now (v_ser s) SER_INTERVAL_MS
  then mkView (v_meas s) (uint32 now) (v_disp s)
              (n_reads s) (n_lines s + 1) (n_evals s)
  else s.

Definition step_render (now : Z) (s : SchedView) : SchedView :=
  if fire now (v_disp s) DISP_INTERVAL_MS
  then mkView (v_meas s) (v_ser s) (uint32 now)
              (n_reads s) (n_lines s) (n_evals s + 1)
  else s.

Definition sched_step (now : Z) (s : SchedView) : SchedView :=
  step_render now (step_report now (step_acquire now s)).

Definition sched_run (clocks : list Z) (s : SchedView) : SchedView :=
  fold_left (fun s now => sched_step now s) clocks s.

(** A millisecond tick source: the clock reads 1, 2, ..., [n]. *)
Definition ms_ticks (n : nat) : list Z := map Z.of_nat (seq 1 n).

(** The counters only add up: a run from any counts is the run from zero,
    shifted. *)
Definition shift_counts (a b c : nat) (s : SchedView) : SchedView :=
  mkView (v_meas s) (v_ser s) (v_disp s)
         (a + n_reads s) (b + n_lines s) (c + n_evals s).

(** A bench run: [n] passes one millisecond apart, mode pin open. *)
Definition ms_inputs (n : nat) : list Inputs :=
  map (fun k => mkInputs (Z.of_nat k) true true) (seq 1 n).

(** Whether, in the events of one pass, the mode pin is read before the
    first conversion (or there is no conversion at all). *)
Fixpoint mode_read_first (evs : list Event) : bool :=
  match evs with
  | [] => true
  | EvModeRead _ :: _ => true
  | EvAnalogRead _ :: _ => false
  | _ :: rest => mode_read_first rest
  end.

(** *** The filter in exact arithmetic

    Follows the words of the specification, over the rationals:
    [filtered = alpha * rawSample + (1 - alpha) * filtered_prev] with
    [alpha = 0.50]. *)
Definition ALPHA_exact : Q := 1 # 2.

Definition ema_exact (sample prev : Q) : Q :=
  (ALPHA_exact * sample + (1 - ALPHA_exact) * prev)%Q.

(** The filtered value after [n] updates with the constant sample [x]. *)
Definition ema_run (n : nat) (x start : f32) : f32 := Nat.iter n (ema x) start.

Definition ema_exact_run (n : nat) (x start : Q) : Q :=
  Nat.iter n (ema_exact x) start.

(** The distance to the sample. *)
Definition error_of (x f : f32) : Q := Qabs (F32.to_Q f - F32.to_Q x).

(** The machine after [n] acquisitions. *)
Definition acquired (n : nat) (m : Machine) : Machine :=
  Nat.iter n (exec acquire) m.


(** *** The filter in binary32

    The value of a non-negative finite binary32 number in units of
    [2^-149], the smallest positive one. *)
Definition ticks (x : f32) : Z :=
  match x with
  | S754_finite false m e => Z.pos m * 2 ^ (e + 149)
  | _ => 0
  end.

(** A non-negative finite binary32 number: [+0], or a mantissa and an
    exponent in canonical form. *)
Definition plain (x : f32) : bool :=
  valid_binary 24 128 x
  && match x with
     | S754_zero false | S754_finite false _ _ => true
     | _ => false
     end.

(** [R] is [U] rounded to 24 significant bits: a multiple of the unit in
    the last place of [U] at most half a unit away. *)
Definition nearest24 (U R : Z) : Prop :=
  let n := Z.max 0 (Z.log2 U - 23) in
  R mod 2 ^ n = 0 /\ - 2 ^ n <= 2 * (R - U) <= 2 ^ n.


(** The inputs and the states of the filter that the statements cover: a
    constant input that is zero or at least [2^-125] (so that its half is
    a number of binary32 again) and below [2^127]; a state below
    [2^127]. *)
Definition ema_input (x : f32) : bool :=
  plain x && ((ticks x =? 0) || (2 ^ 24 <=? ticks x)) && (ticks x <? 2 ^ 276).

Definition ema_state (f : f32) : bool := plain f && (ticks f <? 2 ^ 276).

(** [n] passes through [loop] 17 ms apart from clock [t] on, the mode pin
    at the level [pin_high], the serial port up. *)
Definition passes_17ms (t : Z) (n : nat) (pin_high : bool) : list Inputs :=
  map (fun k => mkInputs (t + 17 * Z.of_nat k) pin_high true) (seq 0 n).

(** The converter delivers the same code whenever it is read: a constant
    raw input. *)
Definition steady (code : Z) (m : Machine) : Prop :=
  forall k : nat, adc_in m k = code.

(** The report line as the specification words it: the count of
    milliseconds, a comma and a space, the value with four fractional
    digits, a newline, and nothing else. *)
Definition unpadded_line (m : Machine) : string :=
  (dec_string (uint32 (clock m)) ++ ", "
   ++ fmt_fixed false 4 (filtered_V m) ++ newline)%string.

(** *** Vocabulary of the further properties *)

(** The path separators of [initHardware]. *)
Definition is_sep (c : ascii) : bool :=
  Ascii.eqb c (ascii_of_nat 47) || Ascii.eqb c (ascii_of_nat 92).

Definition no_sep (s : string) : bool := all_chars (fun c => negb (is_sep c)) s.

(** The full-scale limit of a range, as [drawBarGraph] selects it. *)
Definition fs_limit (hv : bool) : f32 := if hv then FS_KV_MODE else FS_V_MODE.

(** One segment of the bar. *)
Definition segment (color : Z) (k : nat) : Event :=
  EvDraw (FillRect (BAR_X_START + 5 * Z.of_nat k) BAR_Y 4 BAR_H color).

(** The number of lit segments for a count of active pixels. *)
Definition lit_segments (active_px : Z) : nat :=
  Z.to_nat (Z.max 0 (Z.min 44 ((active_px + 4) / 5))).

(** The time since the heartbeat timer was set, as [loop] computes it. *)
Definition hb_elapsed (m : Machine) : Z := uint32 (uint32 (clock m) - t_hb m).

Definition is_led_on (e : Event) : bool :=
  match e with EvLed true => true | _ => false end.

Definition is_led_off (e : Event) : bool :=
  match e with EvLed false => true | _ => false end.

(** The line reported in a pass: the clock and the filtered value as the
    acquisition of the same pass, if one is due, leaves it. *)
Definition fresh_value (m : Machine) : f32 :=
  if due t_meas MEAS_INTERVAL_MS m
  then ema (convert (use_hv_mode m) (readings m)) (filtered_V m)
  else filtered_V m.

Definition fresh_line (m : Machine) : string :=
  (fmt_u 7 (uint32 (clock m)) ++ ", " ++ fmt_f 6 4 (fresh_value m)
   ++ newline)%string.

(** What the heartbeat does in a pass. *)
Definition hb_events (m : Machine) : list Event :=
  if HB_PERIOD_MS <=? hb_elapsed m then [EvLed true]
  else if led m && (HB_ON_MS <=? hb_elapsed m) then [EvLed false]
  else [].

(** What drawing leaves alone: the variables of the sketch and the board;
    only the text renderer and the display change. *)
Definition only_drawn (m m' : Machine) : Prop :=
  filtered_V m' = filtered_V m /\ last_disp_V m' = last_disp_V m
  /\ use_hv_mode m' = use_hv_mode m /\ last_hv_mode m' = last_hv_mode m
  /\ msg_buf m' = msg_buf m /\ attenuation m' = attenuation m
  /\ same_board m m'.

(** The events of the range evaluation and of the drawing. *)
Definition is_display (e : Event) : bool :=
  match e with
  | EvModeRead _ | EvAtten _ | EvDraw _ => true
  | _ => false
  end.

(** Whether the LED is on [n] milliseconds after the heartbeat timer was
    set, in passes one millisecond apart, when it was [l] to begin with. *)
Definition lit_after (l : bool) (n : Z) : bool :=
  if n <? HB_PERIOD_MS then l && (n <? HB_ON_MS)
  else n mod HB_PERIOD_MS <? HB_ON_MS.

(** The state [m] reached from [m0] by [n] passes one millisecond apart,
    from a state in which all four timers stand at [c]: every timer stands
    at the last multiple of its interval, and every activity has left one
    mark on the trace per interval elapsed. *)
Definition ticked (c : Z) (n : nat) (m0 m : Machine) : Prop :=
  t_meas m = uint32 (c + MEAS_INTERVAL_MS * (Z.of_nat n / MEAS_INTERVAL_MS))
  /\ t_ser m = uint32 (c + SER_INTERVAL_MS * (Z.of_nat n / SER_INTERVAL_MS))
  /\ t_disp m = uint32 (c + DISP_INTERVAL_MS * (Z.of_nat n / DISP_INTERVAL_MS))
  /\ t_hb m = uint32 (c + HB_PERIOD_MS * (Z.of_nat n / HB_PERIOD_MS))
  /\ count is_analog_read (trace m)
     = (count is_analog_read (trace m0)
        + 8 * Z.to_nat (Z.of_nat n / MEAS_INTERVAL_MS))%nat
  /\ count is_serial (trace m)
     = (count is_serial (trace m0)
        + Z.to_nat (Z.of_nat n / SER_INTERVAL_MS))%nat
  /\ count is_mode_read (trace m)
     = (count is_mode_read (trace m0)
        + Z.to_nat (Z.of_nat n / DISP_INTERVAL_MS))%nat
  /\ count is_led_on (trace m)
     = (count is_led_on (trace m0)
        + Z.to_nat (Z.of_nat n / HB_PERIOD_MS))%nat
  /\ led m = lit_after (led m0) (Z.of_nat n).

(** * Properties *)

(** ** Traces *)

Lemma snoc_trace {A : Type} (es t : list A) :
  fold_left (fun acc e => acc ++ [e]) es t = t ++ es.
Proof.
  revert t; induction es as [|e es IH]; intros t; simpl.
  - now rewrite app_nil_r.
  - rewrite IH, <- app_assoc. reflexivity.
Qed.

Lemma emitted_app {A : Type} (c : M A) (m : Machine) (es : list Event) :
  trace (exec c m) = trace m ++ es -> emitted c m = es.
Proof.
  intros H. unfold emitted. rewrite H.
  rewrite skipn_app, skipn_all, Nat.sub_diag. reflexivity.
Qed.


(** ** Machine integers *)

Lemma uint16_range (z : Z) : 0 <= uint16 z < 2 ^ 16.
Proof. unfold uint16. apply Z.mod_pos_bound. reflexivity. Qed.

Lemma uint32_range (z : Z) : 0 <= uint32 z < 2 ^ 32.
Proof. unfold uint32. apply Z.mod_pos_bound. reflexivity. Qed.

Lemma uint32_small (z : Z) : 0 <= z < 2 ^ 32 -> uint32 z = z.
Proof. intros H. unfold uint32. apply Z.mod_small. exact H. Qed.

Lemma uint32_idem (z : Z) : uint32 (uint32 z) = uint32 z.
Proof. apply uint32_small, uint32_range. Qed.

(** The 32-bit accumulator of [measureVoltage] cannot wrap over eight
    16-bit codes. *)
Lemma accumulate_8 (a0 a1 a2 a3 a4 a5 a6 a7 : Z) :
  0 <= a0 < 2 ^ 16 -> 0 <= a1 < 2 ^ 16 -> 0 <= a2 < 2 ^ 16 ->
  0 <= a3 < 2 ^ 16 -> 0 <= a4 < 2 ^ 16 -> 0 <= a5 < 2 ^ 16 ->
  0 <= a6 < 2 ^ 16 -> 0 <= a7 < 2 ^ 16 ->
  uint32 (uint32 (uint32 (uint32 (uint32 (uint32 (uint32 (uint32
    (0 + a0) + a1) + a2) + a3) + a4) + a5) + a6) + a7)
  = sum_codes [a0; a1; a2; a3; a4; a5; a6; a7].
Proof.
  intros. unfold sum_codes, fold_right.
  assert (E : 2 ^ 16 = 65536) by reflexivity. rewrite E in *.
  assert (E' : 2 ^ 32 = 4294967296) by reflexivity.
  rewrite (uint32_small (0 + a0)) by (rewrite E'; lia).
  rewrite (uint32_small (0 + a0 + a1)) by (rewrite E'; lia).
  rewrite (uint32_small (0 + a0 + a1 + a2)) by (rewrite E'; lia).
  rewrite (uint32_small (0 + a0 + a1 + a2 + a3)) by (rewrite E'; lia).
  rewrite (uint32_small (0 + a0 + a1 + a2 + a3 + a4)) by (rewrite E'; lia).
  rewrite (uint32_small (0 + a0 + a1 + a2 + a3 + a4 + a5)) by (rewrite E'; lia).
  rewrite (uint32_small (0 + a0 + a1 + a2 + a3 + a4 + a5 + a6))
    by (rewrite E'; lia).
  rewrite (uint32_small (0 + a0 + a1 + a2 + a3 + a4 + a5 + a6 + a7))
    by (rewrite E'; lia).
  lia.
Qed.

Lemma sum_codes_range (codes : list Z) :
  Forall (fun c => 0 <= c < 2 ^ 16) codes ->
  0 <= sum_codes codes <= Z.of_nat (List.length codes) * 65535.
Proof.
  induction 1 as [|c l Hc _ IH]; simpl sum_codes; simpl List.length.
  - lia.
  - assert (E : 2 ^ 16 = 65536) by reflexivity. rewrite E in Hc. lia.
Qed.

(** ** Exact binary32 operations *)

Lemma digits2_shift (p k : positive) :
  digits2_pos (Pos.iter xO p k) = (digits2_pos p + k)%positive.
Proof.
  induction k as [|k IH] using Pos.peano_ind.
  - simpl. now rewrite Pos.add_1_r.
  - rewrite Pos.iter_succ, Pos.add_succ_r. simpl. now rewrite IH.
Qed.

Lemma shift_value (p k : positive) :
  Z.pos (Pos.iter xO p k) = Z.pos p * 2 ^ Z.pos k.
Proof.
  induction k as [|k IH] using Pos.peano_ind.
  - simpl. lia.
  - rewrite Pos.iter_succ, Pos2Z.inj_succ, Z.pow_succ_r by lia.
    rewrite Pos2Z.inj_xO, IH. lia.
Qed.

Lemma digits2_lower (p : positive) :
  2 ^ (Z.pos (digits2_pos p) - 1) <= Z.pos p.
Proof.
  induction p as [p IH | p IH |]; simpl digits2_pos.
  - rewrite Pos2Z.inj_succ.
    replace (Z.succ (Z.pos (digits2_pos p)) - 1)
      with (Z.succ (Z.pos (digits2_pos p) - 1)) by lia.
    rewrite Z.pow_succ_r by lia. lia.
  - rewrite Pos2Z.inj_succ.
    replace (Z.succ (Z.pos (digits2_pos p)) - 1)
      with (Z.succ (Z.pos (digits2_pos p) - 1)) by lia.
    rewrite Z.pow_succ_r by lia. lia.
  - simpl. lia.
Qed.

Lemma digits2_bound (p : positive) (n : Z) :
  0 <= n -> Z.pos p < 2 ^ n -> Z.pos (digits2_pos p) <= n.
Proof.
  intros Hn Hp. pose proof (digits2_lower p) as L.
  assert (H : 2 ^ (Z.pos (digits2_pos p) - 1) < 2 ^ n) by lia.
  apply Z.pow_lt_mono_r_iff in H; lia.
Qed.

(** A 24-bit mantissa with an exponent in range is not rounded. *)
Lemma round_exact (m : positive) (e : Z) :
  Z.pos (digits2_pos m) = 24 -> -149 <= e <= 104 ->
  binary_round_aux 24 128 false (Z.pos m) e loc_Exact = S754_finite false m e.
Proof.
  intros Hd He. unfold binary_round_aux, shr_fexp.
  cbn [Zdigits2 shr_record_of_loc]. rewrite Hd.
  replace (fexp 24 128 (24 + e) - e) with 0 by (unfold fexp, emin; lia).
  cbn [shr shr_m loc_of_shr_record round_nearest_even Zdigits2].
  rewrite Hd.
  replace (fexp 24 128 (24 + e) - e) with 0 by (unfold fexp, emin; lia).
  cbn [shr shr_m].
  replace (e <=? 128 - 24) with true by (symmetry; apply Z.leb_le; lia).
  reflexivity.
Qed.

(** The conversion of an integer below [2^24]: the integer shifted to 24
    bits. *)
Lemma of_Z_exact (p : positive) :
  let d := Z.pos (digits2_pos p) in
  d < 24 ->
  F32.of_Z (Z.pos p)
  = S754_finite false (Pos.iter xO p (Z.to_pos (24 - d))) (d - 24).
Proof.
  intros d Hd.
  assert (Hd0 : 0 < d) by (unfold d; lia).
  unfold F32.of_Z, binary_normalize, binary_round, F32.prec, F32.emax.
  fold d.
  replace (fexp 24 128 (d + 0)) with (d - 24) by (unfold fexp, emin; lia).
  unfold shl_align.
  replace (d - 24 - 0) with (Z.neg (Z.to_pos (24 - d)))
    by (rewrite <- Pos2Z.opp_pos, Z2Pos.id; lia).
  apply round_exact; [ | lia].
  rewrite digits2_shift, Pos2Z.inj_add, Z2Pos.id by lia. fold d. lia.
Qed.

Lemma eight : F32.of_Z 8 = S754_finite false 8388608 (-20).
Proof. reflexivity. Qed.

Lemma shifted_quotient (m : positive) :
  Z.div_eucl (Z.shiftl (Z.pos m) 24) 8388608 = (Z.pos m~0, 0).
Proof.
  rewrite Z.shiftl_mul_pow2 by lia.
  assert (E : Z.pos m * 2 ^ 24 = Z.pos m~0 * 8388608) by lia.
  rewrite E.
  pose proof (Z.div_mul (Z.pos m~0) 8388608) as Q.
  pose proof (Z.mod_mul (Z.pos m~0) 8388608) as R.
  unfold Z.div, Z.modulo in Q, R.
  destruct (Z.div_eucl (Z.pos m~0 * 8388608) 8388608) as [q r].
  rewrite Q, R by lia. reflexivity.
Qed.

(** Division of a normal number by eight only lowers the exponent. *)
Lemma div_eight_exact (m : positive) (e : Z) :
  Z.pos (digits2_pos m) = 24 -> -145 <= e <= 104 ->
  F32.div (S754_finite false m e) (F32.of_Z 8) = S754_finite false m (e - 3).
Proof.
  intros Hd He. rewrite eight.
  unfold F32.div, SFdiv, SFdiv_core_binary, F32.prec, F32.emax.
  cbn [Zdigits2 xorb]. rewrite Hd.
  change (Z.pos (digits2_pos 8388608)) with 24.
  replace (Z.min (fexp 24 128 (24 + e - (24 + -20))) (e - -20)) with (e - 4)
    by (unfold fexp, emin; lia).
  replace (e - -20 - (e - 4)) with 24 by lia.
  rewrite shifted_quotient.
  change (new_location 8388608 0) with loc_Exact.
  unfold binary_round_aux, shr_fexp.
  cbn [Zdigits2 digits2_pos shr_record_of_loc].
  change PosDef.Pos.succ with Pos.succ. rewrite Pos2Z.inj_succ, Hd.
  replace (fexp 24 128 (Z.succ 24 + (e - 4)) - (e - 4)) with 1
    by (unfold fexp, emin; lia).
  cbn [shr iter_pos shr_1 shr_m loc_of_shr_record round_nearest_even
       Zdigits2 orb].
  rewrite Hd.
  replace (fexp 24 128 (24 + (e - 4 + 1)) - (e - 4 + 1)) with 0
    by (unfold fexp, emin; lia).
  cbn [shr shr_m].
  replace (e - 4 + 1 <=? 128 - 24) with true by (symmetry; apply Z.leb_le; lia).
  f_equal. lia.
Qed.

(** The mean of eight 16-bit codes is computed exactly. *)
Lemma mean_exact (s : Z) :
  0 <= s <= 8 * 65535 ->
  let mean := F32.div (F32.of_Z s) (F32.of_Z 8) in
  F32.is_finite mean = true /\ (F32.to_Q mean == s # 8)%Q.
Proof.
  intros Hs mean. destruct s as [|p|p]; [ | | lia].
  - split; reflexivity.
  - assert (Hd : Z.pos (digits2_pos p) <= 20).
    { apply digits2_bound; [lia | ]. change (2 ^ 20) with 1048576. lia. }
    subst mean. rewrite of_Z_exact by lia.
    set (d := Z.pos (digits2_pos p)) in *.
    assert (Hd0 : 0 < d) by (unfold d; lia).
    rewrite div_eight_exact;
      [ | rewrite digits2_shift, Pos2Z.inj_add, Z2Pos.id by lia; fold d; lia
        | lia ].
    split; [reflexivity | ].
    unfold F32.to_Q.
    replace (d - 24 - 3) with (Z.neg (Z.to_pos (27 - d)))
      by (rewrite <- Pos2Z.opp_pos, Z2Pos.id; lia).
    unfold Qeq. cbn [Qnum Qden].
    rewrite shift_value, !Z2Pos.id by (try apply Z.pow_pos_nonneg; lia).
    replace (27 - d) with (3 + (24 - d)) by lia.
    rewrite Z.pow_add_r by lia. change (2 ^ 3) with 8. lia.
Qed.

(** ** Formatting *)

Lemma length_append (s1 s2 : string) :
  String.length (s1 ++ s2) = (String.length s1 + String.length s2)%nat.
Proof. induction s1 as [|c s1 IH]; simpl; congruence. Qed.

Lemma append_assoc (s1 s2 s3 : string) :
  ((s1 ++ s2) ++ s3 = s1 ++ (s2 ++ s3))%string.
Proof. induction s1 as [|c s1 IH]; simpl; congruence. Qed.

Lemma all_chars_append (p : ascii -> bool) (s1 s2 : string) :
  all_chars p (s1 ++ s2) = all_chars p s1 && all_chars p s2.
Proof.
  induction s1 as [|c s1 IH]; simpl.
  - reflexivity.
  - rewrite IH. apply andb_assoc.
Qed.

Lemma digit_char_is_digit (d : Z) :
  0 <= d < 10 -> is_digit (digit_char d) = true.
Proof.
  intros H.
  assert (C : d = 0 \/ d = 1 \/ d = 2 \/ d = 3 \/ d = 4 \/ d = 5 \/ d = 6
              \/ d = 7 \/ d = 8 \/ d = 9) by lia.
  repeat (destruct C as [-> | C]; [reflexivity | ]). subst. reflexivity.
Qed.

Lemma digits_fixed_length (k : nat) (n : Z) :
  String.length (digits_fixed k n) = k.
Proof.
  revert n. induction k as [|k IH]; intros n; simpl.
  - reflexivity.
  - rewrite length_append, IH. simpl. lia.
Qed.

Lemma digits_fixed_digits (k : nat) (n : Z) :
  all_chars is_digit (digits_fixed k n) = true.
Proof.
  revert n. induction k as [|k IH]; intros n; cbn [digits_fixed].
  - reflexivity.
  - rewrite all_chars_append, IH. cbn [all_chars andb].
    rewrite digit_char_is_digit by (apply Z.mod_pos_bound; lia). reflexivity.
Qed.

Lemma string_of_uint_digits (u : Decimal.uint) :
  all_chars is_digit (NilEmpty.string_of_uint u) = true.
Proof. induction u; simpl; assumption || reflexivity. Qed.

Lemma dec_string_digits (n : Z) : all_chars is_digit (dec_string n) = true.
Proof.
  unfold dec_string, NilZero.string_of_uint.
  destruct (N.to_uint (Z.to_N n)); try reflexivity;
    apply (string_of_uint_digits (_ _)).
Qed.

Lemma dec_string_nonempty (n : Z) : (1 <= String.length (dec_string n))%nat.
Proof.
  unfold dec_string, NilZero.string_of_uint.
  destruct (N.to_uint (Z.to_N n)); simpl; lia.
Qed.

Lemma pad_left_fits (w : nat) (s : string) :
  (w <= String.length s)%nat -> pad_left w s = s.
Proof.
  intros H. unfold pad_left.
  replace (w - String.length s)%nat with 0%nat by lia. reflexivity.
Qed.

(** Rounding to the nearest integer is off by one half at most. *)
Lemma Qround_error (half_up : bool) (q : Q) :
  (0 <= q)%Q -> (Qabs (inject_Z (Qround half_up q) - q) <= 1 # 2)%Q.
Proof.
  destruct q as [n d]. unfold Qle at 1. cbn [Qnum Qden]. intros Hn.
  assert (Hn' : 0 <= n) by lia.
  pose proof (Z.div_mod n (Z.pos d) ltac:(lia)) as E.
  pose proof (Z.mod_pos_bound n (Z.pos d) ltac:(lia)) as B.
  unfold Qround. cbn [Qnum Qden].
  set (fl := n / Z.pos d) in *. set (r := n mod Z.pos d) in *.
  clearbody fl r.
  assert (G : forall z : Z,
             2 * Z.abs (z * Z.pos d - n) <= Z.pos d ->
             (Qabs (inject_Z z - (n # d)) <= 1 # 2)%Q).
  { intros z Hz. unfold Qle, Qabs, Qminus, Qplus, Qopp, inject_Z.
    cbn [Qnum Qden]. rewrite Pos.mul_1_l. lia. }
  destruct (2 * r ?= Z.pos d) eqn:C.
  - apply Z.compare_eq in C.
    destruct half_up; [ | destruct (Z.even fl)]; apply G; lia.
  - rewrite Z.compare_lt_iff in C. apply G. lia.
  - rewrite Z.compare_gt_iff in C. apply G. lia.
Qed.

Lemma scaled_round_nearest (half_up : bool) (p : nat) (x : f32) :
  (Qabs (inject_Z (scaled_round half_up p x)
         - Qabs (F32.to_Q x) * inject_Z (10 ^ Z.of_nat p)) <= 1 # 2)%Q.
Proof.
  unfold scaled_round. apply Qround_error.
  apply Qmult_le_0_compat; [apply Qabs_nonneg | ].
  change 0%Q with (inject_Z 0). rewrite <- Zle_Qle.
  apply Z.pow_nonneg. lia.
Qed.

(** The shape of a finite number printed with [p > 0] fractional digits. *)
Lemma fmt_fixed_shape (half_up : bool) (p : nat) (x : f32) :
  F32.is_finite x = true ->
  fmt_fixed half_up (S p) x
  = ((if F32.sign x then "-" else EmptyString)
     ++ dec_string (scaled_round half_up (S p) x / 10 ^ Z.of_nat (S p))
     ++ "."
     ++ digits_fixed (S p) (scaled_round half_up (S p) x mod 10 ^ Z.of_nat (S p)))%string.
Proof. destruct x; try discriminate; reflexivity. Qed.

(** [%6.4f] never pads a finite number, [%7u] pads to seven characters. *)
Lemma report_line_shape (m : Machine) :
  F32.is_finite (filtered_V m) = true ->
  let ts := dec_string (uint32 (clock m)) in
  let n := scaled_round false 4 (filtered_V m) in
  report_line m
  = (spaces (7 - String.length ts) ++ ts ++ ", "
     ++ (if F32.sign (filtered_V m) then "-" else EmptyString)
     ++ dec_string (n / 10000) ++ "." ++ digits_fixed 4 (n mod 10000)
     ++ newline)%string.
Proof.
  intros Hfin ts n. unfold report_line, fmt_u, fmt_f.
  rewrite uint32_idem. fold ts.
  rewrite (pad_left_fits 6).
  - rewrite (fmt_fixed_shape false 3 _ Hfin). fold n.
    change (10 ^ Z.of_nat 4) with 10000.
    unfold pad_left. rewrite !append_assoc. reflexivity.
  - rewrite (fmt_fixed_shape false 3 _ Hfin), !length_append.
    rewrite digits_fixed_length.
    pose proof (dec_string_nonempty
                  (scaled_round false 4 (filtered_V m) / 10 ^ Z.of_nat 4)).
    destruct (F32.sign (filtered_V m)); cbn [String.length]; lia.
Qed.

Lemma dtostrf_shape (x : f32) (width p : nat) :
  F32.is_finite x = true ->
  dtostrf x width (S p)
  = pad_left width
      ((if F32.sign x then "-" else EmptyString)
       ++ dec_string (scaled_round true (S p) x / 10 ^ Z.of_nat (S p))
       ++ "."
       ++ digits_fixed (S p) (scaled_round true (S p) x mod 10 ^ Z.of_nat (S p)))%string.
Proof.
  intros H. unfold dtostrf. rewrite (fmt_fixed_shape true p x H). reflexivity.
Qed.

(** ** Elapsed time across the wrap-around of the counter *)

Lemma uint32_elapsed (start d now : Z) :
  0 <= d < 2 ^ 32 ->
  uint32 now = uint32 (start + d) ->
  uint32 (uint32 now - start) = d.
Proof.
  intros Hd E. rewrite E. unfold uint32.
  rewrite Zminus_mod_idemp_l.
  replace (start + d - start) with d by lia.
  apply Z.mod_small. exact Hd.
Qed.

Lemma uint32_self (x : Z) : uint32 (x - x) = 0.
Proof. rewrite Z.sub_diag. reflexivity. Qed.

Lemma uint32_add_l (a d : Z) : uint32 (uint32 a + d) = uint32 (a + d).
Proof. unfold uint32. apply Zplus_mod_idemp_l. Qed.

(** ** The redraw test on equal values *)

Lemma sub_self_below_threshold (v : f32) :
  F32.leb REDRAW_THRESHOLD (F32.abs (F32.sub v v)) = false.
Proof.
  destruct v as [s | s | | s m e].
  - destruct s; reflexivity.
  - destruct s; reflexivity.
  - reflexivity.
  - unfold F32.sub, SFsub. rewrite Z.min_id.
    unfold shl_align. rewrite !Z.sub_diag. reflexivity.
Qed.

(** ** Centring of the large number *)

Lemma centring (w : Z) :
  let x := Z.quot (240 - w - 45) 2 in
  -1 <= 240 - (2 * x + w + 45) <= 1
  /\ (w <= 195 -> 0 <= x)
  /\ (0 <= w <= 183 -> x + w + 6 + 45 <= 240).
Proof.
  intros x. subst x.
  pose proof (Z.quot_rem' (240 - w - 45) 2) as E.
  pose proof (Z.rem_bound_abs (240 - w - 45) 2 ltac:(lia)) as B.
  assert (S : w <= 195 -> 0 <= Z.quot (240 - w - 45) 2)
    by (intros H; apply Z.quot_pos; lia).
  lia.
Qed.

(** ** The level of the bar *)

Lemma lit_segments_spec (px : Z) (k : nat) :
  (k < 44)%nat -> (5 * Z.of_nat k <? px) = (k <? lit_segments px)%nat.
Proof.
  intros Hk. unfold lit_segments.
  pose proof (Z.div_mod (px + 4) 5 ltac:(lia)) as E.
  pose proof (Z.mod_pos_bound (px + 4) 5 ltac:(lia)) as B.
  destruct (5 * Z.of_nat k <? px) eqn:C; symmetry.
  - apply Z.ltb_lt in C. apply Nat.ltb_lt. lia.
  - apply Z.ltb_ge in C. apply Nat.ltb_ge. lia.
Qed.

Lemma lit_segments_max (px : Z) : (lit_segments px <= 44)%nat.
Proof. unfold lit_segments. lia. Qed.

Lemma bar_ops_level (px color : Z) :
  map EvDraw (bar_ops px color)
  = map (segment color) (seq 0 (lit_segments px))
    ++ map (segment 0x2102) (seq (lit_segments px) (44 - lit_segments px)).
Proof.
  pose proof (lit_segments_max px) as Hn.
  unfold bar_ops. rewrite map_map.
  replace 44%nat with (lit_segments px + (44 - lit_segments px))%nat at 1
    by lia.
  rewrite seq_app, map_app. f_equal.
  - apply map_ext_in. intros k Hk. apply in_seq in Hk.
    unfold segment. cbv zeta.
    replace (BAR_X_START + 5 * Z.of_nat k - BAR_X_START) with (5 * Z.of_nat k)
      by lia.
    rewrite lit_segments_spec by lia.
    replace (k <? lit_segments px)%nat with true
      by (symmetry; apply Nat.ltb_lt; lia).
    reflexivity.
  - apply map_ext_in. intros k Hk. apply in_seq in Hk.
    unfold segment. cbv zeta.
    replace (BAR_X_START + 5 * Z.of_nat k - BAR_X_START) with (5 * Z.of_nat k)
      by lia.
    rewrite lit_segments_spec by lia.
    replace (k <? lit_segments px)%nat with false
      by (symmetry; apply Nat.ltb_ge; lia).
    reflexivity.
Qed.

Lemma bar_px_over (hv : bool) (val : f32) :
  F32.ltb (F32.of_Z 1) (F32.div val (fs_limit hv)) = true ->
  bar_active_px hv val = 220.
Proof.
  unfold bar_active_px, fs_limit. intros H. rewrite H. reflexivity.
Qed.

Lemma bar_px_under (hv : bool) (val : f32) :
  F32.ltb (F32.div val (fs_limit hv)) (F32.of_Z 0) = true ->
  bar_active_px hv val = 0.
Proof.
  unfold bar_active_px, fs_limit. intros H.
  destruct (F32.ltb (F32.of_Z 1) _) eqn:O.
  - exfalso.
    change (F32.of_Z 0) with (S754_zero false) in H.
    change (F32.of_Z 1) with (S754_finite false 8388608 (-23)) in O.
    unfold F32.ltb, SFltb in H, O. revert H O.
    match goal with
    | |- context [F32.div ?a ?b] =>
        destruct (F32.div a b) as [s | s | | s m e]
    end;
      try destruct s; cbn [SFcompare]; intros H O;
      first [discriminate H | discriminate O].
  - rewrite H. reflexivity.
Qed.

(** ** The name of the sketch file *)

Lemma basename_from_cons (c : ascii) (r acc : string) :
  basename_from (String c r) acc
  = if is_sep c then basename_from r r else basename_from r acc.
Proof. reflexivity. Qed.

Lemma no_sep_cons (c : ascii) (r : string) :
  no_sep (String c r) = negb (is_sep c) && no_sep r.
Proof. reflexivity. Qed.

Lemma basename_from_plain (s acc : string) :
  no_sep s = true -> basename_from s acc = acc.
Proof.
  revert acc. induction s as [|c r IH]; intros acc H.
  - reflexivity.
  - rewrite no_sep_cons in H. apply andb_prop in H. destruct H as [Hc Hr].
    apply negb_true_iff in Hc. rewrite basename_from_cons, Hc.
    apply IH. exact Hr.
Qed.

Lemma basename_from_restart (s acc : string) :
  no_sep s = false -> basename_from s acc = basename_from s s.
Proof.
  revert acc. induction s as [|c r IH]; intros acc H.
  - discriminate.
  - rewrite no_sep_cons in H. rewrite !basename_from_cons.
    destruct (is_sep c); [reflexivity | ]. cbn [negb andb] in H.
    rewrite (IH acc H). symmetry. apply IH, H.
Qed.

Lemma basename_from_no_sep (s : string) :
  no_sep (basename_from s s) = true.
Proof.
  induction s as [|c r IH].
  - reflexivity.
  - rewrite basename_from_cons. destruct (is_sep c) eqn:Hc.
    + exact IH.
    + destruct (no_sep r) eqn:Hr.
      * rewrite basename_from_plain by exact Hr.
        rewrite no_sep_cons, Hc, Hr. reflexivity.
      * rewrite basename_from_restart by exact Hr. exact IH.
Qed.

Lemma basename_from_last (dir name : string) (c : ascii) (acc : string) :
  is_sep c = true -> no_sep name = true ->
  basename_from (dir ++ String c name) acc = name.
Proof.
  intros Hc Hn. revert acc. induction dir as [|d dir IH]; intros acc.
  - cbn [String.append]. rewrite basename_from_cons, Hc.
    apply basename_from_plain. exact Hn.
  - cbn [String.append]. rewrite basename_from_cons.
    destruct (is_sep d); apply IH.
Qed.

Lemma basename_from_split (s : string) :
  exists dir,
    s = (dir ++ basename_from s s)%string
    /\ (dir = EmptyString
        \/ exists dir' c,
             dir = (dir' ++ String c EmptyString)%string
             /\ is_sep c = true).
Proof.
  induction s as [|c r IH].
  - exists EmptyString. split; [reflexivity | left; reflexivity].
  - rewrite basename_from_cons. destruct (is_sep c) eqn:Hc.
    + destruct IH as (dir & E & D).
      exists (String c dir). split.
      * cbn [String.append]. f_equal. exact E.
      * right. destruct D as [-> | (dir' & c' & -> & Hc')].
        -- exists EmptyString, c. split; [reflexivity | exact Hc].
        -- exists (String c dir'), c'. split; [reflexivity | exact Hc'].
    + destruct (no_sep r) eqn:Hr.
      * rewrite basename_from_plain by exact Hr.
        exists EmptyString. split; [reflexivity | left; reflexivity].
      * rewrite basename_from_restart by exact Hr.
        destruct IH as (dir & E & D).
        destruct D as [-> | (dir' & c' & -> & Hc')].
        -- exfalso. cbn [String.append] in E.
           pose proof (basename_from_no_sep r) as N.
           rewrite <- E in N. congruence.
        -- exists (String c (dir' ++ String c' EmptyString))%string.
           split.
           ++ cbn [String.append]. f_equal. exact E.
           ++ right. exists (String c dir'), c'.
              split; [reflexivity | exact Hc'].
Qed.

Lemma basename_unfold (path : string) :
  basename path = basename_from path path.
Proof. reflexivity. Qed.

(** ** The number of digits of a decimal *)

Lemma string_of_uint_length (d : Decimal.uint) :
  String.length (NilEmpty.string_of_uint d) = Decimal.nb_digits d.
Proof.
  induction d; cbn [NilEmpty.string_of_uint Decimal.nb_digits String.length];
    congruence.
Qed.

Lemma string_of_uint_length_nz (d : Decimal.uint) :
  d <> Decimal.Nil ->
  String.length (NilZero.string_of_uint d) = Decimal.nb_digits d.
Proof.
  intros H. destruct d; try congruence;
    unfold NilZero.string_of_uint; apply string_of_uint_length.
Qed.

Lemma of_uint_acc_bounds (l : Decimal.uint) (acc : positive) :
  Z.pos acc * 10 ^ Z.of_nat (Decimal.nb_digits l)
  <= Z.pos (Pos.of_uint_acc l acc)
  < (Z.pos acc + 1) * 10 ^ Z.of_nat (Decimal.nb_digits l).
Proof.
  revert acc.
  induction l as [|l IH|l IH|l IH|l IH|l IH|l IH|l IH|l IH|l IH|l IH];
    intros acc; cbn [Pos.of_uint_acc Decimal.nb_digits];
    [ cbn [Z.of_nat]; lia | .. ];
    rewrite Nat2Z.inj_succ, Z.pow_succ_r by lia;
    match goal with
    | |- context [Pos.of_uint_acc l ?a] => specialize (IH a)
    end;
    assert (0 < 10 ^ Z.of_nat (Decimal.nb_digits l))
      by (apply Z.pow_pos_nonneg; lia);
    nia.
Qed.

Lemma of_uint_head (d : Decimal.uint) :
  Decimal.unorm d = d ->
  d = Decimal.zero
  \/ 10 ^ Z.of_nat (Decimal.nb_digits d - 1) <= Z.of_N (N.of_uint d)
     < 10 ^ Z.of_nat (Decimal.nb_digits d).
Proof.
  intros H.
  destruct d as [|l|l|l|l|l|l|l|l|l|l].
  - discriminate H.
  - left. unfold Decimal.unorm in H. cbn [Decimal.nzhead] in H.
    destruct (Decimal.nzhead l) eqn:E; try discriminate H;
      try (injection H as H; subst l; cbn [Decimal.nzhead] in E;
           pose proof (DecimalFacts.nzhead_nonzero u) as N;
           rewrite E in N; exfalso; apply (N _ eq_refl)).
    exact (eq_sym H).
  - right. unfold N.of_uint. cbn [Pos.of_uint Decimal.nb_digits Z.of_N].
    rewrite Nat.sub_succ, Nat.sub_0_r, Nat2Z.inj_succ, Z.pow_succ_r by lia.
    pose proof (of_uint_acc_bounds l 1). lia.
  - right. unfold N.of_uint. cbn [Pos.of_uint Decimal.nb_digits Z.of_N].
    rewrite Nat.sub_succ, Nat.sub_0_r, Nat2Z.inj_succ, Z.pow_succ_r by lia.
    pose proof (of_uint_acc_bounds l 2). lia.
  - right. unfold N.of_uint. cbn [Pos.of_uint Decimal.nb_digits Z.of_N].
    rewrite Nat.sub_succ, Nat.sub_0_r, Nat2Z.inj_succ, Z.pow_succ_r by lia.
    pose proof (of_uint_acc_bounds l 3). lia.
  - right. unfold N.of_uint. cbn [Pos.of_uint Decimal.nb_digits Z.of_N].
    rewrite Nat.sub_succ, Nat.sub_0_r, Nat2Z.inj_succ, Z.pow_succ_r by lia.
    pose proof (of_uint_acc_bounds l 4). lia.
  - right. unfold N.of_uint. cbn [Pos.of_uint Decimal.nb_digits Z.of_N].
    rewrite Nat.sub_succ, Nat.sub_0_r, Nat2Z.inj_succ, Z.pow_succ_r by lia.
    pose proof (of_uint_acc_bounds l 5). lia.
  - right. unfold N.of_uint. cbn [Pos.of_uint Decimal.nb_digits Z.of_N].
    rewrite Nat.sub_succ, Nat.sub_0_r, Nat2Z.inj_succ, Z.pow_succ_r by lia.
    pose proof (of_uint_acc_bounds l 6). lia.
  - right. unfold N.of_uint. cbn [Pos.of_uint Decimal.nb_digits Z.of_N].
    rewrite Nat.sub_succ, Nat.sub_0_r, Nat2Z.inj_succ, Z.pow_succ_r by lia.
    pose proof (of_uint_acc_bounds l 7). lia.
  - right. unfold N.of_uint. cbn [Pos.of_uint Decimal.nb_digits Z.of_N].
    rewrite Nat.sub_succ, Nat.sub_0_r, Nat2Z.inj_succ, Z.pow_succ_r by lia.
    pose proof (of_uint_acc_bounds l 8). lia.
  - right. unfold N.of_uint. cbn [Pos.of_uint Decimal.nb_digits Z.of_N].
    rewrite Nat.sub_succ, Nat.sub_0_r, Nat2Z.inj_succ, Z.pow_succ_r by lia.
    pose proof (of_uint_acc_bounds l 9). lia.
Qed.

(** A positive integer with [k] decimal digits lies between [10^(k-1)] and
    [10^k]. *)
Lemma dec_string_bounds (n : Z) :
  0 < n ->
  10 ^ Z.of_nat (String.length (dec_string n) - 1) <= n
  < 10 ^ Z.of_nat (String.length (dec_string n)).
Proof.
  intros Hn. unfold dec_string.
  assert (U : Decimal.unorm (N.to_uint (Z.to_N n)) = N.to_uint (Z.to_N n)).
  { rewrite <- (DecimalN.Unsigned.to_of (N.to_uint (Z.to_N n))).
    rewrite DecimalN.Unsigned.of_to. reflexivity. }
  pose proof (DecimalN.Unsigned.of_to (Z.to_N n)) as V.
  destruct (of_uint_head _ U) as [Z0 | B].
  - rewrite Z0 in V. cbn in V. lia.
  - rewrite V, Z2N.id in B by lia.
    assert (L : String.length (NilZero.string_of_uint (N.to_uint (Z.to_N n)))
                = Decimal.nb_digits (N.to_uint (Z.to_N n))).
    { apply string_of_uint_length_nz. rewrite <- U.
      apply DecimalFacts.unorm_nonnil. }
    rewrite L. exact B.
Qed.

Lemma dec_string_length_le (n : Z) (k : nat) :
  0 <= n < 10 ^ Z.of_nat k -> (1 <= k)%nat ->
  (String.length (dec_string n) <= k)%nat.
Proof.
  intros [H0 Hn] Hk.
  destruct (Z.eq_dec n 0) as [-> | Hz]; [ exact Hk | ].
  destruct (dec_string_bounds n ltac:(lia)) as [Lo _].
  destruct (Nat.le_gt_cases (String.length (dec_string n)) k) as [L | G];
    [ exact L | exfalso ].
  assert (10 ^ Z.of_nat k <= 10 ^ Z.of_nat (String.length (dec_string n) - 1))
    by (apply Z.pow_le_mono_r; lia).
  lia.
Qed.

Lemma dec_string_length_gt (n : Z) (k : nat) :
  10 ^ Z.of_nat k <= n -> (k < String.length (dec_string n))%nat.
Proof.
  intros Hn.
  assert (0 < 10 ^ Z.of_nat k) by (apply Z.pow_pos_nonneg; lia).
  destruct (dec_string_bounds n ltac:(lia)) as [_ Hi].
  destruct (Nat.le_gt_cases (String.length (dec_string n)) k) as [L | G];
    [ exfalso | exact G ].
  assert (10 ^ Z.of_nat (String.length (dec_string n)) <= 10 ^ Z.of_nat k)
    by (apply Z.pow_le_mono_r; lia).
  lia.
Qed.

Lemma spaces_length (k : nat) : String.length (spaces k) = k.
Proof. induction k; cbn [spaces String.length]; congruence. Qed.

Lemma pad_left_length (w : nat) (s : string) :
  String.length (pad_left w s) = Nat.max w (String.length s).
Proof.
  unfold pad_left. rewrite length_append, spaces_length. lia.
Qed.

(** ** The size of a binary32 number and of its decimal expansion *)

Lemma digits2_upper (p : positive) : Z.pos p < 2 ^ Z.pos (digits2_pos p).
Proof.
  induction p as [p IH | p IH |]; cbn [digits2_pos].
  - rewrite Pos2Z.inj_succ, Z.pow_succ_r by lia. lia.
  - rewrite Pos2Z.inj_succ, Z.pow_succ_r by lia. lia.
  - reflexivity.
Qed.

Lemma abs_to_Q (x : f32) : (0 <= F32.to_Q x)%Q -> (Qabs (F32.to_Q x) == F32.to_Q x)%Q.
Proof. intros H. apply Qabs_pos. exact H. Qed.

Lemma to_Q_sign (x : f32) : F32.sign x = false -> (0 <= F32.to_Q x)%Q.
Proof.
  destruct x as [s | s | | s m e]; cbn [F32.sign F32.to_Q]; intros H;
    try (apply Qle_refl).
  subst s. destruct e as [|p|p].
  - unfold Qle. cbn. lia.
  - unfold Qle. cbn [inject_Z Qnum Qden]. 
    assert (0 < 2 ^ Z.pos p) by (apply Z.pow_pos_nonneg; lia). nia.
  - unfold Qle. cbn [Qnum Qden]. lia.
Qed.

(** A binary32 number is below 2^128 in magnitude. *)
Lemma to_Q_bounded (x : f32) :
  valid_binary 24 128 x = true ->
  (Qabs (F32.to_Q x) < inject_Z (2 ^ 128))%Q.
Proof.
  destruct x as [s | s | | s m e]; cbn [F32.to_Q valid_binary]; intros V;
    try reflexivity.
  assert (A : (Qabs (if s then - F32.to_Q (S754_finite false m e)
                     else F32.to_Q (S754_finite false m e))
               == F32.to_Q (S754_finite false m e))%Q).
  { pose proof (to_Q_sign (S754_finite false m e) eq_refl) as P.
    destruct s; [ rewrite Qabs_opp | ]; apply Qabs_pos; exact P. }
  cbn [F32.to_Q] in A. rewrite A. clear A.
  unfold bounded, canonical_mantissa, fexp, emin in V.
  apply andb_prop in V. destruct V as [C E].
  apply Z.eqb_eq in C. apply Z.leb_le in E.
  pose proof (digits2_upper m) as U.
  assert (D : Z.pos (digits2_pos m) <= 24) by lia.
  assert (M : Z.pos m < 2 ^ 24).
  { eapply Z.lt_le_trans; [ exact U | ].
    apply Z.pow_le_mono_r; lia. }
  destruct e as [|p|p].
  - rewrite <- Zlt_Qlt. lia.
  - rewrite <- Zlt_Qlt.
    assert (2 ^ Z.pos p <= 2 ^ 104) by (apply Z.pow_le_mono_r; lia).
    assert (0 < 2 ^ Z.pos p) by (apply Z.pow_pos_nonneg; lia).
    change (2 ^ 128) with (2 ^ 24 * 2 ^ 104). nia.
  - unfold Qlt. cbn [Qnum Qden inject_Z].
    assert (0 < 2 ^ Z.pos p) by (apply Z.pow_pos_nonneg; lia).
    rewrite Z2Pos.id by assumption. nia.
Qed.

Lemma scaled_round_lt (half_up : bool) (p : nat) (x : f32) (N : Z) :
  (Qabs (F32.to_Q x) * inject_Z (10 ^ Z.of_nat p) + (1 # 2) < inject_Z N)%Q ->
  0 <= scaled_round half_up p x < N.
Proof.
  intros H.
  pose proof (scaled_round_nearest half_up p x) as E.
  pose proof (Qabs_nonneg (F32.to_Q x)) as P.
  assert (T : (0 <= Qabs (F32.to_Q x) * inject_Z (10 ^ Z.of_nat p))%Q).
  { apply Qmult_le_0_compat; [ exact P | ].
    change 0%Q with (inject_Z 0). rewrite <- Zle_Qle.
    apply Z.pow_nonneg. lia. }
  revert H E T.
  generalize (Qabs (F32.to_Q x) * inject_Z (10 ^ Z.of_nat p))%Q.
  generalize (scaled_round half_up p x). intros n q H E T.
  apply Qabs_Qle_condition in E. destruct E as [E1 E2].
  split.
  - assert (L : (inject_Z (-1) < inject_Z n)%Q).
    { change (inject_Z (-1)) with (-1 # 1)%Q. Lqa.lra. }
    rewrite <- Zlt_Qlt in L. lia.
  - rewrite Zlt_Qlt. Lqa.lra.
Qed.

Lemma fmt_fixed_length (half_up : bool) (p : nat) (x : f32) :
  F32.is_finite x = true ->
  String.length (fmt_fixed half_up (S p) x)
  = ((if F32.sign x then 1 else 0)
     + String.length
         (dec_string (scaled_round half_up (S p) x / 10 ^ Z.of_nat (S p)))
     + 1 + S p)%nat.
Proof.
  intros H. rewrite (fmt_fixed_shape half_up p x H).
  rewrite !length_append, digits_fixed_length.
  destruct (F32.sign x); cbn [String.length]; lia.
Qed.

(** With an integer part below [10^k], a non-negative number takes at
    most [k] places before the point. *)
Lemma fmt_fixed_places (half_up : bool) (p k : nat) (x : f32) :
  F32.is_finite x = true ->
  F32.sign x = false ->
  (1 <= k)%nat ->
  (Qabs (F32.to_Q x) * inject_Z (10 ^ Z.of_nat (S p)) + (1 # 2)
   < inject_Z (10 ^ Z.of_nat (k + S p)))%Q ->
  (S p + 2 <= String.length (fmt_fixed half_up (S p) x) <= k + 1 + S p)%nat.
Proof.
  intros Hf Hs Hk Hq.
  rewrite (fmt_fixed_length half_up p x Hf), Hs.
  destruct (scaled_round_lt half_up (S p) x _ Hq) as [N0 N1].
  pose proof (dec_string_nonempty
                (scaled_round half_up (S p) x / 10 ^ Z.of_nat (S p))) as L1.
  assert (P : 0 < 10 ^ Z.of_nat (S p)) by (apply Z.pow_pos_nonneg; lia).
  assert (L2 : (String.length
                  (dec_string (scaled_round half_up (S p) x
                               / 10 ^ Z.of_nat (S p))) <= k)%nat).
  { apply dec_string_length_le; [ | exact Hk ]. split.
    - apply Z.div_pos; lia.
    - apply Z.div_lt_upper_bound; [ exact P | ].
      rewrite Nat2Z.inj_add, Z.pow_add_r in N1 by lia. lia. }
  lia.
Qed.

(** [%6.4f] of a value below 9.99995: six characters. *)
Lemma fmt_f_6_4_width (x : f32) :
  F32.is_finite x = true ->
  F32.sign x = false ->
  (F32.to_Q x < 199999 # 20000)%Q ->
  String.length (fmt_f 6 4 x) = 6%nat.
Proof.
  intros Hf Hs Hq. unfold fmt_f. rewrite pad_left_length.
  pose proof (to_Q_sign x Hs) as P.
  assert (B : (6 <= String.length (fmt_fixed false 4 x) <= 6)%nat).
  { apply (fmt_fixed_places false 3 1 x Hf Hs (le_n 1)).
    rewrite (abs_to_Q x P).
    change (inject_Z (10 ^ Z.of_nat 4)) with (10000 # 1)%Q.
    change (inject_Z (10 ^ Z.of_nat (1 + 4))) with (100000 # 1)%Q.
    Lqa.lra. }
  lia.
Qed.

(** [dtostrf(x, 5, 2)] of a value below 99.995: five characters. *)
Lemma dtostrf_5_2_width (x : f32) :
  F32.is_finite x = true ->
  F32.sign x = false ->
  (F32.to_Q x < 19999 # 200)%Q ->
  String.length (dtostrf x 5 2) = 5%nat.
Proof.
  intros Hf Hs Hq. unfold dtostrf. rewrite pad_left_length.
  pose proof (to_Q_sign x Hs) as P.
  assert (B : (4 <= String.length (fmt_fixed true 2 x) <= 5)%nat).
  { apply (fmt_fixed_places true 1 2 x Hf Hs); [ lia | ].
    rewrite (abs_to_Q x P).
    change (inject_Z (10 ^ Z.of_nat 2)) with (100 # 1)%Q.
    change (inject_Z (10 ^ Z.of_nat (2 + 2))) with (10000 # 1)%Q.
    Lqa.lra. }
  lia.
Qed.

(** [%7u]: seven characters up to 9999999, more beyond. *)
Lemma fmt_u_7_width (n : Z) :
  String.length (fmt_u 7 n)
  = Nat.max 7 (String.length (dec_string (uint32 n)))
  /\ (uint32 n < 10 ^ 7 -> String.length (fmt_u 7 n) = 7%nat)
  /\ (10 ^ 7 <= uint32 n -> (8 <= String.length (fmt_u 7 n) <= 10)%nat).
Proof.
  unfold fmt_u. rewrite pad_left_length.
  pose proof (uint32_range n) as R.
  assert (T : (String.length (dec_string (uint32 n)) <= 10)%nat).
  { apply dec_string_length_le; [ | lia ].
    change (10 ^ Z.of_nat 10) with 10000000000.
    change (2 ^ 32) with 4294967296 in R. lia. }
  split; [ reflexivity | split; intros H ].
  - assert ((String.length (dec_string (uint32 n)) <= 7)%nat)
      by (apply dec_string_length_le; [ split; [lia | exact H] | lia ]).
    lia.
  - pose proof (dec_string_length_gt (uint32 n) 7 H). lia.
Qed.

(** [%6.4f] of any binary32 number: at most 45 characters. *)
Lemma fmt_f_6_4_bound (x : f32) :
  valid_binary 24 128 x = true ->
  (6 <= String.length (fmt_f 6 4 x) <= 45)%nat.
Proof.
  intros V. unfold fmt_f. rewrite pad_left_length.
  assert (B : (String.length (fmt_fixed false 4 x) <= 45)%nat).
  { destruct (F32.is_finite x) eqn:Hf.
    - rewrite (fmt_fixed_length false 3 x Hf).
      pose proof (to_Q_bounded x V) as Q.
      assert (S : 0 <= scaled_round false 4 x < 2 ^ 128 * 10 ^ 4 + 1).
      { apply scaled_round_lt.
        change (inject_Z (10 ^ Z.of_nat 4)) with (10000 # 1)%Q.
        change (inject_Z (2 ^ 128 * 10 ^ 4 + 1))
          with (inject_Z (2 ^ 128) * (10000 # 1) + 1)%Q.
        revert Q. generalize (Qabs (F32.to_Q x)), (inject_Z (2 ^ 128)).
        intros a b Q. Lqa.lra. }
      assert (L : (String.length (dec_string (scaled_round false 4 x
                                              / 10 ^ Z.of_nat 4)) <= 39)%nat).
      { apply dec_string_length_le; [ | lia ]. split.
        - apply Z.div_pos; [ lia | reflexivity ].
        - apply Z.div_lt_upper_bound; [ reflexivity | ].
          change (10 ^ Z.of_nat 4) with 10000.
          change (10 ^ 4) with 10000 in S.
          assert (2 ^ 128 < 10 ^ Z.of_nat 39) by reflexivity.
          lia. }
      destruct (F32.sign x); lia.
    - destruct x as [s | s | | s m e]; try discriminate Hf;
        [ destruct s | ]; cbn; lia. }
  lia.
Qed.
(** ** Rounding to nearest, from the definitions

    The operations of [SpecFloat] shift a mantissa to the right and round
    it with the two bits that the shift keeps.  What follows derives, from
    those definitions, what the result is as a number. *)

Lemma digits2_log2 (p : positive) :
  Z.pos (digits2_pos p) = Z.log2 (Z.pos p) + 1.
Proof.
  pose proof (digits2_lower p) as L. pose proof (digits2_upper p) as U.
  assert (E : Z.log2 (Z.pos p) = Z.pos (digits2_pos p) - 1).
  { apply Z.log2_unique; [ lia | ].
    replace (Z.succ (Z.pos (digits2_pos p) - 1)) with (Z.pos (digits2_pos p))
      by lia.
    split; assumption. }
  lia.
Qed.

(** One step of the shift. *)
Lemma shr_1_spec (m : Z) (r s : bool) :
  0 <= m ->
  shr_1 {| shr_m := m; shr_r := r; shr_s := s |}
  = {| shr_m := m / 2; shr_r := Z.odd m; shr_s := r || s |}.
Proof.
  intros H. destruct m as [|p|p]; [ | | lia ].
  - reflexivity.
  - destruct p as [p|p|]; cbn [shr_1 Z.odd].
    + replace (Z.pos p~1 / 2) with (Z.pos p); [ reflexivity | ].
      apply (Z.div_unique_pos _ _ _ 1); [ lia | ].
      rewrite Pos2Z.inj_xI. lia.
    + replace (Z.pos p~0 / 2) with (Z.pos p); [ reflexivity | ].
      apply (Z.div_unique_pos _ _ _ 0); [ lia | ].
      rewrite Pos2Z.inj_xO. lia.
    + reflexivity.
Qed.

Lemma iter_pos_nat {A : Type} (f : A -> A) (p : positive) (x : A) :
  iter_pos f p x = Nat.iter (Pos.to_nat p) f x.
Proof.
  revert x. induction p as [p IH | p IH |]; intros x; cbn [iter_pos].
  - rewrite !IH, Pos2Nat.inj_xI.
    replace (S (2 * Pos.to_nat p)) with (Pos.to_nat p + (Pos.to_nat p + 1))%nat
      by lia.
    rewrite !Nat.iter_add. reflexivity.
  - rewrite !IH, Pos2Nat.inj_xO.
    replace (2 * Pos.to_nat p)%nat with (Pos.to_nat p + Pos.to_nat p)%nat
      by lia.
    rewrite Nat.iter_add. reflexivity.
  - reflexivity.
Qed.

(** [k + 1] steps: the quotient, the bit shifted out last, and whether any
    bit shifted out before it was set. *)
Lemma shr_iter (M : Z) (k : nat) :
  0 <= M ->
  Nat.iter (S k) shr_1 {| shr_m := M; shr_r := false; shr_s := false |}
  = {| shr_m := M / 2 ^ Z.of_nat (S k);
       shr_r := Z.odd (M / 2 ^ Z.of_nat k);
       shr_s := negb (M mod 2 ^ Z.of_nat k =? 0) |}.
Proof.
  intros HM. induction k as [|k IH].
  - cbn [Nat.iter]. rewrite shr_1_spec by exact HM.
    change (2 ^ Z.of_nat 1) with 2. change (2 ^ Z.of_nat 0) with 1.
    rewrite Z.div_1_r, Z.mod_1_r. reflexivity.
  - change (Nat.iter (S (S k)) shr_1 ?x) with (shr_1 (Nat.iter (S k) shr_1 x)).
    rewrite IH.
    assert (P : 0 < 2 ^ Z.of_nat k) by (apply Z.pow_pos_nonneg; lia).
    assert (P1 : 2 ^ Z.of_nat (S k) = 2 ^ Z.of_nat k * 2)
      by (rewrite Nat2Z.inj_succ, Z.pow_succ_r; lia).
    assert (P2 : 2 ^ Z.of_nat (S (S k)) = 2 ^ Z.of_nat (S k) * 2)
      by (rewrite (Nat2Z.inj_succ (S k)), Z.pow_succ_r; lia).
    rewrite shr_1_spec by (apply Z.div_pos; lia).
    f_equal.
    + rewrite P2, Z.div_div by lia. reflexivity.
    + (* sticky bit *)
      rewrite P1.
      pose proof (Z.div_mod M (2 ^ Z.of_nat k) ltac:(lia)) as E.
      pose proof (Z.mod_pos_bound M (2 ^ Z.of_nat k) P) as B.
      set (q := M / 2 ^ Z.of_nat k) in *.
      set (r := M mod 2 ^ Z.of_nat k) in *.
      pose proof (Z.div_mod q 2 ltac:(lia)) as Eq.
      pose proof (Z.mod_pos_bound q 2 ltac:(lia)) as Bq.
      assert (R : M mod (2 ^ Z.of_nat k * 2)
                  = (q mod 2) * 2 ^ Z.of_nat k + r).
      { symmetry. apply (Z.mod_unique_pos _ _ (q / 2)); nia. }
      rewrite R, (Zmod_odd q).
      destruct (Z.odd q); cbn [orb].
      * symmetry. apply negb_true_iff, Z.eqb_neq. nia.
      * rewrite Z.mul_0_l, Z.add_0_l. reflexivity.
Qed.

(** The mantissa rounded after a shift by [p] bits is the nearest multiple
    of [2^p]. *)
Lemma round_shift (M : Z) (p : positive) :
  0 <= M ->
  let mrs := iter_pos shr_1 p {| shr_m := M; shr_r := false; shr_s := false |} in
  let R := round_nearest_even (shr_m mrs) (loc_of_shr_record mrs) in
  M / 2 ^ Z.pos p <= R <= M / 2 ^ Z.pos p + 1
  /\ - 2 ^ Z.pos p <= 2 * (R * 2 ^ Z.pos p - M) <= 2 ^ Z.pos p.
Proof.
  intros HM mrs R. subst R mrs. rewrite iter_pos_nat.
  destruct (Pos2Nat.is_succ p) as (k & Hk). rewrite Hk.
  rewrite shr_iter by exact HM.
  assert (Ep : Z.pos p = Z.of_nat (S k)) by lia.
  rewrite Ep. clear Ep Hk p.
  assert (P : 0 < 2 ^ Z.of_nat k) by (apply Z.pow_pos_nonneg; lia).
  assert (P1 : 2 ^ Z.of_nat (S k) = 2 ^ Z.of_nat k * 2)
    by (rewrite Nat2Z.inj_succ, Z.pow_succ_r; lia).
  rewrite P1.
  pose proof (Z.div_mod M (2 ^ Z.of_nat k) ltac:(lia)) as E.
  pose proof (Z.mod_pos_bound M (2 ^ Z.of_nat k) P) as B.
  rewrite <- (Z.div_div M _ 2) by lia.
  set (h := 2 ^ Z.of_nat k) in *.
  set (a := M / h) in *. set (t := M mod h) in *.
  pose proof (Z.div_mod a 2 ltac:(lia)) as Ea.
  pose proof (Zmod_odd a) as O.
  set (q := a / 2) in *.
  cbn [shr_m loc_of_shr_record].
  destruct (Z.odd a); rewrite O in Ea; clear O.
  - destruct (t =? 0) eqn:T; cbn [negb round_nearest_even].
    + apply Z.eqb_eq in T. destruct (Z.even q); nia.
    + apply Z.eqb_neq in T. nia.
  - destruct (t =? 0) eqn:T; cbn [negb round_nearest_even].
    + apply Z.eqb_eq in T. nia.
    + apply Z.eqb_neq in T. nia.
Qed.

Lemma fexp_lower (k : Z) : -149 <= fexp 24 128 k /\ k - 24 <= fexp 24 128 k.
Proof. unfold fexp, emin. lia. Qed.

Lemma fexp_cases (k : Z) :
  (fexp 24 128 k = k - 24 /\ -149 <= k - 24)
  \/ (fexp 24 128 k = -149 /\ k - 24 < -149).
Proof. unfold fexp, emin. lia. Qed.

(** [binary_round_aux] when the mantissa has to be shifted: the result is
    the mantissa [R] nearest to [M / 2^(e1 - e)] at the exponent [e1] of
    the binade of [M * 2^e], renormalised when the rounding carries. *)
Lemma round_aux_shift (M : positive) (e : Z) :
  let e1 := fexp 24 128 (Z.pos (digits2_pos M) + e) in
  e < e1 -> e1 <= 103 ->
  exists R : Z,
    - 2 ^ (e1 - e) <= 2 * (R * 2 ^ (e1 - e) - Z.pos M) <= 2 ^ (e1 - e)
    /\ 0 <= R <= 2 ^ 24
    /\ (-149 < e1 -> 2 ^ 23 <= R)
    /\ binary_round_aux 24 128 false (Z.pos M) e loc_Exact
       = match R with
         | Z.pos r =>
             if R =? 2 ^ 24 then S754_finite false 8388608 (e1 + 1)
             else S754_finite false r e1
         | _ => S754_zero false
         end.
Proof.
  intros e1 Hn Hmax.
  pose proof (digits2_lower M) as DL. pose proof (digits2_upper M) as DU.
  set (d := Z.pos (digits2_pos M)) in *.
  pose proof (fexp_lower (d + e)) as FL.
  pose proof (fexp_cases (d + e)) as FC.
  fold e1 in FL, FC.
  unfold binary_round_aux, shr_fexp. cbn [Zdigits2 shr_record_of_loc].
  fold d. fold e1.
  destruct (e1 - e) as [|p|p] eqn:En; [ lia | | lia ].
  cbn [shr].
  destruct (round_shift (Z.pos M) p ltac:(lia)) as (Rq & Rn).
  set (mrs := iter_pos shr_1 p _) in *.
  set (R := round_nearest_even (shr_m mrs) (loc_of_shr_record mrs)) in *.
  clearbody R. clear mrs.
  replace (e + Z.pos p) with e1 by lia.
  assert (P : 0 < 2 ^ Z.pos p) by (apply Z.pow_pos_nonneg; lia).
  assert (Q0 : 0 <= Z.pos M / 2 ^ Z.pos p) by (apply Z.div_pos; lia).
  assert (Q1 : Z.pos M / 2 ^ Z.pos p < 2 ^ 24).
  { apply Z.div_lt_upper_bound; [ exact P | ].
    rewrite <- Z.pow_add_r by lia.
    eapply Z.lt_le_trans; [ exact DU | ].
    apply Z.pow_le_mono_r; lia. }
  assert (Q2 : -149 < e1 -> 2 ^ 23 <= Z.pos M / 2 ^ Z.pos p).
  { intros H1. destruct FC as [[F _] | [F _]]; [ | lia ].
    apply Z.div_le_lower_bound; [ exact P | ].
    rewrite <- Z.pow_add_r by lia.
    eapply Z.le_trans; [ | exact DL ].
    apply Z.pow_le_mono_r; lia. }
  exists R. split; [ exact Rn | ].
  split; [ lia | ]. split; [ intros H1; specialize (Q2 H1); lia | ].
  destruct R as [|r|r]; [ | | lia ].
  - (* the mantissa rounds to zero *)
    cbn [Zdigits2]. rewrite Z.add_0_l.
    destruct (fexp 24 128 e1 - e1) as [|p'|p'] eqn:E2;
      [ reflexivity
      | pose proof (fexp_cases e1); lia
      | reflexivity ].
  - cbn [Zdigits2].
    pose proof (digits2_lower r) as RL. pose proof (digits2_upper r) as RU.
    destruct (Z.pos r =? 2 ^ 24) eqn:C.
    + apply Z.eqb_eq in C.
      assert (Dr : Z.pos (digits2_pos r) = 25).
      { rewrite digits2_log2, C. reflexivity. }
      rewrite Dr.
      replace (fexp 24 128 (25 + e1) - e1) with 1
        by (unfold fexp, emin; lia).
      cbn [shr iter_pos]. rewrite shr_1_spec by lia.
      cbn [shr_m]. rewrite C. change (2 ^ 24 / 2) with (Z.pos 8388608).
      cbv iota.
      replace (e1 + 1 <=? 128 - 24) with true
        by (symmetry; apply Z.leb_le; lia).
      reflexivity.
    + apply Z.eqb_neq in C.
      assert (Dr : Z.pos (digits2_pos r) <= 24)
        by (apply digits2_bound; lia).
      destruct (fexp 24 128 (Z.pos (digits2_pos r) + e1) - e1)
        as [|p'|p'] eqn:E2.
      * cbn [shr shr_m].
        replace (e1 <=? 128 - 24) with true
          by (symmetry; apply Z.leb_le; lia).
        reflexivity.
      * unfold fexp, emin in E2. lia.
      * cbn [shr shr_m].
        replace (e1 <=? 128 - 24) with true
          by (symmetry; apply Z.leb_le; lia).
        reflexivity.
Qed.


(** ** Non-negative numbers as multiples of [2^-149] *)

Lemma plain_finite (m : positive) (e : Z) :
  plain (S754_finite false m e) = true ->
  fexp 24 128 (Z.pos (digits2_pos m) + e) = e /\ -149 <= e <= 104.
Proof.
  unfold plain. cbn [valid_binary]. unfold bounded, canonical_mantissa.
  intros H. rewrite andb_true_r in H. apply andb_prop in H.
  destruct H as [C E]. apply Z.eqb_eq in C. apply Z.leb_le in E.
  pose proof (fexp_lower (Z.pos (digits2_pos m) + e)). lia.
Qed.

Lemma finite_plain (m : positive) (e : Z) :
  fexp 24 128 (Z.pos (digits2_pos m) + e) = e -> e <= 104 ->
  plain (S754_finite false m e) = true.
Proof.
  intros C E. unfold plain. cbn [valid_binary].
  unfold bounded, canonical_mantissa. rewrite C, Z.eqb_refl.
  replace (e <=? 128 - 24) with true by (symmetry; apply Z.leb_le; lia).
  reflexivity.
Qed.

Lemma log2_shift (m : positive) (k : Z) :
  0 <= k -> Z.log2 (Z.pos m * 2 ^ k) = Z.pos (digits2_pos m) - 1 + k.
Proof.
  intros Hk. rewrite Z.log2_mul_pow2 by lia. rewrite digits2_log2. lia.
Qed.

Lemma grid_fexp (d e : Z) :
  Z.max 0 (d - 1 + (e + 149) - 23) = fexp 24 128 (d + e) + 149.
Proof. unfold fexp, emin. lia. Qed.

(** The numbers of binary32 have at most 24 significant bits. *)
Lemma plain_grid (x : f32) :
  plain x = true ->
  0 <= ticks x < 2 ^ 277
  /\ ticks x mod 2 ^ Z.max 0 (Z.log2 (ticks x) - 23) = 0.
Proof.
  destruct x as [s | s | | s m e]; try discriminate;
    try (intros _; split; [ split; reflexivity || lia | reflexivity ]).
  destruct s;
    [ intros H; unfold plain in H; rewrite andb_false_r in H; discriminate | ].
  intros H. destruct (plain_finite m e H) as (C & E).
  cbn [ticks].
  pose proof (digits2_upper m) as U.
  assert (D : Z.pos (digits2_pos m) <= 24).
  { pose proof (fexp_lower (Z.pos (digits2_pos m) + e)). lia. }
  assert (P : 0 < 2 ^ (e + 149)) by (apply Z.pow_pos_nonneg; lia).
  split.
  - split; [ lia | ].
    assert (Z.pos m < 2 ^ 24)
      by (eapply Z.lt_le_trans; [ exact U | apply Z.pow_le_mono_r; lia ]).
    assert (2 ^ (e + 149) <= 2 ^ 253) by (apply Z.pow_le_mono_r; lia).
    change (2 ^ 277) with (2 ^ 24 * 2 ^ 253). nia.
  - rewrite log2_shift by lia. rewrite grid_fexp, C.
    apply Z.mod_mul. lia.
Qed.

Lemma ticks_nonneg (x : f32) : 0 <= ticks x.
Proof.
  destruct x as [s | s | | s m e]; cbn [ticks]; try lia.
  destruct s; [ lia | ].
  destruct (Z.le_gt_cases 0 (e + 149)) as [H | H].
  - assert (0 < 2 ^ (e + 149)) by (apply Z.pow_pos_nonneg; lia). lia.
  - rewrite Z.pow_neg_r by lia. lia.
Qed.

(** ** The two roundings of the filter *)

(** No shift: the mantissa is kept. *)
Lemma round_aux_exact (m : positive) (e : Z) :
  fexp 24 128 (Z.pos (digits2_pos m) + e) <= e -> e <= 104 ->
  binary_round_aux 24 128 false (Z.pos m) e loc_Exact = S754_finite false m e.
Proof.
  intros Hn He. unfold binary_round_aux, shr_fexp.
  cbn [Zdigits2 shr_record_of_loc].
  destruct (fexp 24 128 (Z.pos (digits2_pos m) + e) - e) as [|p|p] eqn:E;
    [ | lia | ];
    cbn [shr shr_m loc_of_shr_record round_nearest_even Zdigits2];
    rewrite E; cbn [shr shr_m];
    replace (e <=? 128 - 24) with true by (symmetry; apply Z.leb_le; lia);
    reflexivity.
Qed.

(** A shift: the result is a number of binary32, [R * 2^e1] with [R]
    nearest to the shifted mantissa. *)
Lemma round_aux_value (M : positive) (e : Z) :
  let e1 := fexp 24 128 (Z.pos (digits2_pos M) + e) in
  let r := binary_round_aux 24 128 false (Z.pos M) e loc_Exact in
  e < e1 -> e1 <= 103 ->
  plain r = true
  /\ exists R : Z,
       ticks r = R * 2 ^ (e1 + 149)
       /\ 0 <= R <= 2 ^ 24
       /\ - 2 ^ (e1 - e) <= 2 * (R * 2 ^ (e1 - e) - Z.pos M) <= 2 ^ (e1 - e).
Proof.
  intros e1 r Hn Hmax.
  destruct (round_aux_shift M e Hn Hmax) as (R & Near & RB & RN & E).
  fold e1 in Near, RN, E. subst r. rewrite E. clear E.
  pose proof (fexp_lower (Z.pos (digits2_pos M) + e)) as FL. fold e1 in FL.
  destruct R as [|q|q]; [ | | lia ].
  - split; [ reflexivity | ]. exists 0. cbn [ticks].
    split; [ lia | ]. split; [ lia | exact Near ].
  - destruct (Z.pos q =? 2 ^ 24) eqn:C.
    + apply Z.eqb_eq in C. split.
      * apply finite_plain; [ | lia ].
        change (Z.pos (digits2_pos 8388608)) with 24.
        unfold fexp, emin. lia.
      * exists (Z.pos q). cbn [ticks]. split; [ | split; assumption ].
        rewrite C. replace (e1 + 1 + 149) with (Z.succ (e1 + 149)) by lia.
        rewrite Z.pow_succ_r by lia. lia.
    + apply Z.eqb_neq in C. split.
      * apply finite_plain; [ | lia ].
        pose proof (digits2_upper q) as QU.
        pose proof (digits2_lower q) as QL.
        assert (D : Z.pos (digits2_pos q) <= 24)
          by (apply digits2_bound; lia).
        destruct (Z.eq_dec e1 (-149)) as [E9 | E9].
        -- unfold fexp, emin. lia.
        -- assert (L : 2 ^ 23 <= Z.pos q) by (apply RN; lia).
           assert (D' : 24 <= Z.pos (digits2_pos q)).
           { destruct (Z.le_gt_cases 24 (Z.pos (digits2_pos q)))
               as [G | G]; [ exact G | exfalso ].
             assert (2 ^ Z.pos (digits2_pos q) <= 2 ^ 23)
               by (apply Z.pow_le_mono_r; lia).
             lia. }
           unfold fexp, emin. lia.
      * exists (Z.pos q). cbn [ticks].
        split; [ reflexivity | split; assumption ].
Qed.


Lemma alpha_repr :
  ALPHA = S754_finite false 8388608 (-24)
  /\ F32.sub (F32.of_Z 1) ALPHA = S754_finite false 8388608 (-24).
Proof. split; vm_compute; reflexivity. Qed.

(** Half of a number: exact unless the number is an odd multiple of
    [2^-149]. *)
Lemma mul_half_ticks (x : f32) :
  plain x = true ->
  let r := F32.mul (S754_finite false 8388608 (-24)) x in
  plain r = true /\ -1 <= 2 * ticks r - ticks x <= 1.
Proof.
  destruct x as [s | s | | s m e]; intros H r; subst r;
    try (unfold plain in H; cbn in H; discriminate H).
  - destruct s; [ unfold plain in H; cbn in H; discriminate H | ].
    split; [ reflexivity | cbn; lia ].
  - destruct s;
      [ unfold plain in H; rewrite andb_false_r in H; discriminate | ].
    destruct (plain_finite m e H) as (C & E).
    unfold F32.mul, SFmul, F32.prec, F32.emax. cbn [xorb].
    set (M := (8388608 * m)%positive).
    assert (VM : Z.pos M = Z.pos m * 2 ^ 23)
      by (unfold M; rewrite Pos2Z.inj_mul; change (2 ^ 23) with 8388608; lia).
    assert (DM : Z.pos (digits2_pos M) = Z.pos (digits2_pos m) + 23).
    { rewrite (digits2_log2 M), VM, log2_shift by lia. lia. }
    pose proof (round_aux_value M (-24 + e)) as V. cbv zeta in V.
    rewrite DM in V.
    pose proof (digits2_upper m) as U. pose proof (digits2_lower m) as L.
    destruct (Z.eq_dec e (-149)) as [E9 | E9].
    + (* the smallest exponent: one bit is lost *)
      assert (F1 : fexp 24 128 (Z.pos (digits2_pos m) + 23 + (-24 + e)) = -149)
        by (unfold fexp, emin in *; lia).
      rewrite F1 in V.
      destruct V as (P & R & T & RB & Near); [ lia | lia | ].
      split; [ exact P | ]. rewrite T. cbn [ticks]. subst e.
      replace (-149 - (-24 + -149)) with 24 in Near by lia.
      rewrite VM in Near.
      change (-149 + 149) with 0. change (2 ^ 0) with 1.
      change (2 ^ 24) with (2 * 2 ^ 23) in Near.
      assert (0 < 2 ^ 23) by lia. nia.
    + assert (D : Z.pos (digits2_pos m) = 24)
        by (unfold fexp, emin in C; lia).
      assert (F1 : fexp 24 128 (Z.pos (digits2_pos m) + 23 + (-24 + e)) = e - 1)
        by (unfold fexp, emin in *; lia).
      rewrite F1 in V.
      destruct V as (P & R & T & RB & Near); [ lia | lia | ].
      split; [ exact P | ]. rewrite T. cbn [ticks].
      replace (e - 1 - (-24 + e)) with 23 in Near by lia.
      rewrite VM in Near.
      assert (0 < 2 ^ 23) by lia.
      assert (R = Z.pos m) by nia. subst R.
      replace (e + 149) with (Z.succ (e - 1 + 149)) by lia.
      rewrite Z.pow_succ_r by lia. lia.
Qed.

Lemma shl_align_value (m : positive) (e ez : Z) :
  ez <= e -> Z.pos (fst (shl_align m e ez)) = Z.pos m * 2 ^ (e - ez).
Proof.
  intros H. unfold shl_align.
  destruct (ez - e) as [|p|p] eqn:E; cbn [fst].
  - replace (e - ez) with 0 by lia. lia.
  - lia.
  - rewrite shift_value. f_equal. f_equal. lia.
Qed.

(** A positive integer at an exponent, normalised: the number of binary32
    nearest to it. *)
Lemma normalize_ticks (M : positive) (e : Z) :
  -149 <= e ->
  Z.pos M * 2 ^ (e + 149) < 2 ^ 276 ->
  let r := binary_normalize 24 128 (Z.pos M) e false in
  plain r = true /\ nearest24 (Z.pos M * 2 ^ (e + 149)) (ticks r).
Proof.
  intros He Hb r. subst r. unfold nearest24.
  rewrite log2_shift by lia. rewrite grid_fexp.
  cbn [binary_normalize]. unfold binary_round.
  set (d := Z.pos (digits2_pos M)).
  set (e1 := fexp 24 128 (d + e)).
  pose proof (fexp_lower (d + e)) as FL. fold e1 in FL.
  pose proof (digits2_lower M) as DL. fold d in DL.
  assert (P : 0 < 2 ^ (e + 149)) by (apply Z.pow_pos_nonneg; lia).
  assert (Hd : d + e <= 127).
  { destruct (Z.le_gt_cases (d + e) 127) as [G | G]; [ exact G | exfalso ].
    assert (2 ^ 276 <= 2 ^ (d - 1) * 2 ^ (e + 149)).
    { rewrite <- Z.pow_add_r by lia. apply Z.pow_le_mono_r; lia. }
    nia. }
  assert (H1 : e1 <= 103) by (subst e1; unfold fexp, emin; lia).
  cbv zeta.
  assert (Q : 0 < 2 ^ (e1 + 149)) by (apply Z.pow_pos_nonneg; lia).
  destruct (Z.lt_ge_cases e e1) as [Lt | Ge].
  - (* rounded *)
    assert (A : shl_align M e e1 = (M, e)).
    { unfold shl_align. destruct (e1 - e) eqn:E; try reflexivity. lia. }
    rewrite A.
    destruct (round_aux_value M e) as (Pl & R & T & RB & Near);
      [ exact Lt | exact H1 | ].
    fold d in T, Near. fold e1 in T, Near.
    split; [ exact Pl | ]. rewrite T.
    split; [ apply Z.mod_mul; lia | ].
    replace (e1 + 149) with ((e1 - e) + (e + 149)) by lia.
    rewrite Z.pow_add_r by lia.
    assert (0 < 2 ^ (e1 - e)) by (apply Z.pow_pos_nonneg; lia).
    nia.
  - (* exact *)
    assert (V : Z.pos (fst (shl_align M e e1)) = Z.pos M * 2 ^ (e - e1))
      by (apply shl_align_value; lia).
    assert (X : snd (shl_align M e e1) = e1).
    { unfold shl_align. destruct (e1 - e) eqn:E; cbn [snd]; lia. }
    destruct (shl_align M e e1) as [mz ez]. cbn [fst snd] in V, X. subst ez.
    assert (Dz : Z.pos (digits2_pos mz) + e1 = d + e).
    { rewrite (digits2_log2 mz), V, log2_shift by lia. lia. }
    rewrite round_aux_exact; [ | rewrite Dz; fold e1; lia | lia ].
    split.
    + apply finite_plain; [ rewrite Dz; reflexivity | lia ].
    + cbn [ticks]. rewrite V.
      assert (E2 : 2 ^ (e - e1) * 2 ^ (e1 + 149) = 2 ^ (e + 149)).
      { rewrite <- Z.pow_add_r by lia. f_equal. lia. }
      replace (Z.pos M * 2 ^ (e - e1) * 2 ^ (e1 + 149))
        with (Z.pos M * 2 ^ (e + 149))
        by (rewrite <- E2, Z.mul_assoc; reflexivity).
      split; [ | lia ].
      rewrite <- E2. rewrite Z.mul_assoc. apply Z.mod_mul. lia.
Qed.

Lemma nearest24_self (T : Z) :
  T mod 2 ^ Z.max 0 (Z.log2 T - 23) = 0 -> nearest24 T T.
Proof.
  intros H. unfold nearest24. split; [ exact H | ].
  assert (0 < 2 ^ Z.max 0 (Z.log2 T - 23)) by (apply Z.pow_pos_nonneg; lia).
  lia.
Qed.

(** The sum of two non-negative numbers. *)
Lemma add_ticks (a b : f32) :
  plain a = true -> plain b = true ->
  ticks a + ticks b < 2 ^ 276 ->
  plain (F32.add a b) = true
  /\ nearest24 (ticks a + ticks b) (ticks (F32.add a b)).
Proof.
  intros Ha Hb Hs.
  destruct (plain_grid a Ha) as (_ & Ga).
  destruct (plain_grid b Hb) as (_ & Gb).
  destruct a as [sa | sa | | sa ma ea];
    try (unfold plain in Ha; cbn in Ha; discriminate Ha);
    (destruct sa;
     [ unfold plain in Ha; rewrite ?andb_false_r in Ha; cbn in Ha;
       discriminate Ha | ]);
    (destruct b as [sb | sb | | sb mb eb];
     try (unfold plain in Hb; cbn in Hb; discriminate Hb);
     (destruct sb;
      [ unfold plain in Hb; rewrite ?andb_false_r in Hb; cbn in Hb;
        discriminate Hb | ])).
  - split; [ reflexivity | ]. apply nearest24_self. reflexivity.
  - split; [ exact Hb | ]. cbn [F32.add SFadd]. rewrite Z.add_0_l.
    apply nearest24_self. exact Gb.
  - split; [ exact Ha | ]. cbn [F32.add SFadd]. rewrite Z.add_0_r.
    apply nearest24_self. exact Ga.
  - destruct (plain_finite ma ea Ha) as (Ca & Ea).
    destruct (plain_finite mb eb Hb) as (Cb & Eb).
    unfold F32.add, SFadd, F32.prec, F32.emax. cbn [cond_Zopp].
    set (ez := Z.min ea eb).
    assert (Va := shl_align_value ma ea ez ltac:(lia)).
    assert (Vb := shl_align_value mb eb ez ltac:(lia)).
    set (A := fst (shl_align ma ea ez)) in *.
    set (B := fst (shl_align mb eb ez)) in *.
    change (Z.pos A + Z.pos B) with (Z.pos (A + B)).
    assert (S : ticks (S754_finite false ma ea) + ticks (S754_finite false mb eb)
                = Z.pos (A + B) * 2 ^ (ez + 149)).
    { cbn [ticks]. rewrite Pos2Z.inj_add, Va, Vb.
      replace (ea + 149) with ((ea - ez) + (ez + 149)) by lia.
      replace (eb + 149) with ((eb - ez) + (ez + 149)) by lia.
      rewrite (Z.pow_add_r 2 (ea - ez)), (Z.pow_add_r 2 (eb - ez))
        by (subst ez; lia).
      generalize (2 ^ (ea - ez)), (2 ^ (eb - ez)), (2 ^ (ez + 149)).
      intros p1 p2 p3. ring. }
    rewrite S in *.
    apply normalize_ticks; [ lia | exact Hs ].
Qed.


(** ** Rounding never passes a number of binary32 *)

Lemma near_multiple (n U R C : Z) :
  0 <= n -> R mod 2 ^ n = 0 -> C mod 2 ^ n = 0 ->
  - 2 ^ n <= 2 * (R - U) <= 2 ^ n ->
  (U <= C -> R <= C) /\ (C <= U -> C <= R).
Proof.
  intros Hn HR HC Near.
  assert (P : 0 < 2 ^ n) by (apply Z.pow_pos_nonneg; lia).
  apply Z.div_exact in HR; [ | lia ]. apply Z.div_exact in HC; [ | lia ].
  set (r := R / 2 ^ n) in *. set (c := C / 2 ^ n) in *.
  set (p := 2 ^ n) in *.
  split; intros H.
  - destruct (Z.le_gt_cases r c) as [G | G]; [ nia | exfalso ].
    assert ((c + 1) * p <= r * p) by (apply Z.mul_le_mono_nonneg_r; lia).
    nia.
  - destruct (Z.le_gt_cases c r) as [G | G]; [ nia | exfalso ].
    assert ((r + 1) * p <= c * p) by (apply Z.mul_le_mono_nonneg_r; lia).
    nia.
Qed.

Lemma pow2_divides (n g A : Z) :
  0 <= n <= g -> A mod 2 ^ g = 0 -> A mod 2 ^ n = 0.
Proof.
  intros H HA. apply Z.div_exact in HA;
    [ | assert (0 < 2 ^ g) by (apply Z.pow_pos_nonneg; lia); lia ].
  rewrite HA. replace g with ((g - n) + n) at 1 by lia.
  rewrite Z.pow_add_r by lia.
  rewrite (Z.mul_comm (2 ^ (g - n) * 2 ^ n)), Z.mul_assoc.
  apply Z.mod_mul.
  assert (0 < 2 ^ n) by (apply Z.pow_pos_nonneg; lia). lia.
Qed.

Lemma nearest24_between (U R A : Z) :
  nearest24 U R -> 0 <= A ->
  A mod 2 ^ Z.max 0 (Z.log2 A - 23) = 0 ->
  (U <= A -> R <= A) /\ (A <= U -> A <= R).
Proof.
  unfold nearest24. intros (HR & Near) HA GA.
  set (n := Z.max 0 (Z.log2 U - 23)) in *.
  assert (Hn : 0 <= n) by (subst n; lia).
  split; intros H.
  - assert (L : Z.log2 U <= Z.log2 A) by (apply Z.log2_le_mono; exact H).
    assert (DA : A mod 2 ^ n = 0)
      by (apply (pow2_divides n _ A) in GA; [ exact GA | subst n; lia ]).
    apply (near_multiple n U R A Hn HR DA Near). exact H.
  - destruct (Z.eq_dec n 0) as [N0 | N0].
    + rewrite N0 in Near. change (2 ^ 0) with 1 in Near. lia.
    + assert (L23 : 24 <= Z.log2 U) by (subst n; lia).
      assert (UP : 0 < U).
      { destruct (Z.lt_trichotomy U 0) as [N | [N | N]]; [ | | exact N ].
        - rewrite Z.log2_nonpos in L23 by lia. lia.
        - subst U. cbn in L23. lia. }
      destruct (Z.log2_spec U UP) as [Lo _].
      destruct (Z.le_gt_cases (Z.log2 U) (Z.log2 A)) as [G | G].
      * assert (DA : A mod 2 ^ n = 0)
          by (apply (pow2_divides n _ A) in GA; [ exact GA | subst n; lia ]).
        apply (near_multiple n U R A Hn HR DA Near). exact H.
      * assert (AP : A < 2 ^ Z.log2 U).
        { destruct (Z.eq_dec A 0) as [-> | NZ];
            [ apply Z.pow_pos_nonneg; lia | ].
          destruct (Z.log2_spec A ltac:(lia)) as [_ Hi].
          eapply Z.lt_le_trans; [ exact Hi | ].
          apply Z.pow_le_mono_r; lia. }
        assert (DP : 2 ^ Z.log2 U mod 2 ^ n = 0).
        { replace (Z.log2 U) with ((Z.log2 U - n) + n) by lia.
          rewrite Z.pow_add_r by (subst n; lia).
          apply Z.mod_mul.
          assert (0 < 2 ^ n) by (apply Z.pow_pos_nonneg; lia). lia. }
        pose proof (near_multiple n U R (2 ^ Z.log2 U) Hn HR DP Near) as [_ K].
        specialize (K Lo). lia.
Qed.

(** ** One update of the filter *)

Lemma even_half (X h : Z) :
  Z.even X = true -> -1 <= 2 * h - X <= 1 -> 2 * h = X.
Proof.
  intros E H. apply Z.even_spec in E. destruct E as (k & ->). lia.
Qed.

Lemma ema_ticks (x f : f32) :
  plain x = true -> plain f = true ->
  Z.even (ticks x) = true ->
  ticks x < 2 ^ 276 -> ticks f < 2 ^ 276 ->
  plain (ema x f) = true
  /\ (ticks f <= ticks x -> ticks f <= ticks (ema x f) <= ticks x)
  /\ (ticks x <= ticks f -> ticks x <= ticks (ema x f) <= ticks f)
  /\ 2 ^ 23 * Z.abs (2 * ticks (ema x f) - (ticks x + ticks f))
     <= Z.max (ticks x) (ticks f) + 2 ^ 23.
Proof.
  intros Px Pf Ev Bx Bf. unfold ema.
  destruct alpha_repr as [A1 A2]. rewrite A2, A1. clear A1 A2.
  destruct (mul_half_ticks x Px) as (Phx & Hx).
  destruct (mul_half_ticks f Pf) as (Phf & Hf).
  cbv zeta in *.
  set (hx := F32.mul (S754_finite false 8388608 (-24)) x) in *.
  set (hf := F32.mul (S754_finite false 8388608 (-24)) f) in *.
  apply (even_half _ _ Ev) in Hx.
  destruct (plain_grid x Px) as ((X0 & _) & Gx).
  destruct (plain_grid f Pf) as ((F0 & _) & Gf).
  assert (Bu : ticks hx + ticks hf < 2 ^ 276) by lia.
  destruct (add_ticks hx hf Phx Phf Bu) as (Pr & Near).
  set (r := F32.add hx hf) in *.
  pose proof (nearest24_between _ _ (ticks x) Near X0 Gx) as [UX LX].
  pose proof (nearest24_between _ _ (ticks f) Near F0 Gf) as [UF LF].
  split; [ exact Pr | ].
  split; [ intros H; split; [ apply LF | apply UX ]; lia | ].
  split; [ intros H; split; [ apply LX | apply UF ]; lia | ].
  (* the error of the two roundings *)
  unfold nearest24 in Near. destruct Near as (_ & Near).
  set (U := ticks hx + ticks hf) in *.
  destruct (Z.eq_dec (Z.max 0 (Z.log2 U - 23)) 0) as [N0 | N0].
  - rewrite N0 in Near. change (2 ^ 0) with 1 in Near.
    assert (ticks r = U) by lia. change (2 ^ 23) with 8388608. lia.
  - assert (L23 : 24 <= Z.log2 U) by lia.
    assert (UP : 0 < U).
    { destruct (Z.lt_trichotomy U 0) as [N | [N | N]]; [ | | exact N ].
      - rewrite Z.log2_nonpos in L23 by lia. lia.
      - rewrite N in L23. cbn in L23. lia. }
    destruct (Z.log2_spec U UP) as [Lo _].
    replace (Z.max 0 (Z.log2 U - 23)) with (Z.log2 U - 23) in Near by lia.
    assert (E : 2 ^ Z.log2 U = 2 ^ 23 * 2 ^ (Z.log2 U - 23)).
    { rewrite <- Z.pow_add_r by lia. f_equal. lia. }
    assert (UM : U <= Z.max (ticks x) (ticks f)) by lia.
    set (p := 2 ^ (Z.log2 U - 23)) in *.
    change (2 ^ 23) with 8388608 in *. lia.
Qed.


(** ** Any number of updates with a constant input *)

Lemma ema_input_spec (x : f32) :
  ema_input x = true ->
  plain x = true /\ Z.even (ticks x) = true /\ ticks x < 2 ^ 276.
Proof.
  unfold ema_input. intros H.
  apply andb_prop in H. destruct H as [H B].
  apply andb_prop in H. destruct H as [P D].
  apply Z.ltb_lt in B. split; [ exact P | split; [ | exact B ] ].
  apply orb_prop in D. destruct D as [D | D].
  - apply Z.eqb_eq in D. rewrite D. reflexivity.
  - apply Z.leb_le in D.
    destruct (plain_grid x P) as (_ & G).
    assert (L : 24 <= Z.log2 (ticks x))
      by (apply Z.log2_le_pow2; lia).
    apply (pow2_divides 1) in G; [ | lia ].
    change (2 ^ 1) with 2 in G.
    rewrite Zmod_even in G. destruct (Z.even (ticks x)); [ reflexivity | lia ].
Qed.

Lemma ema_state_spec (f : f32) :
  ema_state f = true <-> plain f = true /\ ticks f < 2 ^ 276.
Proof.
  unfold ema_state. rewrite andb_true_iff, Z.ltb_lt. reflexivity.
Qed.

Lemma ema_run_S (n : nat) (x f : f32) :
  ema_run (S n) x f = ema x (ema_run n x f).
Proof. reflexivity. Qed.

(** The state stays between the start and the input, on the side of the
    start, and moves toward the input. *)
Lemma ema_run_range (x f : f32) (n : nat) :
  ema_input x = true -> ema_state f = true ->
  ema_state (ema_run n x f) = true
  /\ (ticks f <= ticks x ->
      ticks f <= ticks (ema_run n x f)
      /\ ticks (ema_run n x f) <= ticks (ema_run (S n) x f)
      /\ ticks (ema_run (S n) x f) <= ticks x)
  /\ (ticks x <= ticks f ->
      ticks x <= ticks (ema_run (S n) x f)
      /\ ticks (ema_run (S n) x f) <= ticks (ema_run n x f)
      /\ ticks (ema_run n x f) <= ticks f).
Proof.
  intros Hx Hf.
  destruct (ema_input_spec x Hx) as (Px & Ev & Bx).
  apply ema_state_spec in Hf. destruct Hf as (Pf & Bf).
  assert (I : plain (ema_run n x f) = true
              /\ Z.min (ticks x) (ticks f) <= ticks (ema_run n x f)
                 <= Z.max (ticks x) (ticks f)
              /\ (ticks f <= ticks x -> ticks f <= ticks (ema_run n x f))
              /\ (ticks x <= ticks f -> ticks (ema_run n x f) <= ticks f)).
  { induction n as [|n IH].
    - change (ema_run 0 x f) with f. split; [ exact Pf | lia ].
    - destruct IH as (Pn & Rn & Ln & Un). rewrite ema_run_S.
      destruct (ema_ticks x (ema_run n x f) Px Pn Ev Bx ltac:(lia))
        as (P' & Lo & Hi & _).
      split; [ exact P' | ]. lia. }
  destruct I as (Pn & Rn & Ln & Un). rewrite ema_run_S.
  destruct (ema_ticks x (ema_run n x f) Px Pn Ev Bx ltac:(lia))
    as (P' & Lo & Hi & _).
  split; [ apply ema_state_spec; split; [ exact Pn | lia ] | ].
  split; intros H; lia.
Qed.

(** The error after [n] updates, in units of [2^-149]. *)
Lemma ema_run_error (x f : f32) (n : nat) :
  ema_input x = true -> ema_state f = true ->
  2 ^ 23 * (2 ^ Z.of_nat n * Z.abs (ticks (ema_run n x f) - ticks x))
  <= 2 ^ 23 * Z.abs (ticks f - ticks x)
     + (2 ^ Z.of_nat n - 1) * (Z.max (ticks x) (ticks f) + 2 ^ 23).
Proof.
  intros Hx Hf.
  destruct (ema_input_spec x Hx) as (Px & Ev & Bx).
  pose proof (ticks_nonneg x) as X0. pose proof (ticks_nonneg f) as F0.
  induction n as [|n IH].
  - change (ema_run 0 x f) with f. change (2 ^ Z.of_nat 0) with 1. lia.
  - destruct (ema_run_range x f n Hx Hf) as (Sn & Lo & Hi).
    apply ema_state_spec in Sn. destruct Sn as (Pn & Bn).
    rewrite ema_run_S.
    destruct (ema_ticks x (ema_run n x f) Px Pn Ev Bx Bn)
      as (_ & _ & _ & E).
    rewrite ema_run_S in Lo, Hi.
    set (T := ticks (ema_run n x f)) in *.
    set (T' := ticks (ema x (ema_run n x f))) in *.
    rewrite Nat2Z.inj_succ, Z.pow_succ_r by lia.
    assert (P : 0 < 2 ^ Z.of_nat n) by (apply Z.pow_pos_nonneg; lia).
    set (p := 2 ^ Z.of_nat n) in *.
    assert (M : Z.max (ticks x) T <= Z.max (ticks x) (ticks f)) by lia.
    assert (S1 : 2 ^ 23 * (2 * Z.abs (T' - ticks x))
                 <= 2 ^ 23 * Z.abs (T - ticks x)
                    + (Z.max (ticks x) (ticks f) + 2 ^ 23)).
    { change (2 ^ 23) with 8388608 in *. lia. }
    assert (S2 : p * (2 ^ 23 * (2 * Z.abs (T' - ticks x)))
                 <= p * (2 ^ 23 * Z.abs (T - ticks x)
                         + (Z.max (ticks x) (ticks f) + 2 ^ 23)))
      by (apply Z.mul_le_mono_nonneg_l; lia).
    set (c := Z.max (ticks x) (ticks f) + 2 ^ 23) in *.
    set (E0 := Z.abs (ticks f - ticks x)) in *.
    set (En := Z.abs (T - ticks x)) in *.
    set (En' := Z.abs (T' - ticks x)) in *.
    change (2 ^ 23) with 8388608 in *. nia.
Qed.


(** ** The same in rational numbers *)

Lemma to_Q_ticks (x : f32) :
  plain x = true ->
  (F32.to_Q x == inject_Z (ticks x) * (1 # 2 ^ 149))%Q.
Proof.
  destruct x as [s | s | | s m e]; intros H;
    try (unfold plain in H; cbn in H; discriminate H);
    try reflexivity.
  destruct s;
    [ unfold plain in H; rewrite andb_false_r in H; discriminate | ].
  destruct (plain_finite m e H) as (_ & E).
  cbn [F32.to_Q ticks]. unfold Qeq.
  destruct e as [|p|p].
  - cbn [Qnum Qden Qmult inject_Z]. rewrite Pos.mul_1_l.
    change (0 + 149) with 149. change (Z.pos (2 ^ 149)) with (2 ^ 149).
    lia.
  - cbn [Qnum Qden Qmult inject_Z]. rewrite Pos.mul_1_l.
    change (Z.pos (2 ^ 149)) with (2 ^ 149).
    rewrite (Z.pow_add_r 2 (Z.pos p) 149) by lia. lia.
  - cbn [Qnum Qden Qmult inject_Z]. rewrite Pos.mul_1_l.
    change (Z.pos (2 ^ 149)) with (2 ^ 149).
    assert (P : 0 < 2 ^ Z.pos p) by (apply Z.pow_pos_nonneg; lia).
    rewrite Z2Pos.id by exact P.
    assert (S : 2 ^ 149 = 2 ^ (Z.neg p + 149) * 2 ^ Z.pos p).
    { rewrite <- Z.pow_add_r by lia. f_equal. lia. }
    rewrite S. lia.
Qed.

Lemma tick_pos : (0 < 1 # 2 ^ 149)%Q.
Proof. reflexivity. Qed.

Lemma to_Q_le (a b : f32) :
  plain a = true -> plain b = true ->
  ((F32.to_Q a <= F32.to_Q b)%Q <-> ticks a <= ticks b).
Proof.
  intros Ha Hb.
  pose proof (to_Q_ticks a Ha) as Ea. pose proof (to_Q_ticks b Hb) as Eb.
  rewrite Ea, Eb.
  rewrite Qmult_le_r by exact tick_pos. rewrite <- Zle_Qle. reflexivity.
Qed.

Lemma half_pow (n : nat) :
  ((1 # 2) ^ Z.of_nat n * inject_Z (2 ^ Z.of_nat n) == 1)%Q.
Proof.
  induction n as [|n IH].
  - reflexivity.
  - rewrite Nat2Z.inj_succ. unfold Z.succ.
    rewrite Qpower_plus by discriminate.
    rewrite Z.pow_add_r by lia. rewrite inject_Z_mult.
    change (inject_Z (2 ^ 1)) with (2 # 1)%Q.
    change ((1 # 2) ^ 1)%Q with (1 # 2)%Q.
    set (a := ((1 # 2) ^ Z.of_nat n)%Q) in *.
    set (p := inject_Z (2 ^ Z.of_nat n)) in *.
    transitivity (a * p)%Q; [ ring | exact IH ].
Qed.

Lemma half_pow_pos (n : nat) : (0 < (1 # 2) ^ Z.of_nat n)%Q.
Proof. apply Qpower_0_lt. reflexivity. Qed.

(** An inequality of integers as one of rationals. *)
Ltac to_Q_hyp H :=
  rewrite Zle_Qle in H; unfold Z.sub in H;
  repeat first [ rewrite inject_Z_plus in H
               | rewrite inject_Z_mult in H
               | rewrite inject_Z_opp in H ].

(** One update against the exact one. *)
Lemma ema_step_Q (x f : f32) (B : Z) :
  ema_input x = true -> ema_state f = true ->
  ticks x <= B -> ticks f <= B ->
  (Qabs (F32.to_Q (ema x f) - ema_exact (F32.to_Q x) (F32.to_Q f))
   <= (1 # 2 ^ 24) * (inject_Z B * (1 # 2 ^ 149)) + (1 # 2 ^ 150))%Q.
Proof.
  intros Hx Hf BX BF.
  destruct (ema_input_spec x Hx) as (Px & Ev & Bx).
  apply ema_state_spec in Hf. destruct Hf as (Pf & Bf).
  destruct (ema_ticks x f Px Pf Ev Bx Bf) as (Pr & _ & _ & E).
  pose proof (to_Q_ticks _ Pr) as Er. pose proof (to_Q_ticks x Px) as Ex.
  pose proof (to_Q_ticks f Pf) as Ef.
  unfold ema_exact, ALPHA_exact.
  rewrite Er, Ex, Ef. clear Er Ex Ef.
  set (R := ticks (ema x f)) in *. set (X := ticks x) in *.
  set (F := ticks f) in *.
  assert (E1 : 2 ^ 23 * (2 * R - (X + F)) <= B + 2 ^ 23) by lia.
  assert (E2 : - (B + 2 ^ 23) <= 2 ^ 23 * (2 * R - (X + F))) by lia.
  clear E. to_Q_hyp E1. to_Q_hyp E2.
  change (inject_Z (2 ^ 23)) with (8388608 # 1)%Q in E1, E2.
  change (inject_Z 2) with (2 # 1)%Q in E1, E2.
  revert E1 E2.
  generalize (inject_Z R), (inject_Z X), (inject_Z F), (inject_Z B).
  intros r x' f' b E1 E2.
  apply Qabs_Qle_condition.
  change (1 # 2 ^ 149)%Q with (1 # 713623846352979940529142984724747568191373312)%Q.
  change (1 # 2 ^ 150)%Q with (1 # 1427247692705959881058285969449495136382746624)%Q.
  change (1 # 2 ^ 24)%Q with (1 # 16777216)%Q.
  split; Lqa.lra.
Qed.


Lemma abs_ticks (A B : Z) :
  (Qabs (inject_Z A * (1 # 2 ^ 149) - inject_Z B * (1 # 2 ^ 149))
   == inject_Z (Z.abs (A - B)) * (1 # 2 ^ 149))%Q.
Proof.
  assert (E : (inject_Z A * (1 # 2 ^ 149) - inject_Z B * (1 # 2 ^ 149)
               == inject_Z (A - B) * (1 # 2 ^ 149))%Q).
  { unfold Z.sub. rewrite inject_Z_plus, inject_Z_opp. ring. }
  rewrite E, Qabs_Qmult. reflexivity.
Qed.

Lemma error_ticks (x f : f32) :
  plain x = true -> plain f = true ->
  (error_of x f == inject_Z (Z.abs (ticks f - ticks x)) * (1 # 2 ^ 149))%Q.
Proof.
  intros Px Pf. unfold error_of.
  pose proof (to_Q_ticks x Px) as Ex. pose proof (to_Q_ticks f Pf) as Ef.
  rewrite Ex, Ef. apply abs_ticks.
Qed.

(** The error after [n] updates: the exact bound and the allowance for
    the roundings. *)
Lemma ema_run_error_Q (x f : f32) (n : nat) :
  ema_input x = true -> ema_state f = true ->
  (error_of x (ema_run n x f)
   <= (1 # 2) ^ Z.of_nat n * error_of x f
      + (1 # 2 ^ 23)
        * (inject_Z (Z.max (ticks x) (ticks f)) * (1 # 2 ^ 149))
      + (1 # 2 ^ 149))%Q.
Proof.
  intros Hx Hf.
  pose proof (ema_run_error x f n Hx Hf) as H.
  destruct (ema_run_range x f n Hx Hf) as (Sn & _).
  apply ema_state_spec in Sn. destruct Sn as (Pn & _).
  destruct (ema_input_spec x Hx) as (Px & _).
  pose proof Hf as Hf'. apply ema_state_spec in Hf'. destruct Hf' as (Pf & _).
  pose proof (error_ticks x _ Px Pn) as En.
  pose proof (error_ticks x f Px Pf) as E0.
  rewrite En, E0. clear En E0.
  pose proof (half_pow n) as A. pose proof (half_pow_pos n) as A0.
  assert (B0 : 0 <= Z.max (ticks x) (ticks f))
    by (pose proof (ticks_nonneg x); lia).
  assert (E00 : 0 <= Z.abs (ticks f - ticks x)) by lia.
  revert H E00 B0.
  generalize (Z.abs (ticks (ema_run n x f) - ticks x)),
    (Z.abs (ticks f - ticks x)), (Z.max (ticks x) (ticks f)).
  intros zn z0 zb H E00 B0.
  to_Q_hyp H. to_Q_hyp B0. to_Q_hyp E00.
  change (inject_Z (2 ^ 23)) with (8388608 # 1)%Q in H.
  change (inject_Z (-1)) with (-1 # 1)%Q in H.
  change (inject_Z 1) with (1 # 1)%Q in H.
  change (inject_Z 0) with 0%Q in B0, E00.
  revert H A A0 B0 E00.
  generalize (inject_Z zn), (inject_Z z0), (inject_Z zb),
    (inject_Z (2 ^ Z.of_nat n)), ((1 # 2) ^ Z.of_nat n)%Q.
  intros en e0 b p a H A A0 B0 E00.
  change (1 # 2 ^ 149)%Q with (1 # 713623846352979940529142984724747568191373312)%Q.
  change (1 # 2 ^ 23)%Q with (1 # 8388608)%Q.
  assert (K : (8388608 * en <= 8388608 * (a * e0) + (1 - a) * (b + 8388608))%Q).
  { assert (M : (a * (8388608 * (p * en))
                 <= a * (8388608 * e0 + (p + (-1 # 1)) * (b + 8388608)))%Q).
    { apply Qmult_le_l; [ exact A0 | ]. Lqa.nra. }
    assert (L : (a * (8388608 * (p * en)) == 8388608 * en * (a * p))%Q) by ring.
    assert (Rr : (a * (8388608 * e0 + (p + (-1 # 1)) * (b + 8388608))
                  == 8388608 * (a * e0) + (a * p - a) * (b + 8388608))%Q)
      by ring.
    rewrite L, Rr, A in M. 
    assert (Z1 : (8388608 * en * 1 == 8388608 * en)%Q) by ring.
    rewrite Z1 in M. exact M. }
  assert (AB : (0 <= a * (b + 8388608))%Q).
  { apply Qmult_le_0_compat; [ apply Qlt_le_weak; exact A0 | Lqa.lra ]. }
  assert (K' : (en <= a * e0 + (1 # 8388608) * b + 1)%Q).
  { assert (D : ((1 - a) * (b + 8388608)
                 == (b + 8388608) - a * (b + 8388608))%Q) by ring.
    rewrite D in K. clear D H A.
    revert K AB. generalize (a * e0)%Q, (a * (b + 8388608))%Q.
    intros ae ab K AB. Lqa.lra. }
  apply (Qmult_le_compat_r _ _
           (1 # 713623846352979940529142984724747568191373312)) in K';
    [ | discriminate ].
  eapply Qle_trans; [ exact K' | ].
  apply Qle_lteq. right. ring.
Qed.

(** ** The samples of [measureVoltage]

    Division and multiplication round a quotient or a product whose
    remainder is known only by its location; the shape of the result does
    not depend on it. *)

Lemma shr_record_m (m : Z) (l : location) :
  shr_m (shr_record_of_loc m l) = m.
Proof. destruct l as [|[ | | ]]; reflexivity. Qed.

Lemma shr_m_iter (mrs : shr_record) (k : nat) :
  0 <= shr_m mrs ->
  shr_m (Nat.iter k shr_1 mrs) = shr_m mrs / 2 ^ Z.of_nat k.
Proof.
  intros H. induction k as [|k IH].
  - cbn [Nat.iter]. change (2 ^ Z.of_nat 0) with 1. now rewrite Z.div_1_r.
  - change (Nat.iter (S k) shr_1 mrs) with (shr_1 (Nat.iter k shr_1 mrs)).
    assert (P : 0 < 2 ^ Z.of_nat k) by (apply Z.pow_pos_nonneg; lia).
    destruct (Nat.iter k shr_1 mrs) as [m r s]. cbn [shr_m] in IH.
    rewrite shr_1_spec by (rewrite IH; apply Z.div_pos; lia).
    cbn [shr_m]. rewrite IH, Z.div_div by lia.
    rewrite Nat2Z.inj_succ, Z.pow_succ_r by lia. f_equal. lia.
Qed.

Lemma round_even_near (m : Z) (l : location) :
  m <= round_nearest_even m l <= m + 1.
Proof.
  destruct l as [|[ | | ]]; cbn [round_nearest_even]; try lia.
  destruct (Z.even m); lia.
Qed.

Lemma digits2_range (p : positive) (n : Z) :
  2 ^ (n - 1) <= Z.pos p < 2 ^ n -> Z.pos (digits2_pos p) = n.
Proof.
  intros H. pose proof (digits2_lower p) as L. pose proof (digits2_upper p) as U.
  assert (N : 0 < n).
  { destruct (Z.lt_ge_cases 0 n) as [G | G]; [ exact G | exfalso ].
    destruct (Z.eq_dec n 0) as [-> | N0].
    - change (2 ^ 0) with 1 in H. lia.
    - rewrite (Z.pow_neg_r 2 n) in H by lia. lia. }
  assert (A : Z.pos (digits2_pos p) - 1 < n).
  { apply (Z.pow_lt_mono_r_iff 2); lia. }
  assert (B : n - 1 < Z.pos (digits2_pos p)).
  { apply (Z.pow_lt_mono_r_iff 2); lia. }
  lia.
Qed.

(** The second rounding step of [binary_round_aux] on a mantissa of 24
    bits, or on [2^24] after a carry. *)
Lemma round_finish (R e1 : Z) :
  2 ^ 23 <= R <= 2 ^ 24 -> -149 <= e1 <= 103 ->
  exists (r : positive) (e2 : Z),
    (let '(mrs, e) := shr_fexp 24 128 R e1 loc_Exact in
     match shr_m mrs with
     | 0 => S754_zero false
     | Z.pos m =>
         if e <=? 128 - 24 then S754_finite false m e
         else S754_infinity false
     | Z.neg _ => S754_nan
     end) = S754_finite false r e2
    /\ 2 ^ 23 <= Z.pos r < 2 ^ 24 /\ e1 <= e2 <= e1 + 1.
Proof.
  intros HR He. destruct R as [|r|r]; [ lia | | lia ].
  unfold shr_fexp. cbn [Zdigits2 shr_record_of_loc].
  destruct (Z.eq_dec (Z.pos r) (2 ^ 24)) as [C | C].
  - assert (Dr : Z.pos (digits2_pos r) = 25)
      by (rewrite digits2_log2, C; reflexivity).
    rewrite Dr.
    replace (fexp 24 128 (25 + e1) - e1) with 1 by (unfold fexp, emin; lia).
    cbn [shr iter_pos]. rewrite shr_1_spec by lia.
    cbn [shr_m]. rewrite C. change (2 ^ 24 / 2) with (Z.pos 8388608).
    cbv iota.
    replace (e1 + 1 <=? 128 - 24) with true by (symmetry; apply Z.leb_le; lia).
    exists 8388608%positive, (e1 + 1).
    split; [ reflexivity | ]. split; [ split; reflexivity || lia | lia ].
  - assert (Dr : Z.pos (digits2_pos r) = 24)
      by (apply digits2_range; change (24 - 1) with 23; lia).
    rewrite Dr.
    replace (fexp 24 128 (24 + e1) - e1) with 0 by (unfold fexp, emin; lia).
    cbn [shr shr_m].
    replace (e1 <=? 128 - 24) with true by (symmetry; apply Z.leb_le; lia).
    exists r, e1. split; [ reflexivity | ]. split; lia.
Qed.

(** [binary_round_aux] in the normal range, whatever the location: a
    mantissa of 24 bits at the exponent of the binade, or at the next one
    after a carry. *)
Lemma round_aux_form (M : positive) (e : Z) (l : location) :
  let e1 := fexp 24 128 (Z.pos (digits2_pos M) + e) in
  e <= e1 -> -149 < e1 -> e1 <= 103 ->
  exists (r : positive) (e2 : Z),
    binary_round_aux 24 128 false (Z.pos M) e l = S754_finite false r e2
    /\ 2 ^ 23 <= Z.pos r < 2 ^ 24 /\ e1 <= e2 <= e1 + 1.
Proof.
  intros e1 Hn Hlo Hhi.
  pose proof (digits2_lower M) as DL. pose proof (digits2_upper M) as DU.
  set (d := Z.pos (digits2_pos M)) in *.
  pose proof (fexp_cases (d + e)) as FC. fold e1 in FC.
  destruct FC as [[F _] | [F _]]; [ | lia ].
  unfold binary_round_aux. unfold shr_fexp at 1. cbn [Zdigits2].
  fold d. fold e1.
  assert (P : 0 < 2 ^ (e1 - e)) by (apply Z.pow_pos_nonneg; lia).
  assert (Q : exists mrs,
             shr (shr_record_of_loc (Z.pos M) l) e (e1 - e) = (mrs, e1)
             /\ shr_m mrs = Z.pos M / 2 ^ (e1 - e)).
  { unfold shr. destruct (e1 - e) as [|p|p] eqn:En; [ | | lia ].
    - eexists. split; [ f_equal; lia | ].
      rewrite shr_record_m. change (2 ^ 0) with 1. now rewrite Z.div_1_r.
    - eexists. split; [ f_equal; lia | ].
      rewrite iter_pos_nat, shr_m_iter, shr_record_m, positive_nat_Z;
        [ reflexivity | rewrite shr_record_m; lia ]. }
  destruct Q as (mrs & -> & Hm).
  apply round_finish; [ | lia ].
  pose proof (round_even_near (shr_m mrs) (loc_of_shr_record mrs)) as N.
  rewrite Hm in *.
  assert (Q1 : Z.pos M / 2 ^ (e1 - e) < 2 ^ 24).
  { apply Z.div_lt_upper_bound; [ exact P | ].
    rewrite <- Z.pow_add_r by lia.
    eapply Z.lt_le_trans; [ exact DU | ].
    apply Z.pow_le_mono_r; lia. }
  assert (Q2 : 2 ^ 23 <= Z.pos M / 2 ^ (e1 - e)).
  { apply Z.div_le_lower_bound; [ exact P | ].
    rewrite <- Z.pow_add_r by lia.
    eapply Z.le_trans; [ | exact DL ].
    apply Z.pow_le_mono_r; lia. }
  lia.
Qed.

(** A normal number divided by the full-scale code 65535. *)
Lemma div_full_scale (m : positive) (e : Z) :
  Z.pos (digits2_pos m) = 24 -> -100 <= e <= 100 ->
  exists (q : positive) (e2 : Z),
    F32.div (S754_finite false m e) ADC_MAX_CODE = S754_finite false q e2
    /\ 2 ^ 23 <= Z.pos q < 2 ^ 24 /\ e - 16 <= e2 <= e - 14.
Proof.
  intros Hd He.
  change ADC_MAX_CODE with (S754_finite false 16776960 (-8)).
  unfold F32.div, SFdiv, SFdiv_core_binary, F32.prec, F32.emax.
  cbn [Zdigits2 xorb]. rewrite Hd.
  change (Z.pos (digits2_pos 16776960)) with 24.
  replace (Z.min (fexp 24 128 (24 + e - (24 + -8))) (e - -8)) with (e - 16)
    by (unfold fexp, emin; lia).
  replace (e - -8 - (e - 16)) with 24 by lia.
  pose proof (digits2_lower m) as L. pose proof (digits2_upper m) as U.
  rewrite Hd in L, U. change (24 - 1) with 23 in L.
  rewrite Z.shiftl_mul_pow2 by lia.
  pose proof (Z_div_mod (Z.pos m * 2 ^ 24) 16776960 ltac:(lia)) as DM.
  destruct (Z.div_eucl (Z.pos m * 2 ^ 24) 16776960) as [q r].
  destruct DM as (DE & DR).
  change (2 ^ 23) with 8388608 in L. change (2 ^ 24) with 16777216 in *.
  assert (Q1 : 8388608 <= q) by nia.
  assert (Q2 : q < 33554432) by nia.
  destruct q as [|q|q]; [ lia | | lia ].
  generalize (new_location 16776960 r). intros l.
  pose proof (round_aux_form q (e - 16) l) as RF. cbv zeta in RF.
  pose proof (digits2_lower q) as QL. pose proof (digits2_upper q) as QU.
  assert (D : 24 <= Z.pos (digits2_pos q) <= 25).
  { split.
    - destruct (Z.le_gt_cases 24 (Z.pos (digits2_pos q))) as [G | G];
        [ exact G | exfalso ].
      assert (2 ^ Z.pos (digits2_pos q) <= 2 ^ 23)
        by (apply Z.pow_le_mono_r; lia).
      change (2 ^ 23) with 8388608 in *. lia.
    - apply digits2_bound; [ lia | ]. change (2 ^ 25) with 33554432. lia. }
  assert (F : fexp 24 128 (Z.pos (digits2_pos q) + (e - 16))
              = Z.pos (digits2_pos q) + e - 40)
    by (unfold fexp, emin; lia).
  rewrite F in RF.
  destruct RF as (r' & e2 & E & B & X); [ lia | lia | lia | ].
  exists r', e2. split; [ exact E | ]. split; [ exact B | lia ].
Qed.

(** A normal number multiplied by the reference of a range is a proper
    input of the filter. *)
Lemma mul_reference (hv : bool) (q : positive) (e : Z) :
  2 ^ 23 <= Z.pos q < 2 ^ 24 -> -100 <= e <= 50 ->
  ema_input (F32.mul (S754_finite false q e) (scale_ref hv)) = true.
Proof.
  intros Hq He.
  assert (S : exists mr er,
             scale_ref hv = S754_finite false mr er
             /\ 2 ^ 23 <= Z.pos mr < 2 ^ 24 /\ -23 <= er <= -22).
  { destruct hv.
    - exists 9227469%positive, (-23). split; [ vm_compute; reflexivity | ].
      split; [ split; reflexivity || discriminate | lia ].
    - exists 13841203%positive, (-22). split; [ vm_compute; reflexivity | ].
      split; [ split; reflexivity || discriminate | lia ]. }
  destruct S as (mr & er & -> & Hr & Her).
  unfold F32.mul, SFmul, F32.prec, F32.emax. cbn [xorb].
  pose proof (round_aux_form (q * mr) (e + er) loc_Exact) as RF.
  cbv zeta in RF.
  assert (D : 47 <= Z.pos (digits2_pos (q * mr)) <= 48).
  { pose proof (digits2_lower (q * mr)) as QL.
    pose proof (digits2_upper (q * mr)) as QU.
    rewrite Pos2Z.inj_mul in QL, QU.
    change (2 ^ 23) with 8388608 in *. change (2 ^ 24) with 16777216 in *.
    split.
    - destruct (Z.le_gt_cases 47 (Z.pos (digits2_pos (q * mr)))) as [G | G];
        [ exact G | exfalso ].
      assert (2 ^ Z.pos (digits2_pos (q * mr)) <= 2 ^ 46)
        by (apply Z.pow_le_mono_r; lia).
      change (2 ^ 46) with (8388608 * 8388608) in *. nia.
    - apply digits2_bound; [ lia | ].
      rewrite Pos2Z.inj_mul.
      change (2 ^ 48) with (16777216 * 16777216). nia. }
  assert (F : fexp 24 128 (Z.pos (digits2_pos (q * mr)) + (e + er))
              = Z.pos (digits2_pos (q * mr)) + e + er - 24)
    by (unfold fexp, emin; lia).
  rewrite F in RF.
  destruct RF as (r & e2 & -> & B & X); [ lia | lia | lia | ].
  assert (Dr : Z.pos (digits2_pos r) = 24)
    by (apply digits2_range; change (24 - 1) with 23; lia).
  assert (Pl : plain (S754_finite false r e2) = true).
  { apply finite_plain; [ rewrite Dr; unfold fexp, emin; lia | lia ]. }
  unfold ema_input. rewrite Pl. cbn [ticks andb].
  assert (P1 : 2 ^ 1 <= 2 ^ (e2 + 149)) by (apply Z.pow_le_mono_r; lia).
  assert (P2 : 2 ^ (e2 + 149) <= 2 ^ 252) by (apply Z.pow_le_mono_r; lia).
  change (2 ^ 1) with 2 in P1.
  assert (T1 : 2 ^ 24 <= Z.pos r * 2 ^ (e2 + 149))
    by (change (2 ^ 24) with (2 ^ 23 * 2); nia).
  assert (T2 : Z.pos r * 2 ^ (e2 + 149) < 2 ^ 276).
  { change (2 ^ 276) with (2 ^ 24 * 2 ^ 252).
    assert (0 < 2 ^ (e2 + 149)) by lia. nia. }
  apply Z.leb_le in T1. apply Z.ltb_lt in T2.
  rewrite T1, T2, orb_true_r. reflexivity.
Qed.

(** Every sample is zero or a normal number: a proper input of the
    filter. *)
Lemma convert_is_input (hv : bool) (codes : list Z) :
  0 <= sum_codes codes <= 8 * 65535 ->
  ema_input (convert hv codes) = true.
Proof.
  intros Hs. unfold convert.
  destruct (sum_codes codes) as [|p|p]; [ | | lia ].
  - destruct hv; vm_compute; reflexivity.
  - assert (Hd : Z.pos (digits2_pos p) <= 20).
    { apply digits2_bound; [ lia | ]. change (2 ^ 20) with 1048576. lia. }
    rewrite of_Z_exact by lia.
    set (d := Z.pos (digits2_pos p)) in *.
    assert (Hd0 : 0 < d) by (unfold d; lia).
    assert (D24 : Z.pos (digits2_pos (Pos.iter xO p (Z.to_pos (24 - d)))) = 24)
      by (rewrite digits2_shift, Pos2Z.inj_add, Z2Pos.id by lia; fold d; lia).
    rewrite div_eight_exact by (exact D24 || lia).
    destruct (div_full_scale _ (d - 24 - 3) D24 ltac:(lia))
      as (q & e2 & -> & B & X).
    apply mul_reference; [ exact B | lia ].
Qed.

(** ** The filter in rational numbers *)

Lemma to_Q_nonneg (x : f32) : plain x = true -> (0 <= F32.to_Q x)%Q.
Proof.
  intros P. pose proof (to_Q_ticks x P) as E. rewrite E.
  apply Qmult_le_0_compat; [ | discriminate ].
  change 0%Q with (inject_Z 0). rewrite <- Zle_Qle. apply ticks_nonneg.
Qed.

Lemma to_Q_lt (x : f32) (T : Z) :
  plain x = true ->
  ((F32.to_Q x < inject_Z T * (1 # 2 ^ 149))%Q <-> ticks x < T).
Proof.
  intros P. pose proof (to_Q_ticks x P) as E. rewrite E.
  rewrite Qmult_lt_r by exact tick_pos. rewrite <- Zlt_Qlt. reflexivity.
Qed.

Lemma to_Q_ge (x : f32) (T : Z) :
  plain x = true ->
  ((inject_Z T * (1 # 2 ^ 149) <= F32.to_Q x)%Q <-> T <= ticks x).
Proof.
  intros P. pose proof (to_Q_ticks x P) as E. rewrite E.
  rewrite Qmult_le_r by exact tick_pos. rewrite <- Zle_Qle. reflexivity.
Qed.

Lemma to_Q_zero (x : f32) :
  plain x = true -> ((F32.to_Q x == 0)%Q <-> ticks x = 0).
Proof.
  intros P. pose proof (to_Q_ticks x P) as E. rewrite E. split.
  - intros H. apply Qmult_integral in H. destruct H as [H | H];
      [ | discriminate H ].
    unfold Qeq in H. cbn [Qnum Qden inject_Z] in H. lia.
  - intros ->. reflexivity.
Qed.

(** The inputs of the filter: the non-negative numbers of binary32 that
    are zero or normal and below [2^127]. *)
Lemma ema_input_values (x : f32) :
  ema_input x = true
  <-> plain x = true
      /\ ((F32.to_Q x == 0)%Q \/ (1 # 2 ^ 125 <= F32.to_Q x)%Q)
      /\ (F32.to_Q x < inject_Z (2 ^ 127))%Q.
Proof.
  assert (E1 : (1 # 2 ^ 125 == inject_Z (2 ^ 24) * (1 # 2 ^ 149))%Q)
    by reflexivity.
  assert (E2 : (inject_Z (2 ^ 127) == inject_Z (2 ^ 276) * (1 # 2 ^ 149))%Q)
    by reflexivity.
  unfold ema_input. rewrite !andb_true_iff, orb_true_iff.
  rewrite Z.eqb_eq, Z.leb_le, Z.ltb_lt.
  split.
  - intros ((P & D) & B). split; [ exact P | ].
    rewrite E1, E2, (to_Q_zero x P), (to_Q_ge x _ P), (to_Q_lt x _ P).
    split; assumption.
  - intros (P & D & B).
    rewrite E1, (to_Q_zero x P), (to_Q_ge x _ P) in D.
    rewrite E2, (to_Q_lt x _ P) in B.
    split; [ split | ]; assumption.
Qed.

Lemma ema_state_values (f : f32) :
  ema_state f = true
  <-> plain f = true /\ (F32.to_Q f < inject_Z (2 ^ 127))%Q.
Proof.
  assert (E2 : (inject_Z (2 ^ 127) == inject_Z (2 ^ 276) * (1 # 2 ^ 149))%Q)
    by reflexivity.
  rewrite ema_state_spec. split; intros (P & B); (split; [ exact P | ]).
  - rewrite E2. apply (to_Q_lt f _ P). exact B.
  - rewrite E2 in B. apply (to_Q_lt f _ P). exact B.
Qed.

Lemma max_ticks_Q (x f : f32) (B : Q) :
  plain x = true -> plain f = true ->
  (F32.to_Q x <= B)%Q -> (F32.to_Q f <= B)%Q ->
  (inject_Z (Z.max (ticks x) (ticks f)) * (1 # 2 ^ 149) <= B)%Q.
Proof.
  intros Px Pf Hx Hf.
  pose proof (to_Q_ticks x Px) as Ex. pose proof (to_Q_ticks f Pf) as Ef.
  destruct (Z.max_spec (ticks x) (ticks f)) as [[_ ->] | [_ ->]].
  - rewrite <- Ef. exact Hf.
  - rewrite <- Ex. exact Hx.
Qed.

(** The run stays below every bound of the input and of the start. *)
Lemma ema_run_below (x f : f32) (n : nat) (B : Q) :
  ema_input x = true -> ema_state f = true ->
  (F32.to_Q x <= B)%Q -> (F32.to_Q f <= B)%Q ->
  (F32.to_Q (ema_run n x f) <= B)%Q.
Proof.
  intros Hx Hf BX BF.
  destruct (ema_run_range x f n Hx Hf) as (Sn & Up & Down).
  destruct (ema_input_spec x Hx) as (Px & _).
  pose proof Hf as Hf'. apply ema_state_spec in Hf'. destruct Hf' as (Pf & _).
  apply ema_state_spec in Sn. destruct Sn as (Pn & _).
  destruct (Z.le_ge_cases (ticks f) (ticks x)) as [C | C].
  - eapply Qle_trans; [ | exact BX ].
    apply (to_Q_le _ _ Pn Px). destruct (Up C) as (_ & A & A'). lia.
  - eapply Qle_trans; [ | exact BF ].
    apply (to_Q_le _ _ Pn Pf). destruct (Down C) as (_ & _ & A). exact A.
Qed.

(** One update against the exact one. *)
Lemma ema_step_near (x f : f32) (B : Q) :
  ema_input x = true -> ema_state f = true ->
  (F32.to_Q x <= B)%Q -> (F32.to_Q f <= B)%Q ->
  (Qabs (F32.to_Q (ema x f) - ema_exact (F32.to_Q x) (F32.to_Q f))
   <= (1 # 2 ^ 24) * B + (1 # 2 ^ 150))%Q.
Proof.
  intros Hx Hf BX BF.
  destruct (ema_input_spec x Hx) as (Px & _).
  pose proof Hf as Hf'. apply ema_state_spec in Hf'. destruct Hf' as (Pf & _).
  pose proof (max_ticks_Q x f B Px Pf BX BF) as M.
  pose proof (ema_step_Q x f (Z.max (ticks x) (ticks f)) Hx Hf
                ltac:(lia) ltac:(lia)) as S.
  eapply Qle_trans; [ exact S | ].
  revert M. generalize (inject_Z (Z.max (ticks x) (ticks f)) * (1 # 2 ^ 149))%Q.
  intros v M.
  change (1 # 2 ^ 150)%Q with (1 # 1427247692705959881058285969449495136382746624)%Q.
  change (1 # 2 ^ 24)%Q with (1 # 16777216)%Q.
  Lqa.lra.
Qed.

(** The run against the exact run: the roundings add up to less than
    twice the allowance of one update. *)
Lemma ema_run_near (x f : f32) (n : nat) (B : Q) :
  ema_input x = true -> ema_state f = true ->
  (F32.to_Q x <= B)%Q -> (F32.to_Q f <= B)%Q ->
  (Qabs (F32.to_Q (ema_run n x f)
         - ema_exact_run n (F32.to_Q x) (F32.to_Q f))
   <= (1 # 2 ^ 23) * B + (1 # 2 ^ 149))%Q.
Proof.
  intros Hx Hf BX BF.
  destruct (ema_input_spec x Hx) as (Px & _).
  pose proof (to_Q_nonneg x Px) as X0.
  assert (B0 : (0 <= B)%Q) by (eapply Qle_trans; [ exact X0 | exact BX ]).
  change (1 # 2 ^ 149)%Q with (1 # 713623846352979940529142984724747568191373312)%Q.
  change (1 # 2 ^ 23)%Q with (1 # 8388608)%Q.
  induction n as [|n IH].
  - change (ema_run 0 x f) with f.
    change (ema_exact_run 0 (F32.to_Q x) (F32.to_Q f)) with (F32.to_Q f).
    assert (E : (F32.to_Q f - F32.to_Q f == 0)%Q) by ring.
    rewrite E. change (Qabs 0) with 0%Q. Lqa.lra.
  - rewrite ema_run_S.
    change (ema_exact_run (S n) (F32.to_Q x) (F32.to_Q f))
      with (ema_exact (F32.to_Q x) (ema_exact_run n (F32.to_Q x) (F32.to_Q f))).
    destruct (ema_run_range x f n Hx Hf) as (Sn & _).
    pose proof (ema_run_below x f n B Hx Hf BX BF) as Bn.
    pose proof (ema_step_near x (ema_run n x f) B Hx Sn BX Bn) as S.
    change (1 # 2 ^ 150)%Q with (1 # 1427247692705959881058285969449495136382746624)%Q in S.
    change (1 # 2 ^ 24)%Q with (1 # 16777216)%Q in S.
    revert S IH.
    generalize (F32.to_Q x), (F32.to_Q (ema x (ema_run n x f))),
      (F32.to_Q (ema_run n x f)),
      (ema_exact_run n (F32.to_Q x) (F32.to_Q f)).
    intros x' r' r e' S IH.
    assert (E : (r' - ema_exact x' e'
                 == (r' - ema_exact x' r) + (1 # 2) * (r - e'))%Q)
      by (unfold ema_exact, ALPHA_exact; ring).
    rewrite E.
    eapply Qle_trans; [ apply Qabs_triangle | ].
    rewrite Qabs_Qmult. change (Qabs (1 # 2)) with (1 # 2)%Q.
    revert S IH. generalize (Qabs (r' - ema_exact x' r)), (Qabs (r - e')).
    intros a b S IH. Lqa.lra.
Qed.

(** The error never grows. *)
Lemma ema_error_step (x f : f32) (n : nat) :
  ema_input x = true -> ema_state f = true ->
  (error_of x (ema_run (S n) x f) <= error_of x (ema_run n x f))%Q.
Proof.
  intros Hx Hf.
  destruct (ema_run_range x f n Hx Hf) as (Sn & Up & Down).
  destruct (ema_run_range x f (S n) Hx Hf) as (Sn' & _).
  destruct (ema_input_spec x Hx) as (Px & _).
  apply ema_state_spec in Sn. destruct Sn as (Pn & _).
  apply ema_state_spec in Sn'. destruct Sn' as (Pn' & _).
  pose proof (error_ticks x _ Px Pn) as En.
  pose proof (error_ticks x _ Px Pn') as En'.
  rewrite En, En'.
  apply Qmult_le_compat_r; [ | discriminate ].
  rewrite <- Zle_Qle.
  destruct (Z.le_ge_cases (ticks f) (ticks x)) as [C | C].
  - destruct (Up C) as (_ & A & A'). lia.
  - destruct (Down C) as (A & A' & _). lia.
Qed.

(** The error after [n] updates: the exact bound and the allowance for
    the roundings. *)
Lemma ema_run_error_bound (x f : f32) (n : nat) (B : Q) :
  ema_input x = true -> ema_state f = true ->
  (F32.to_Q x <= B)%Q -> (F32.to_Q f <= B)%Q ->
  (error_of x (ema_run n x f)
   <= (1 - ALPHA_exact) ^ Z.of_nat n * error_of x f
      + (1 # 2 ^ 23) * B + (1 # 2 ^ 149))%Q.
Proof.
  intros Hx Hf BX BF.
  destruct (ema_input_spec x Hx) as (Px & _).
  pose proof Hf as Hf'. apply ema_state_spec in Hf'. destruct Hf' as (Pf & _).
  pose proof (max_ticks_Q x f B Px Pf BX BF) as M.
  pose proof (ema_run_error_Q x f n Hx Hf) as E.
  assert (Half : (1 - ALPHA_exact == 1 # 2)%Q) by reflexivity.
  rewrite Half.
  eapply Qle_trans; [ exact E | ].
  revert M. generalize (inject_Z (Z.max (ticks x) (ticks f)) * (1 # 2 ^ 149))%Q.
  generalize ((1 # 2) ^ Z.of_nat n * error_of x f)%Q.
  intros t v M.
  change (1 # 2 ^ 149)%Q with (1 # 713623846352979940529142984724747568191373312)%Q.
  change (1 # 2 ^ 23)%Q with (1 # 8388608)%Q.
  Lqa.lra.
Qed.


(** ** Symbolic execution

    The arithmetic stays folded; the control flow and the record updates
    are computed; the events appended one by one are collected. *)

Local Opaque F32.add F32.sub F32.mul F32.div F32.of_Z F32.lit F32.leb F32.ltb
  F32.abs F32.to_Z_trunc dtostrf fmt_f fmt_u uint16 uint32 Z.quot
  bar_active_px ema newline String.append basename REDRAW_THRESHOLD.

Ltac open_machine m :=
  destruct m as [fV dV hv lhv name buf tm td ts th font fg bg cx cy
                 clk pin adc pos ser gw att ld tr].

(** Projections of updated machines. *)
Ltac fields :=
  cbn [
        filtered_V last_disp_V use_hv_mode last_hv_mode
        display_filename_str msg_buf t_meas t_disp t_ser t_hb u8_font
        u8_fg u8_bg u8_cx u8_cy clock mode_pin_high adc_in adc_pos
        serial_up glyph_width attenuation led trace set_filtered_V
        set_last_disp_V set_use_hv_mode set_last_hv_mode
        set_display_filename_str set_msg_buf set_t_meas set_t_disp
        set_t_ser set_t_hb set_u8_font set_u8_fg set_u8_bg set_u8_cx
        set_u8_cy set_clock set_mode_pin_high set_adc_in set_adc_pos
        set_serial_up set_glyph_width set_attenuation set_led
        set_trace drawn pen present ].

Ltac split_all := repeat match goal with |- _ /\ _ => split end.

(** Everything is computed, numbers included. *)
Ltac run_all := cbv -[Datatypes.app].

(** The drawing routines and the integer arithmetic stay folded. *)
Ltac run_sketch :=
  cbv -[Datatypes.app map Z.add Z.sub Z.mul Z.opp Z.leb Z.ltb Nat.add
        drawBarGraph updateMainUI drawStaticUI measureVoltage
        value_ops chrome_ops bar_ops readings].

Ltac collect_trace :=
  match goal with
  | |- _ = ?t ++ ?es => exact (snoc_trace es t)
  end.

(** ** The display *)

Lemma bar_loop_run (px color : Z) (m : Machine) :
  bar_loop (Z.to_nat (BAR_X_END - BAR_X_START)) BAR_X_START px color m
  = (tt, drawn (bar_ops px color) m).
Proof.
  open_machine m. run_all. do 2 f_equal. collect_trace.
Qed.

Lemma drawBarGraph_run (val : f32) (color : Z) (m : Machine) :
  drawBarGraph val color m
  = (tt, drawn (bar_ops (bar_active_px (use_hv_mode m) val) color) m).
Proof.
  unfold drawBarGraph, bind, gets. apply bar_loop_run.
Qed.

Lemma updateMainUI_run (v : f32) (m : Machine) :
  exists f c b x y,
    updateMainUI v m
    = (tt, drawn (value_ops (glyph_width m) (use_hv_mode m) v)
                 (pen f c b x y m)).
Proof.
  unfold updateMainUI.
  open_machine m. destruct hv; run_sketch; rewrite drawBarGraph_run;
    run_sketch; do 5 eexists; do 2 f_equal;
    rewrite <- !app_assoc; reflexivity.
Qed.

Lemma drawStaticUI_run (m : Machine) :
  exists f c b x y,
    drawStaticUI m
    = (tt, drawn (chrome_ops (glyph_width m) (display_filename_str m))
                 (pen f c b x y m)).
Proof.
  open_machine m. run_all. do 5 eexists. do 2 f_equal. collect_trace.
Qed.

(** Replaces the calls of the drawing routines by their effect. *)
Ltac step_draw :=
  repeat match goal with
  | |- context [drawStaticUI ?M] =>
      let E := fresh "E" in
      destruct (drawStaticUI_run M) as (? & ? & ? & ? & ? & E);
      rewrite E; clear E; run_sketch
  | |- context [updateMainUI ?v ?M] =>
      let E := fresh "E" in
      destruct (updateMainUI_run v M) as (? & ? & ? & ? & ? & E);
      rewrite E; clear E; run_sketch
  end.

Ltac trace_eq :=
  repeat rewrite map_app; cbn [map]; repeat rewrite <- app_assoc;
  cbn [Datatypes.app]; reflexivity.

Ltac by_cases_on_redraw fV dV :=
  run_sketch; step_draw;
  destruct (F32.leb REDRAW_THRESHOLD (F32.abs (F32.sub fV dV)));
  run_sketch; step_draw; split_all;
  lazymatch goal with
  | |- _ = _ ++ _ => trace_eq
  | |- _ => reflexivity
  end.

(** [dispVolts] when the pin selects another range than the one last
    configured: the whole effect. *)
Lemma dispVolts_range_changed (m : Machine) :
  pin_range m <> last_hv_mode m ->
  let m' := exec dispVolts m in
  let hv := pin_range m in
  let v := filtered_V m in
  let gw := glyph_width m in
  trace m'
  = trace m
    ++ [EvModeRead (mode_pin_high m); EvAtten (atten_of hv)]
    ++ map EvDraw
         (FillScreen COL_BLACK
          :: chrome_ops gw (display_filename_str m)
          ++ value_ops gw hv v
          ++ (if moved m then value_ops gw hv v else []))
  /\ use_hv_mode m' = hv
  /\ last_hv_mode m' = hv
  /\ attenuation m' = atten_of hv
  /\ filtered_V m' = v
  /\ last_disp_V m' = (if moved m then v else last_disp_V m)
  /\ same_board m m'.
Proof.
  intros H; open_machine m; unfold pin_range in H.
  cbn [mode_pin_high last_hv_mode] in H.
  destruct pin, lhv; cbn [negb] in H;
    try congruence; clear H; by_cases_on_redraw fV dV.
Qed.

(** [dispVolts] when the pin selects the range already configured. *)
Lemma dispVolts_range_kept (m : Machine) :
  pin_range m = last_hv_mode m ->
  let m' := exec dispVolts m in
  let hv := pin_range m in
  let v := filtered_V m in
  trace m'
  = trace m
    ++ EvModeRead (mode_pin_high m)
       :: (if moved m then map EvDraw (value_ops (glyph_width m) hv v) else [])
  /\ use_hv_mode m' = hv
  /\ last_hv_mode m' = hv
  /\ attenuation m' = attenuation m
  /\ filtered_V m' = v
  /\ last_disp_V m' = (if moved m then v else last_disp_V m)
  /\ same_board m m'.
Proof.
  intros H; open_machine m; unfold pin_range in H.
  cbn [mode_pin_high last_hv_mode] in H.
  destruct pin, lhv; cbn [negb] in H;
    try congruence; clear H; by_cases_on_redraw fV dV.
Qed.

(** ** The four activities of [loop] *)

Lemma exec_seq {A : Type} (c : M unit) (k : M A) (m : Machine) :
  exec (c ;; k) m = exec k (exec c m).
Proof. unfold exec, bind. destruct (c m). reflexivity. Qed.

Lemma exec_every (last : Machine -> Z) (interval : Z) (body : M unit)
    (m : Machine) :
  exec (every last interval body) m
  = if due last interval m then exec body m else m.
Proof.
  unfold every, due, ms_since, millis, bind, gets, when, ret, exec.
  destruct (interval <=? _); reflexivity.
Qed.

Lemma measureVoltage_run (m : Machine) :
  measureVoltage m
  = (convert (use_hv_mode m) (readings m),
     set_trace (trace m ++ map EvAnalogRead (readings m))
       (set_adc_pos (8 + adc_pos m) m)).
Proof.
  open_machine m.
  cbv -[Datatypes.app Z.add].
  rewrite accumulate_8 by apply uint16_range.
  do 2 f_equal. collect_trace.
Qed.

Lemma acquire_exec (m : Machine) :
  exec acquire m
  = set_filtered_V (ema (convert (use_hv_mode m) (readings m)) (filtered_V m))
      (set_trace (trace m ++ map EvAnalogRead (readings m))
         (set_adc_pos (8 + adc_pos m) (set_t_meas (uint32 (clock m)) m))).
Proof.
  unfold acquire, exec, bind, millis, gets, modify.
  rewrite measureVoltage_run. open_machine m. reflexivity.
Qed.

Lemma report_exec (m : Machine) :
  exec report m
  = let m1 := set_msg_buf (report_line m) (set_t_ser (uint32 (clock m)) m) in
    if serial_up m
    then set_trace (trace m ++ [EvSerial (report_line m)]) m1
    else m1.
Proof.
  open_machine m. destruct ser; reflexivity.
Qed.

Lemma render_exec (m : Machine) :
  exec render m = exec dispVolts (set_t_disp (uint32 (clock m)) m).
Proof. reflexivity. Qed.

(** The heartbeat touches its timer, the LED and nothing else. *)
Lemma heartbeat_exec (m : Machine) :
  exists t on evs,
    exec (every t_hb HB_PERIOD_MS heartbeat_on;; led_off) m
    = set_trace (trace m ++ evs) (set_led on (set_t_hb t m))
    /\ forallb (fun e => match e with EvLed _ => true | _ => false end) evs
       = true.
Proof.
  open_machine m. run_sketch.
  repeat match goal with
         | |- context [if ?b then _ else _] => destruct b; run_sketch
         end;
    do 3 eexists;
    (split;
     [ f_equal;
       first [ rewrite <- app_assoc; reflexivity
             | reflexivity
             | symmetry; apply app_nil_r ]
     | reflexivity ]).
Qed.

(** ** One pass through [loop] *)

Lemma loop_exec (m : Machine) :
  exec loop m
  = exec (every t_hb HB_PERIOD_MS heartbeat_on;; led_off) (after_render m).
Proof.
  unfold loop, after_render, after_report, after_acquire.
  rewrite !exec_seq, !exec_every. reflexivity.
Qed.

(** ** The range invariant *)

Lemma acquire_synced (m : Machine) :
  range_synced m -> range_synced (exec acquire m).
Proof. rewrite acquire_exec. unfold range_synced. fields. trivial. Qed.

Lemma report_synced (m : Machine) :
  range_synced m -> range_synced (exec report m).
Proof.
  rewrite report_exec. cbv zeta. unfold range_synced.
  destruct (serial_up m); fields; trivial.
Qed.

Lemma dispVolts_synced (m : Machine) :
  range_synced m -> range_synced (exec dispVolts m).
Proof.
  intros [Ha Hl]. unfold range_synced.
  destruct (Bool.bool_dec (pin_range m) (last_hv_mode m)) as [E | E].
  - destruct (dispVolts_range_kept m E) as (_ & Hu & Hl' & Ha' & _).
    rewrite Hu, Hl', Ha', Ha, E, Hl. split; reflexivity.
  - destruct (dispVolts_range_changed m E) as (_ & Hu & Hl' & Ha' & _).
    rewrite Hu, Hl', Ha'. split; reflexivity.
Qed.

Lemma render_synced (m : Machine) :
  range_synced m -> range_synced (exec render m).
Proof.
  intros H. rewrite render_exec. apply dispVolts_synced.
  unfold range_synced in *. fields. exact H.
Qed.

Lemma heartbeat_synced (m : Machine) :
  range_synced m ->
  range_synced (exec (every t_hb HB_PERIOD_MS heartbeat_on;; led_off) m).
Proof.
  destruct (heartbeat_exec m) as (t & on & evs & E & _).
  rewrite E. unfold range_synced. fields. trivial.
Qed.

Lemma present_synced (i : Inputs) (m : Machine) :
  range_synced m -> range_synced (present i m).
Proof. unfold range_synced. fields. trivial. Qed.

Lemma after_render_synced (m : Machine) :
  range_synced m -> range_synced (after_render m).
Proof.
  intros H.
  assert (H1 : range_synced (after_acquire m)).
  { unfold after_acquire. destruct (due _ _ _); auto using acquire_synced. }
  assert (H2 : range_synced (after_report m)).
  { unfold after_report. cbv zeta.
    destruct (due _ _ _); auto using report_synced. }
  unfold after_render. cbv zeta.
  destruct (due _ _ _); auto using render_synced.
Qed.

Lemma pass_synced (i : Inputs) (m : Machine) :
  range_synced m -> range_synced (pass i m).
Proof.
  intros H. unfold pass. rewrite loop_exec.
  apply heartbeat_synced, after_render_synced, present_synced, H.
Qed.

Lemma run_synced (ins : list Inputs) (m : Machine) :
  range_synced m -> range_synced (run ins m).
Proof.
  revert m. induction ins as [|i ins IH]; intros m H; simpl.
  - exact H.
  - apply IH, pass_synced, H.
Qed.

Lemma setup_synced (path : string) (adc : nat -> Z)
    (gw : Font -> string -> Z) (att : adc_attenuation_t) :
  range_synced (exec (setup path) (power_on adc gw att)).
Proof.
  unfold range_synced. run_all. split; reflexivity.
Qed.

(** ** Counting events *)

Lemma count_app (p : Event -> bool) (a b : list Event) :
  count p (a ++ b) = (count p a + count p b)%nat.
Proof. unfold count. rewrite filter_app, length_app. reflexivity. Qed.

Lemma count_draw (p : Event -> bool) (ops : list DrawOp) :
  (forall d, p (EvDraw d) = false) -> count p (map EvDraw ops) = 0%nat.
Proof.
  intros H. unfold count. induction ops as [|d ops IH]; simpl.
  - reflexivity.
  - rewrite H. exact IH.
Qed.

Lemma count_led (p : Event -> bool) (evs : list Event) :
  (forall on, p (EvLed on) = false) ->
  forallb (fun e => match e with EvLed _ => true | _ => false end) evs = true ->
  count p evs = 0%nat.
Proof.
  intros H. unfold count. induction evs as [|e evs IH]; simpl; intros F.
  - reflexivity.
  - destruct e; try discriminate. rewrite H. apply IH. exact F.
Qed.

Lemma count_reads (codes : list Z) :
  count is_analog_read (map EvAnalogRead codes) = List.length codes.
Proof.
  unfold count. induction codes as [|c l IH]; simpl; congruence.
Qed.

Lemma count_no_reads (p : Event -> bool) (codes : list Z) :
  (forall c, p (EvAnalogRead c) = false) ->
  count p (map EvAnalogRead codes) = 0%nat.
Proof.
  intros H. unfold count. induction codes as [|c l IH]; simpl.
  - reflexivity.
  - rewrite H. exact IH.
Qed.

Lemma readings_length (m : Machine) : List.length (readings m) = 8%nat.
Proof. reflexivity. Qed.

(** ** The scheduler *)

Lemma due_fire (last : Machine -> Z) (interval : Z) (m : Machine) :
  due last interval m = fire (clock m) (last m) interval.
Proof. reflexivity. Qed.

Lemma acquire_view (m : Machine) :
  sched_view (exec acquire m)
  = mkView (uint32 (clock m)) (t_ser m) (t_disp m)
           (count is_analog_read (trace m) + 8)
           (count is_serial (trace m)) (count is_mode_read (trace m))
  /\ clock (exec acquire m) = clock m
  /\ serial_up (exec acquire m) = serial_up m.
Proof.
  rewrite acquire_exec. unfold sched_view. fields.
  rewrite !count_app, count_reads, !count_no_reads by reflexivity.
  rewrite readings_length, !Nat.add_0_r. split_all; reflexivity.
Qed.

Lemma report_view (m : Machine) :
  serial_up m = true ->
  sched_view (exec report m)
  = mkView (t_meas m) (uint32 (clock m)) (t_disp m)
           (count is_analog_read (trace m))
           (count is_serial (trace m) + 1) (count is_mode_read (trace m))
  /\ clock (exec report m) = clock m
  /\ serial_up (exec report m) = serial_up m.
Proof.
  intros Hs. rewrite report_exec. cbv zeta.
  destruct (serial_up m) eqn:E; [clear Hs | discriminate].
  unfold sched_view. fields. rewrite !count_app.
  unfold count at 2 4 6. cbn [filter is_analog_read is_serial is_mode_read List.length].
  rewrite !Nat.add_0_r. split_all; solve [reflexivity | congruence].
Qed.

Lemma dispVolts_view (m : Machine) :
  sched_view (exec dispVolts m)
  = mkView (t_meas m) (t_ser m) (t_disp m)
           (count is_analog_read (trace m)) (count is_serial (trace m))
           (count is_mode_read (trace m) + 1)
  /\ clock (exec dispVolts m) = clock m
  /\ serial_up (exec dispVolts m) = serial_up m.
Proof.
  unfold sched_view.
  destruct (Bool.bool_dec (pin_range m) (last_hv_mode m)) as [E | E];
    [ destruct (dispVolts_range_kept m E) as (Ht & _ & _ & _ & _ & _ & B)
    | destruct (dispVolts_range_changed m E) as (Ht & _ & _ & _ & _ & _ & B) ];
    destruct B as (B1 & B2 & B3 & _ & B5 & _ & B7 & _);
    rewrite Ht, B1, B2, B3, B5, B7; clear Ht;
    destruct (moved m);
    change (?a :: ?l) with ([a] ++ l);
    rewrite ?count_app, ?count_draw by reflexivity;
    unfold count; cbn [filter is_analog_read is_serial is_mode_read List.length];
    rewrite ?Nat.add_0_r; split_all; reflexivity.
Qed.

Lemma render_view (m : Machine) :
  sched_view (exec render m)
  = mkView (t_meas m) (t_ser m) (uint32 (clock m))
           (count is_analog_read (trace m)) (count is_serial (trace m))
           (count is_mode_read (trace m) + 1)
  /\ clock (exec render m) = clock m
  /\ serial_up (exec render m) = serial_up m.
Proof.
  rewrite render_exec.
  destruct (dispVolts_view (set_t_disp (uint32 (clock m)) m)) as (V & C & S).
  rewrite V, C, S. fields. split_all; reflexivity.
Qed.

Lemma heartbeat_view (m : Machine) :
  sched_view (exec (every t_hb HB_PERIOD_MS heartbeat_on;; led_off) m)
  = sched_view m.
Proof.
  destruct (heartbeat_exec m) as (t & on & evs & E & L).
  rewrite E. unfold sched_view. fields.
  rewrite !count_app, !(count_led _ evs) by (reflexivity || exact L).
  rewrite !Nat.add_0_r. reflexivity.
Qed.

Lemma view_meas (m : Machine) : v_meas (sched_view m) = t_meas m.
Proof. reflexivity. Qed.

Lemma view_ser (m : Machine) : v_ser (sched_view m) = t_ser m.
Proof. reflexivity. Qed.

Lemma view_disp (m : Machine) : v_disp (sched_view m) = t_disp m.
Proof. reflexivity. Qed.

Lemma after_acquire_view (m : Machine) :
  sched_view (after_acquire m) = step_acquire (clock m) (sched_view m)
  /\ clock (after_acquire m) = clock m
  /\ serial_up (after_acquire m) = serial_up m.
Proof.
  unfold after_acquire, step_acquire.
  rewrite due_fire, view_meas.
  destruct (fire _ _ _); [apply acquire_view | split_all; reflexivity].
Qed.

Lemma after_report_view (m : Machine) :
  serial_up m = true ->
  sched_view (after_report m)
  = step_report (clock m) (step_acquire (clock m) (sched_view m))
  /\ clock (after_report m) = clock m
  /\ serial_up (after_report m) = serial_up m.
Proof.
  intros Hs. destruct (after_acquire_view m) as (V & C & S).
  unfold after_report, step_report. cbv zeta.
  rewrite <- V, due_fire, view_ser, C.
  destruct (fire _ _ _).
  - destruct (report_view (after_acquire m)) as (V' & C' & S');
      [congruence | ].
    rewrite V', C', S', C, S. split_all; reflexivity.
  - split_all; assumption || reflexivity.
Qed.

Lemma after_render_view (m : Machine) :
  serial_up m = true ->
  sched_view (after_render m) = sched_step (clock m) (sched_view m).
Proof.
  intros Hs. destruct (after_report_view m Hs) as (V & C & S).
  unfold after_render, sched_step, step_render. cbv zeta.
  rewrite <- V, due_fire, view_disp, C.
  destruct (fire _ _ _).
  - destruct (render_view (after_report m)) as (V' & C' & _).
    rewrite V', C. reflexivity.
  - reflexivity.
Qed.

Lemma present_view (i : Inputs) (m : Machine) :
  sched_view (present i m) = sched_view m
  /\ clock (present i m) = in_clock i
  /\ serial_up (present i m) = in_serial_up i.
Proof. split_all; reflexivity. Qed.

Lemma pass_view (i : Inputs) (m : Machine) :
  in_serial_up i = true ->
  sched_view (pass i m) = sched_step (in_clock i) (sched_view m).
Proof.
  intros Hs. unfold pass. rewrite loop_exec, heartbeat_view.
  destruct (present_view i m) as (V & C & S).
  rewrite after_render_view by congruence.
  rewrite V, C. reflexivity.
Qed.

Lemma run_view (ins : list Inputs) (m : Machine) :
  forallb in_serial_up ins = true ->
  sched_view (run ins m) = sched_run (map in_clock ins) (sched_view m).
Proof.
  revert m. induction ins as [|i ins IH]; intros m H; simpl in *.
  - reflexivity.
  - apply andb_prop in H. destruct H as [Hi H].
    unfold run in IH. rewrite IH by exact H.
    rewrite pass_view by exact Hi. reflexivity.
Qed.

Lemma sched_step_shift (a b c : nat) (now : Z) (s : SchedView) :
  sched_step now (shift_counts a b c s) = shift_counts a b c (sched_step now s).
Proof.
  destruct s as [tm ts td na nl ne].
  unfold sched_step, step_render, step_report, step_acquire, shift_counts.
  cbn [v_meas v_ser v_disp n_reads n_lines n_evals].
  destruct (fire now tm _); cbn [v_meas v_ser v_disp n_reads n_lines n_evals];
    destruct (fire now ts _); cbn [v_meas v_ser v_disp n_reads n_lines n_evals];
    destruct (fire now td _); cbn [v_meas v_ser v_disp n_reads n_lines n_evals];
    rewrite ?Nat.add_assoc; reflexivity.
Qed.

Lemma sched_run_shift (a b c : nat) (clocks : list Z) (s : SchedView) :
  sched_run clocks (shift_counts a b c s)
  = shift_counts a b c (sched_run clocks s).
Proof.
  revert s. induction clocks as [|now clocks IH]; intros s; simpl.
  - reflexivity.
  - rewrite sched_step_shift. apply IH.
Qed.

(** ** What a pass adds to the trace, in order *)

Lemma report_effect (m : Machine) :
  exists evs,
    trace (exec report m) = trace m ++ evs
    /\ count is_analog_read evs = 0%nat
    /\ count is_mode_read evs = 0%nat
    /\ filtered_V (exec report m) = filtered_V m
    /\ t_disp (exec report m) = t_disp m
    /\ clock (exec report m) = clock m.
Proof.
  rewrite report_exec. cbv zeta. destruct (serial_up m); fields.
  - exists [EvSerial (report_line m)]. split_all; reflexivity.
  - exists []. rewrite app_nil_r. split_all; reflexivity.
Qed.

Lemma dispVolts_effect (m : Machine) :
  exists evs,
    trace (exec dispVolts m) = trace m ++ evs
    /\ count is_analog_read evs = 0%nat
    /\ count is_mode_read evs = 1%nat
    /\ filtered_V (exec dispVolts m) = filtered_V m.
Proof.
  destruct (Bool.bool_dec (pin_range m) (last_hv_mode m)) as [E | E];
    [ destruct (dispVolts_range_kept m E) as (Ht & _ & _ & _ & Hf & _)
    | destruct (dispVolts_range_changed m E) as (Ht & _ & _ & _ & Hf & _) ];
    eexists; (split; [exact Ht | ]);
    destruct (moved m);
    change (?a :: ?l) with ([a] ++ l);
    rewrite ?count_app, ?count_draw by reflexivity;
    split_all; solve [reflexivity | exact Hf].
Qed.

Lemma render_effect (m : Machine) :
  exists evs,
    trace (exec render m) = trace m ++ evs
    /\ count is_analog_read evs = 0%nat
    /\ count is_mode_read evs = 1%nat
    /\ filtered_V (exec render m) = filtered_V m.
Proof.
  rewrite render_exec.
  destruct (dispVolts_effect (set_t_disp (uint32 (clock m)) m))
    as (evs & Ht & Ha & Hm & Hf).
  exists evs. rewrite Ht, Hf. fields. split_all; trivial.
Qed.

Lemma heartbeat_effect (m : Machine) :
  exists evs,
    trace (exec (every t_hb HB_PERIOD_MS heartbeat_on;; led_off) m)
    = trace m ++ evs
    /\ count is_analog_read evs = 0%nat
    /\ count is_mode_read evs = 0%nat
    /\ filtered_V (exec (every t_hb HB_PERIOD_MS heartbeat_on;; led_off) m)
       = filtered_V m.
Proof.
  destruct (heartbeat_exec m) as (t & on & evs & E & L).
  exists evs. rewrite E. fields.
  rewrite !(count_led _ evs) by (reflexivity || exact L).
  split_all; reflexivity.
Qed.

(** A pass in which the acquisition is due: the eight conversions come
    first, with the range and attenuation the pass started with; the mode
    pin is read afterwards, and only if the rendering is due. *)
Lemma loop_acquire_first (m : Machine) :
  due t_meas MEAS_INTERVAL_MS m = true ->
  exists rest,
    trace (exec loop m) = trace m ++ map EvAnalogRead (readings m) ++ rest
    /\ count is_analog_read rest = 0%nat
    /\ count is_mode_read rest
       = (if due t_disp DISP_INTERVAL_MS m then 1 else 0)%nat
    /\ filtered_V (exec loop m)
       = ema (convert (use_hv_mode m) (readings m)) (filtered_V m).
Proof.
  intros Hdue. rewrite loop_exec.
  destruct (heartbeat_effect (after_render m)) as (hb & Ht4 & Ha4 & Hm4 & Hf4).
  rewrite Ht4, Hf4. clear Ht4 Hf4.
  (* acquisition *)
  assert (A : trace (after_acquire m)
              = trace m ++ map EvAnalogRead (readings m)
              /\ filtered_V (after_acquire m)
                 = ema (convert (use_hv_mode m) (readings m)) (filtered_V m)
              /\ t_disp (after_acquire m) = t_disp m
              /\ clock (after_acquire m) = clock m).
  { unfold after_acquire. rewrite Hdue, acquire_exec. fields.
    split_all; reflexivity. }
  destruct A as (Ht1 & Hf1 & Hd1 & Hc1).
  (* report *)
  assert (R : exists evs,
              trace (after_report m) = trace (after_acquire m) ++ evs
              /\ count is_analog_read evs = 0%nat
              /\ count is_mode_read evs = 0%nat
              /\ filtered_V (after_report m) = filtered_V (after_acquire m)
              /\ t_disp (after_report m) = t_disp (after_acquire m)
              /\ clock (after_report m) = clock (after_acquire m)).
  { unfold after_report. cbv zeta. destruct (due _ _ (after_acquire m)).
    - apply report_effect.
    - exists []. rewrite app_nil_r. split_all; reflexivity. }
  destruct R as (rp & Ht2 & Ha2 & Hm2 & Hf2 & Hd2 & Hc2).
  (* render *)
  assert (D : due t_disp DISP_INTERVAL_MS (after_report m)
              = due t_disp DISP_INTERVAL_MS m).
  { rewrite !due_fire. rewrite Hd2, Hc2, Hd1, Hc1. reflexivity. }
  assert (N : exists evs,
              trace (after_render m) = trace (after_report m) ++ evs
              /\ count is_analog_read evs = 0%nat
              /\ count is_mode_read evs
                 = (if due t_disp DISP_INTERVAL_MS m then 1 else 0)%nat
              /\ filtered_V (after_render m) = filtered_V (after_report m)).
  { unfold after_render. cbv zeta. rewrite D.
    destruct (due t_disp DISP_INTERVAL_MS m).
    - apply render_effect.
    - exists []. rewrite app_nil_r. split_all; reflexivity. }
  destruct N as (rd & Ht3 & Ha3 & Hm3 & Hf3).
  exists (rp ++ rd ++ hb). split_all.
  - rewrite Ht3, Ht2, Ht1, <- !app_assoc. reflexivity.
  - rewrite !count_app, Ha2, Ha3, Ha4. reflexivity.
  - rewrite !count_app, Hm2, Hm3, Hm4, Nat.add_0_r. reflexivity.
  - rewrite Hf3, Hf2, Hf1. reflexivity.
Qed.

(** A range evaluation in a synchronised machine: the range of the pin is
    exposed with its attenuation; the attenuation is switched right after
    the pin is read, before anything is drawn, and only when the range
    changes. *)
Lemma evaluation_in_step (m : Machine) (pin_high : bool) :
  range_synced m ->
  let m' := exec dispVolts (set_mode_pin_high pin_high m) in
  use_hv_mode m' = negb pin_high
  /\ attenuation m' = atten_of (negb pin_high)
  /\ exists ops,
       emitted dispVolts (set_mode_pin_high pin_high m)
       = EvModeRead pin_high
         :: (if Bool.eqb (negb pin_high) (use_hv_mode m) then []
             else [EvAtten (atten_of (negb pin_high))])
         ++ map EvDraw ops.
Proof.
  intros [Ha Hl] m'.
  assert (S : range_synced (set_mode_pin_high pin_high m)) by (split; assumption).
  pose proof (dispVolts_synced _ S) as [Ha' _]. fold m' in Ha'.
  destruct (Bool.bool_dec (pin_range (set_mode_pin_high pin_high m))
                          (last_hv_mode (set_mode_pin_high pin_high m)))
    as [E | E].
  - destruct (dispVolts_range_kept _ E) as (Ht & Hu & _). fold m' in Hu.
    unfold pin_range in *. revert E Ht Hu. fields. intros E Ht Hu.
    rewrite Ha', Hu. split_all; try reflexivity.
    assert (F : Bool.eqb (negb pin_high) (use_hv_mode m) = true)
      by (rewrite E, Hl; apply Bool.eqb_reflx).
    rewrite F.
    exists (if moved (set_mode_pin_high pin_high m)
            then value_ops (glyph_width m) (negb pin_high) (filtered_V m)
            else []).
    apply emitted_app. fields. rewrite Ht.
    destruct (moved _); reflexivity.
  - destruct (dispVolts_range_changed _ E) as (Ht & Hu & _). fold m' in Hu.
    unfold pin_range in *. revert E Ht Hu. fields. intros E Ht Hu.
    rewrite Ha', Hu. split_all; try reflexivity.
    assert (F : Bool.eqb (negb pin_high) (use_hv_mode m) = false).
    { rewrite <- Hl. apply Bool.eqb_false_iff. exact E. }
    rewrite F. eexists. apply emitted_app. fields. rewrite Ht. reflexivity.
Qed.

(** * The sentences of the specification *)
(** C1.  On a range change [dispVolts] takes the full-redraw path whatever
    the value: it switches the attenuation, clears the screen, redraws the
    static chrome and draws the value region for the filtered value, and
    the last range becomes the new range.  But the value last drawn does
    not become the value just drawn: the range-change branch does not
    record what it draws, as the branch of the redraw test does.

    First part: a unit in direct range showing 2.000 V whose filtered value
    has crept to 2.0005 V, when the mode pin is pulled low.  2.0005 V is
    drawn in the new range (20.00) and the value last drawn stays 2.000 V.
    When the filtered value then moves to 1.9992 V, 0.0013 V from what the
    screen shows, the redraw test compares it with the stale 2.000 V and
    nothing is drawn: the screen keeps 20.00 where 19.99 is due.  Had the
    value drawn been recorded, the same value would redraw the value
    region.

    Second part: the same from power-on, with a converter that delivers
    the code 36 for ever.  The first pass, at 250 ms, draws 0.0009 V after
    one acquisition; fourteen passes later the filter stands at 0.0018 V.
    The pass at 505 ms finds the mode pin low: the full redraw draws
    0.0018 V (0.02 in the kV range) and the value last drawn stays
    0.0009 V.  In the kV range the same code is 0.0006 V (0.01), where the
    filter stands at 760 ms, 0.0012 V from what the screen shows: that
    pass evaluates the range and draws nothing. *)
Theorem range_change_forgets_drawn_value :
  (let m := showing false (F32.lit 20005 10000) (F32.of_Z 2) false in
   let m1 := exec dispVolts m in
   let m2 := set_filtered_V (F32.lit 19992 10000) m1 in
   let s := set_last_disp_V (filtered_V m) m2 in
   pin_range m <> last_hv_mode m
   /\ emitted dispVolts m
      = [EvModeRead false; EvAtten ADC_0db]
        ++ map EvDraw
             (FillScreen COL_BLACK
              :: chrome_ops (glyph_width m) (display_filename_str m)
              ++ value_ops (glyph_width m) true (filtered_V m))
   /\ last_hv_mode m1 = pin_range m
   /\ last_disp_V m1 = last_disp_V m
   /\ last_disp_V m1 <> filtered_V m
   /\ pin_range m2 = last_hv_mode m2
   /\ F32.leb REDRAW_THRESHOLD
        (F32.abs (F32.sub (filtered_V m2) (filtered_V m))) = true
   /\ number_text true (filtered_V m) = "20.00"%string
   /\ number_text true (filtered_V m2) = "19.99"%string
   /\ emitted dispVolts m2 = [EvModeRead false]
   /\ last_disp_V (exec dispVolts m2) = last_disp_V m
   /\ emitted dispVolts s
      = EvModeRead false
        :: map EvDraw (value_ops (glyph_width s) true (filtered_V s))
   /\ last_disp_V (exec dispVolts s) = filtered_V s)
  /\ (let a := run (passes_17ms 250 15 true) (bench 36) in
      let i := mkInputs 505 false true in
      let b := pass i a in
      let c := run (passes_17ms 522 14 false) b in
      let j := mkInputs 760 false true in
      let d := pass j c in
      t_disp a = 250
      /\ last_hv_mode a = false
      /\ fmt_f 0 4 (last_disp_V a) = "0.0009"%string
      /\ filter is_display (emitted loop (present i a))
         = [EvModeRead false; EvAtten ADC_0db]
           ++ map EvDraw
                (FillScreen COL_BLACK
                 :: chrome_ops (glyph_width a) (display_filename_str a)
                 ++ value_ops (glyph_width a) true (filtered_V b))
      /\ t_disp b = 505
      /\ last_hv_mode b = true
      /\ fmt_f 0 4 (filtered_V b) = "0.0018"%string
      /\ number_text true (filtered_V b) = " 0.02"%string
      /\ last_disp_V b = last_disp_V a
      /\ last_disp_V b <> filtered_V b
      /\ t_disp c = 505
      /\ t_disp d = 760
      /\ last_hv_mode d = pin_range (present j c)
      /\ fmt_f 0 4 (filtered_V d) = "0.0006"%string
      /\ number_text true (filtered_V d) = " 0.01"%string
      /\ F32.leb REDRAW_THRESHOLD
           (F32.abs (F32.sub (filtered_V d) (filtered_V b))) = true
      /\ filter is_display (emitted loop (present j c)) = [EvModeRead false]
      /\ count is_draw (trace d) = count is_draw (trace b)).
Proof.
  vm_compute. split_all; try reflexivity; discriminate.
Qed.
(** C2 (amended).  When the pin selects the range already configured, the
    redraw test compares the filtered value with the value last drawn, both
    as pin-referred voltages: at 0.001 V or more [dispVolts] draws the value
    region only and records the filtered value as last drawn; below it
    draws nothing and the render state is unchanged. *)
Theorem same_range_threshold (m : Machine) :
  pin_range m = last_hv_mode m ->
  let m' := exec dispVolts m in
  (moved m = true ->
     emitted dispVolts m
     = EvModeRead (mode_pin_high m)
       :: map EvDraw (value_ops (glyph_width m) (pin_range m) (filtered_V m))
     /\ last_disp_V m' = filtered_V m
     /\ last_hv_mode m' = last_hv_mode m)
  /\ (moved m = false ->
     emitted dispVolts m = [EvModeRead (mode_pin_high m)]
     /\ last_disp_V m' = last_disp_V m
     /\ last_hv_mode m' = last_hv_mode m).
Proof.
  intros H m'.
  destruct (dispVolts_range_kept m H) as (Ht & _ & Hl & _ & _ & Hd & _).
  fold m' in Ht, Hl, Hd.
  split; intros Hm; rewrite Hm in Ht, Hd; split_all;
    solve [ apply emitted_app; exact Ht | exact Hd | congruence ].
Qed.

(** The two cases of the specification: 2.000 V on the display, then
    2.0015 V (redrawn) and 2.0005 V (left alone), in direct range. *)
Lemma same_range_threshold_witness :
  last_disp_V
    (exec dispVolts (showing false (F32.lit 20015 10000) (F32.of_Z 2) true))
  = F32.lit 20015 10000
  /\ emitted dispVolts
       (showing false (F32.lit 20005 10000) (F32.of_Z 2) true)
     = [EvModeRead true].
Proof.
  split.
  - refine (proj1 (proj2 (proj1 (same_range_threshold
              (showing false (F32.lit 20015 10000) (F32.of_Z 2) true) _) _)));
      vm_compute; reflexivity.
  - refine (proj1 (proj2 (same_range_threshold
              (showing false (F32.lit 20005 10000) (F32.of_Z 2) true) _) _));
      vm_compute; reflexivity.
Defined.

(** C2 as stated fails for a threshold in display units: in kV range the
    display shows ten times the pin voltage, so 0.0500 V and 0.0502 V are
    0.500 kV and 0.502 kV, 0.002 apart on the display, and nothing is
    drawn. *)
Lemma threshold_not_in_display_units :
  let m := showing true (F32.lit 502 10000) (F32.lit 5 100) false in
  pin_range m = last_hv_mode m
  /\ F32.leb REDRAW_THRESHOLD (display_delta m) = true
  /\ emitted dispVolts m = [EvModeRead false]
  /\ last_disp_V (exec dispVolts m) <> filtered_V m.
Proof.
  vm_compute. split_all; try reflexivity. discriminate.
Qed.

Lemma ema_exact_error (x f : Q) :
  (ema_exact x f - x == (1 # 2) * (f - x))%Q.
Proof. unfold ema_exact, ALPHA_exact. ring. Qed.

Lemma ema_exact_run_error (n : nat) (x f : Q) :
  (ema_exact_run n x f - x == (1 # 2) ^ Z.of_nat n * (f - x))%Q.
Proof.
  induction n as [|n IH].
  - simpl. ring.
  - change (ema_exact_run (S n) x f) with (ema_exact x (ema_exact_run n x f)).
    rewrite ema_exact_error, IH, Nat2Z.inj_succ.
    unfold Z.succ. rewrite Qpower_plus by discriminate.
    rewrite Qpower_1_r. ring.
Qed.

(** Constant input 1.0 from 0: the first 25 updates, one by one. *)
Lemma unit_step_first_updates :
  forallb
    (fun n =>
       Qle_bool (error_of (F32.of_Z 1) (ema_run n (F32.of_Z 1) (F32.of_Z 0)))
                ((1 # 2) ^ Z.of_nat n))
    (seq 0 26)
  = true.
Proof. vm_compute. reflexivity. Qed.

Lemma unit_step_settled (n : nat) :
  ema_run (25 + n) (F32.of_Z 1) (F32.of_Z 0) = F32.of_Z 1.
Proof.
  induction n as [|n IH].
  - vm_compute. reflexivity.
  - replace (25 + S n)%nat with (S (25 + n)) by lia.
    change (ema_run (S (25 + n)) (F32.of_Z 1) (F32.of_Z 0))
      with (ema (F32.of_Z 1) (ema_run (25 + n) (F32.of_Z 1) (F32.of_Z 0))).
    rewrite IH. vm_compute. reflexivity.
Qed.

(** Every sample of [measureVoltage] is a proper input of the filter. *)
Lemma sample_is_input (m : Machine) :
  ema_input (eval measureVoltage m) = true.
Proof.
  unfold eval. rewrite measureVoltage_run. cbn [fst].
  apply convert_is_input.
  apply (sum_codes_range (readings m)). unfold readings.
  apply Forall_forall. intros c Hc. apply in_map_iff in Hc.
  destruct Hc as (k & <- & _). apply uint16_range.
Qed.

(** What an acquisition leaves alone, and what it does to the filter. *)
Lemma acquire_filter (m : Machine) :
  adc_in (exec acquire m) = adc_in m
  /\ use_hv_mode (exec acquire m) = use_hv_mode m
  /\ filtered_V (exec acquire m)
     = ema (eval measureVoltage m) (filtered_V m).
Proof.
  rewrite acquire_exec. unfold eval. rewrite measureVoltage_run.
  open_machine m. split_all; reflexivity.
Qed.

Lemma same_sample (c : Z) (m m' : Machine) :
  steady c m -> adc_in m' = adc_in m -> use_hv_mode m' = use_hv_mode m ->
  eval measureVoltage m' = eval measureVoltage m.
Proof.
  intros St A U. unfold eval. rewrite !measureVoltage_run. cbn [fst].
  rewrite U. f_equal. unfold readings. apply map_ext. intros k.
  rewrite A, !St. reflexivity.
Qed.

(** With a steady converter the filter runs on a constant input. *)
Lemma acquired_steady (c : Z) (m : Machine) (n : nat) :
  steady c m ->
  adc_in (acquired n m) = adc_in m
  /\ use_hv_mode (acquired n m) = use_hv_mode m
  /\ filtered_V (acquired n m)
     = ema_run n (eval measureVoltage m) (filtered_V m).
Proof.
  intros St. induction n as [|n (A & U & F)].
  - split_all; reflexivity.
  - change (acquired (S n) m) with (exec acquire (acquired n m)).
    destruct (acquire_filter (acquired n m)) as (A' & U' & F').
    rewrite A', U', F', A, U, F, (same_sample c m _ St A U).
    split_all; reflexivity.
Qed.



(** Below the normal range the half of an odd multiple of [2^-149] is
    rounded, and the filter steps past such an input: no sample of
    [measureVoltage] is one. *)
Lemma ema_passes_odd_subnormal :
  let x := S754_finite false 3 (-149) in
  plain x = true /\ ema_input x = false
  /\ ticks x = 3 /\ ticks (ema x x) = 4.
Proof. vm_compute. split_all; reflexivity. Qed.

(** C4.  Whatever the range and whatever the converter delivers,
    [measureVoltage] returns the mean of the next eight codes, divided by
    the maximum code 65535 and multiplied by the reference of the range in
    use (the binary32 numbers nearest to 3.3 in direct range and to 1.1 in
    kV range).  The mean is exact: the 32-bit accumulator does not wrap and
    neither its conversion to binary32 nor the division by eight rounds. *)
Theorem measure_is_scaled_mean (m : Machine) :
  let codes := readings m in
  let mean := F32.div (F32.of_Z (sum_codes codes)) (F32.of_Z 8) in
  eval measureVoltage m
  = F32.mul (F32.div mean (F32.of_Z 65535))
            (if use_hv_mode m then F32.lit 11 10 else F32.lit 33 10)
  /\ codes = map (fun k => uint16 (adc_in m (k + adc_pos m)%nat)) (seq 0 8)
  /\ F32.is_finite mean = true
  /\ (F32.to_Q mean == sum_codes codes # 8)%Q
  /\ (F32.to_Q (F32.of_Z 65535) == 65535 # 1)%Q
  /\ (Qabs (F32.to_Q (F32.lit 33 10) - (33 # 10)) <= 1 # 2 ^ 23)%Q
  /\ (Qabs (F32.to_Q (F32.lit 11 10) - (11 # 10)) <= 1 # 2 ^ 24)%Q.
Proof.
  intros codes mean.
  assert (R : 0 <= sum_codes codes <= 8 * 65535).
  { apply (sum_codes_range codes). unfold codes, readings.
    apply Forall_forall. intros c Hc. apply in_map_iff in Hc.
    destruct Hc as (k & <- & _). apply uint16_range. }
  destruct (mean_exact (sum_codes codes) R) as [Hfin Hval].
  split_all.
  - unfold eval. rewrite measureVoltage_run. reflexivity.
  - reflexivity.
  - exact Hfin.
  - exact Hval.
  - vm_compute. reflexivity.
  - apply Qle_bool_imp_le. vm_compute. reflexivity.
  - apply Qle_bool_imp_le. vm_compute. reflexivity.
Qed.

(** C5.  With a clock that reads 1, 2, ..., 1000 in a thousand successive
    passes through [loop] (with or without a first pass at 0) and all timers
    at 0 to begin with, the acquire
    activity runs 58 times (8 conversions each), the report activity 9 times
    (one line each) and the render activity 4 times (one reading of the mode
    pin each) - whatever the converter delivers, whatever the mode pin does
    and whatever the activities compute and draw. *)
Theorem cadence_over_1000_ms (m : Machine) (ins : list Inputs) :
  t_meas m = 0 -> t_ser m = 0 -> t_disp m = 0 ->
  map in_clock ins = ms_ticks 1000
  \/ map in_clock ins = 0 :: ms_ticks 1000 ->
  forallb in_serial_up ins = true ->
  let m' := run ins m in
  count is_analog_read (trace m')
  = (count is_analog_read (trace m) + 8 * 58)%nat
  /\ count is_serial (trace m') = (count is_serial (trace m) + 9)%nat
  /\ count is_mode_read (trace m') = (count is_mode_read (trace m) + 4)%nat.
Proof.
  intros Hm Hs Hd Hc Hup m'.
  pose proof (run_view ins m Hup) as V. fold m' in V.
  assert (R : sched_run (map in_clock ins) (mkView 0 0 0 0 0 0)
              = mkView 986 909 1000 (8 * 58) 9 4)
    by (destruct Hc as [-> | ->]; vm_compute; reflexivity).
  assert (E0 : sched_view m
               = shift_counts (count is_analog_read (trace m))
                              (count is_serial (trace m))
                              (count is_mode_read (trace m))
                              (mkView 0 0 0 0 0 0)).
  { unfold sched_view, shift_counts.
    cbn [v_meas v_ser v_disp n_reads n_lines n_evals].
    rewrite Hm, Hs, Hd, !Nat.add_0_r. reflexivity. }
  rewrite E0, sched_run_shift in V. clear E0.
  rewrite R in V. clear R.
  split_all;
    [ apply (f_equal n_reads) in V
    | apply (f_equal n_lines) in V
    | apply (f_equal n_evals) in V ];
    exact V.
Qed.

(** The bench after start-up, run for a thousand passes one millisecond
    apart. *)
Lemma cadence_over_1000_ms_witness :
  count is_analog_read (trace (run (ms_inputs 1000) (bench 0)))
  = (count is_analog_read (trace (bench 0)) + 8 * 58)%nat.
Proof.
  refine (proj1 (cadence_over_1000_ms (bench 0) (ms_inputs 1000) _ _ _
                  (or_introl _) _));
    vm_compute; reflexivity.
Defined.

(** C6 (amended).  Every line emitted by the report activity is, byte for
    byte: the count of milliseconds since start as an unsigned decimal
    integer, right-aligned in a field of seven characters (padded on the
    left with spaces when it has fewer digits), a comma and a space, the
    filtered value as a decimal with exactly four fractional digits (the
    nearest such decimal, a minus sign in front of a negative value), and one
    newline - with no other characters. *)
Theorem report_line_format (m : Machine) :
  serial_up m = true ->
  F32.is_finite (filtered_V m) = true ->
  let ts := dec_string (uint32 (clock m)) in
  let n := scaled_round false 4 (filtered_V m) in
  let sign := (if F32.sign (filtered_V m) then "-" else EmptyString)%string in
  let ip := dec_string (n / 10000) in
  let fp := digits_fixed 4 (n mod 10000) in
  emitted report m
  = [EvSerial (spaces (7 - String.length ts) ++ ts ++ ", "
               ++ sign ++ ip ++ "." ++ fp ++ newline)%string]
  /\ all_chars is_digit ts = true
  /\ all_chars is_digit ip = true
  /\ (1 <= String.length ip)%nat
  /\ all_chars is_digit fp = true
  /\ String.length fp = 4%nat
  /\ (Qabs (inject_Z n - Qabs (F32.to_Q (filtered_V m)) * inject_Z 10000)
      <= 1 # 2)%Q.
Proof.
  intros Hup Hfin ts n sign ip fp. split_all.
  - apply emitted_app. rewrite report_exec. cbv zeta. rewrite Hup. fields.
    rewrite (report_line_shape m Hfin). reflexivity.
  - apply dec_string_digits.
  - apply dec_string_digits.
  - apply dec_string_nonempty.
  - apply digits_fixed_digits.
  - apply digits_fixed_length.
  - apply (scaled_round_nearest false 4).
Qed.

(** 0.5 V, 101 ms after start. *)
Lemma report_line_format_witness :
  emitted report (set_clock 101 (showing false (F32.lit 5 10) (F32.lit 5 10) true))
  = [EvSerial ("    101, 0.5000" ++ newline)%string].
Proof.
  refine (proj1 (report_line_format
            (set_clock 101 (showing false (F32.lit 5 10) (F32.lit 5 10) true))
            _ _)); vm_compute; reflexivity.
Defined.

(** C6 as stated fails: the conversion is [%7u], so a count of fewer than
    seven digits is preceded by spaces; at 101 ms the line begins with four
    of them. *)
Lemma report_line_is_padded :
  let m := set_clock 101 (showing false (F32.lit 5 10) (F32.lit 5 10) true) in
  emitted report m = [EvSerial ("    101, 0.5000" ++ newline)%string]
  /\ unpadded_line m = ("101, 0.5000" ++ newline)%string
  /\ emitted report m <> [EvSerial (unpadded_line m)].
Proof.
  vm_compute. split_all; try reflexivity. discriminate.
Qed.

(** C7.  The number drawn in large digits is the pin voltage multiplied by
    the display scale of the range in use - by ten in kV range (a binary32
    product), by one in direct range - printed with two fractional digits
    (the nearest such decimal), and the unit label drawn next to it is the
    one of the range.  0.0500 V in kV range is drawn as 0.50 kV, the scaled
    value being exactly 0.5; 1.650 V in direct range is drawn as 1.65 V. *)
Theorem display_scaling (v : f32) (m : Machine) :
  let hv := use_hv_mode m in
  let shown := display_value hv v in
  let n := scaled_round true 2 shown in
  (exists x,
      nth_error (emitted (updateMainUI v) m) 0
      = Some (EvDraw (Print u8g2_font_inb27_mn (active_color hv) COL_BLACK
                            x 100 (dtostrf shown 5 2))))
  /\ (exists x,
      nth_error (emitted (updateMainUI v) m) 2
      = Some (EvDraw (Print u8g2_font_9x15_tr (active_color hv) COL_BLACK
                            x 100 (if hv then "kV" else "V")%string)))
  /\ shown = (if hv then F32.mul v (F32.of_Z 10) else v)
  /\ (F32.is_finite shown = true ->
      dtostrf shown 5 2
      = pad_left 5 ((if F32.sign shown then "-" else EmptyString)
                    ++ dec_string (n / 100) ++ "."
                    ++ digits_fixed 2 (n mod 100))%string)
  /\ (Qabs (inject_Z n - Qabs (F32.to_Q shown) * inject_Z 100) <= 1 # 2)%Q
  /\ (F32.to_Q (display_value true (F32.lit 5 100)) == 1 # 2)%Q
  /\ dtostrf (display_value true (F32.lit 5 100)) 5 2 = " 0.50"%string
  /\ (Qabs (F32.to_Q (display_value false (F32.lit 165 100)) - (165 # 100))
      <= 1 # 2 ^ 24)%Q
  /\ dtostrf (display_value false (F32.lit 165 100)) 5 2 = " 1.65"%string.
Proof.
  intros hv shown n.
  assert (E : emitted (updateMainUI v) m
              = map EvDraw (value_ops (glyph_width m) hv v)).
  { apply emitted_app. unfold exec.
    destruct (updateMainUI_run v m) as (f & c & b & x & y & R).
    rewrite R. reflexivity. }
  split_all.
  - rewrite E. eexists. reflexivity.
  - rewrite E. unfold value_ops, unit_label.
    cbn [map nth_error Datatypes.app]. clear E. subst n shown hv.
    destruct (use_hv_mode m); eexists; reflexivity.
  - reflexivity.
  - intros Hfin. apply (dtostrf_shape shown 5 1 Hfin).
  - apply (scaled_round_nearest true 2).
  - vm_compute. reflexivity.
  - vm_compute. reflexivity.
  - apply Qle_bool_imp_le. vm_compute. reflexivity.
  - vm_compute. reflexivity.
Qed.

(** 0.0500 V in kV range. *)
Lemma display_scaling_witness :
  let m := showing true (F32.lit 5 100) (F32.lit 5 100) false in
  let shown := display_value (use_hv_mode m) (F32.lit 5 100) in
  let n := scaled_round true 2 shown in
  dtostrf shown 5 2
  = pad_left 5 ((if F32.sign shown then "-" else EmptyString)
                ++ dec_string (n / 100) ++ "."
                ++ digits_fixed 2 (n mod 100))%string.
Proof.
  intros m shown n.
  refine (proj1 (proj2 (proj2 (proj2 (display_scaling (F32.lit 5 100) m)))) _).
  vm_compute. reflexivity.
Defined.

(** C8.  After start-up and after any number of passes through [loop],
    whatever the inputs, the attenuation of the converter is the one of the
    range in use: 0 dB exactly in kV range, 11 dB exactly in direct range,
    and the range in use is the range last configured.  A range evaluation
    in such a state exposes the range selected by the pin, again with its
    attenuation: when the range changes, the attenuation is switched right
    after the pin is read and before anything is drawn for the new range;
    when it does not, the attenuation is left alone. *)
Theorem attenuation_matches_range (path : string) (adc : nat -> Z)
    (gw : Font -> string -> Z) (att : adc_attenuation_t) (ins : list Inputs) :
  let m := run ins (exec (setup path) (power_on adc gw att)) in
  (attenuation m = ADC_0db <-> use_hv_mode m = true)
  /\ (attenuation m = ADC_11db <-> use_hv_mode m = false)
  /\ last_hv_mode m = use_hv_mode m
  /\ forall pin_high : bool,
       let m' := exec dispVolts (set_mode_pin_high pin_high m) in
       use_hv_mode m' = negb pin_high
       /\ attenuation m' = atten_of (negb pin_high)
       /\ exists ops,
            emitted dispVolts (set_mode_pin_high pin_high m)
            = EvModeRead pin_high
              :: (if Bool.eqb (negb pin_high) (use_hv_mode m) then []
                  else [EvAtten (atten_of (negb pin_high))])
              ++ map EvDraw ops.
Proof.
  intros m.
  assert (H : range_synced m) by apply run_synced, setup_synced.
  clearbody m. split_all.
  - destruct H as [Ha _]. rewrite Ha.
    destruct (use_hv_mode m); simpl; split; congruence.
  - destruct H as [Ha _]. rewrite Ha.
    destruct (use_hv_mode m); simpl; split; congruence.
  - apply H.
  - intros p. apply evaluation_in_step. exact H.
Qed.

(** C9 (amended).  The mode pin is read by the render activity only, and
    in a pass after the acquisition of that pass.  A pass in which the
    acquisition is due starts with the eight conversions; they are converted
    with the reference of the range in use when the pass begins - the range
    of the latest completed evaluation, made in an earlier pass, or the
    direct range before the first evaluation - and the attenuation of the
    converter is the one of that range. *)
Theorem acquisition_uses_range_in_force (i : Inputs) (m : Machine) :
  range_synced m ->
  due t_meas MEAS_INTERVAL_MS (present i m) = true ->
  let m0 := present i m in
  attenuation m0 = atten_of (use_hv_mode m)
  /\ filtered_V (pass i m)
     = ema (convert (use_hv_mode m) (readings m0)) (filtered_V m)
  /\ exists rest,
       emitted loop m0 = map EvAnalogRead (readings m0) ++ rest
       /\ count is_analog_read rest = 0%nat
       /\ count is_mode_read rest
          = (if due t_disp DISP_INTERVAL_MS m0 then 1 else 0)%nat.
Proof.
  intros [Ha _] Hdue m0.
  destruct (loop_acquire_first m0 Hdue) as (rest & Ht & Hr & He & Hf).
  split_all.
  - exact Ha.
  - exact Hf.
  - exists rest. split_all; [apply emitted_app; exact Ht | exact Hr | exact He].
Qed.

(** The bench in direct range, 17 ms after start-up, mode pin open. *)
Lemma acquisition_uses_range_in_force_witness :
  filtered_V (pass (mkInputs 17 true true) (bench 40000))
  = ema (convert (use_hv_mode (bench 40000))
                 (readings (present (mkInputs 17 true true) (bench 40000))))
        (filtered_V (bench 40000)).
Proof.
  refine (proj1 (proj2 (acquisition_uses_range_in_force
            (mkInputs 17 true true) (bench 40000) _ _))).
  - vm_compute. split; reflexivity.
  - vm_compute. reflexivity.
Defined.

(** C9 as stated fails: with the mode pin pulled low after start-up, the
    pass at 250 ms takes its eight conversions before the pin is read, and
    converts them with the 3.3 V reference of the direct range; only then
    does the range evaluation of that pass select the kV range. *)
Lemma acquisition_precedes_range_evaluation :
  let i := mkInputs 250 false true in
  let m := bench 40000 in
  pin_range (present i m) = true
  /\ mode_read_first (emitted loop (present i m)) = false
  /\ filtered_V (pass i m)
     = ema (convert false (readings (present i m))) (filtered_V m)
  /\ filtered_V (pass i m)
     <> ema (convert true (readings (present i m))) (filtered_V m)
  /\ use_hv_mode (pass i m) = true.
Proof.
  vm_compute. split_all; try reflexivity. discriminate.
Qed.

(** C10.  Two machines that agree on the clock, the filtered value and the
    state of the serial port - and differ in the range or in anything else -
    report the same line: the line is made of the clock and the pin-referred
    filtered value only, never of the scaled display value. *)
Theorem report_independent_of_range (m1 m2 : Machine) :
  clock m1 = clock m2 ->
  filtered_V m1 = filtered_V m2 ->
  serial_up m1 = serial_up m2 ->
  emitted report m1 = emitted report m2
  /\ emitted report m1
     = if serial_up m1
       then [EvSerial (fmt_u 7 (uint32 (clock m1)) ++ ", "
                       ++ fmt_f 6 4 (filtered_V m1) ++ newline)%string]
       else [].
Proof.
  intros Hc Hf Hs.
  assert (E : forall m,
             emitted report m
             = if serial_up m then [EvSerial (report_line m)] else []).
  { intros m. apply emitted_app. rewrite report_exec. cbv zeta.
    destruct (serial_up m); fields; [reflexivity | now rewrite app_nil_r]. }
  rewrite !E. unfold report_line. rewrite Hc, Hf, Hs. split; reflexivity.
Qed.

(** 0.5 V at the pin, once in direct range and once in kV range (where the
    display shows 5.00 kV): the same line. *)
Lemma report_independent_of_range_witness :
  emitted report (showing false (F32.lit 5 10) (F32.lit 5 10) true)
  = emitted report (showing true (F32.lit 5 10) (F32.lit 5 10) false).
Proof.
  refine (proj1 (report_independent_of_range
            (showing false (F32.lit 5 10) (F32.lit 5 10) true)
            (showing true (F32.lit 5 10) (F32.lit 5 10) false) _ _ _));
    vm_compute; reflexivity.
Defined.

(** * Further properties of the sketch *)

(** ** The heartbeat, exactly *)

Lemma heartbeat_exact (m : Machine) :
  exec (every t_hb HB_PERIOD_MS heartbeat_on;; led_off) m
  = if HB_PERIOD_MS <=? hb_elapsed m
    then set_trace (trace m ++ [EvLed true])
           (set_led true (set_t_hb (uint32 (clock m)) m))
    else if led m && (HB_ON_MS <=? hb_elapsed m)
         then set_trace (trace m ++ [EvLed false]) (set_led false m)
         else m.
Proof.
  open_machine m. run_sketch.
  destruct (1000 <=? _); run_sketch.
  - rewrite uint32_self. change (15 <=? 0) with false.
    run_sketch. reflexivity.
  - destruct ld; run_sketch; [ destruct (15 <=? _) | ]; reflexivity.
Qed.

(** ** What [dispVolts] adds to the trace *)

Lemma dispVolts_marks (m : Machine) :
  exists evs,
    trace (exec dispVolts m) = trace m ++ evs
    /\ count is_analog_read evs = 0%nat
    /\ count is_serial evs = 0%nat
    /\ count is_mode_read evs = 1%nat
    /\ count is_led_on evs = 0%nat
    /\ count is_led_off evs = 0%nat
    /\ filtered_V (exec dispVolts m) = filtered_V m
    /\ same_board m (exec dispVolts m).
Proof.
  destruct (Bool.bool_dec (pin_range m) (last_hv_mode m)) as [E | E];
    [ destruct (dispVolts_range_kept m E) as (Ht & _ & _ & _ & Hf & _ & B)
    | destruct (dispVolts_range_changed m E) as (Ht & _ & _ & _ & Hf & _ & B) ];
    eexists; (split; [exact Ht | ]);
    destruct (moved m);
    change (?a :: ?l) with ([a] ++ l);
    rewrite ?count_app, ?count_draw by reflexivity;
    split_all; solve [reflexivity | exact Hf | exact B].
Qed.

Lemma count_zero_filter (p : Event -> bool) (evs : list Event) :
  count p evs = 0%nat -> filter p evs = [].
Proof. unfold count. intros H. apply length_zero_iff_nil. exact H. Qed.

(** The three timed activities of a pass, together. *)
Lemma after_render_summary (m : Machine) :
  exists d,
    trace (after_render m)
    = trace m
      ++ (if due t_meas MEAS_INTERVAL_MS m
          then map EvAnalogRead (readings m) else [])
      ++ (if due t_ser SER_INTERVAL_MS m && serial_up m
          then [EvSerial (report_line (after_acquire m))] else [])
      ++ d
    /\ (count is_analog_read d = 0%nat
        /\ count is_serial d = 0%nat
        /\ count is_mode_read d
           = (if due t_disp DISP_INTERVAL_MS m then 1 else 0)%nat
        /\ count is_led_on d = 0%nat
        /\ count is_led_off d = 0%nat)
    /\ filtered_V (after_render m)
       = (if due t_meas MEAS_INTERVAL_MS m
          then ema (convert (use_hv_mode m) (readings m)) (filtered_V m)
          else filtered_V m)
    /\ filtered_V (after_acquire m) = filtered_V (after_render m)
    /\ clock (after_acquire m) = clock m
    /\ t_meas (after_render m)
       = (if due t_meas MEAS_INTERVAL_MS m then uint32 (clock m) else t_meas m)
    /\ t_ser (after_render m)
       = (if due t_ser SER_INTERVAL_MS m then uint32 (clock m) else t_ser m)
    /\ t_disp (after_render m)
       = (if due t_disp DISP_INTERVAL_MS m then uint32 (clock m) else t_disp m)
    /\ t_hb (after_render m) = t_hb m
    /\ led (after_render m) = led m
    /\ clock (after_render m) = clock m
    /\ serial_up (after_render m) = serial_up m
    /\ mode_pin_high (after_render m) = mode_pin_high m
    /\ (due t_disp DISP_INTERVAL_MS m = false -> d = []).
Proof.
  unfold after_render, after_report, after_acquire. cbv zeta.
  unfold due.
  destruct (MEAS_INTERVAL_MS <=? _); rewrite ?acquire_exec; fields;
    (destruct (SER_INTERVAL_MS <=? _); rewrite ?report_exec; cbv zeta; fields;
     destruct (serial_up m) eqn:Hs; fields;
     (destruct (DISP_INTERVAL_MS <=? _);
      [ rewrite render_exec;
        match goal with
        | |- context [exec dispVolts ?M] =>
            destruct (dispVolts_marks M)
              as (d & Ht & Ca & Cs & Cm & Con & Coff & Hf & B);
            destruct B as (B1 & B2 & B3 & B4 & B5 & B6 & B7 & _ & _ & _ & _ & B12);
            rewrite Ht, Hf, B1, B2, B3, B4, B5, B6, B7, B12;
            clear Ht Hf B1 B2 B3 B4 B5 B6 B7 B12
        end; fields; exists d
      | exists [] ])).
  all: cbn [andb]; rewrite ?Hs; fields; rewrite ?app_nil_r;
    rewrite <- ?app_assoc.
  all: split_all; try reflexivity; try assumption.
  all: intros D; first [reflexivity | discriminate D].
Qed.

(** One whole pass. *)
Lemma loop_summary (m : Machine) :
  exists d,
    emitted loop m
    = (if due t_meas MEAS_INTERVAL_MS m
       then map EvAnalogRead (readings m) else [])
      ++ (if due t_ser SER_INTERVAL_MS m && serial_up m
          then [EvSerial (fresh_line m)] else [])
      ++ d ++ hb_events m
    /\ (count is_analog_read d = 0%nat
        /\ count is_serial d = 0%nat
        /\ count is_mode_read d
           = (if due t_disp DISP_INTERVAL_MS m then 1 else 0)%nat
        /\ count is_led_on d = 0%nat
        /\ count is_led_off d = 0%nat)
    /\ filtered_V (exec loop m) = fresh_value m
    /\ t_meas (exec loop m)
       = (if due t_meas MEAS_INTERVAL_MS m then uint32 (clock m) else t_meas m)
    /\ t_ser (exec loop m)
       = (if due t_ser SER_INTERVAL_MS m then uint32 (clock m) else t_ser m)
    /\ t_disp (exec loop m)
       = (if due t_disp DISP_INTERVAL_MS m then uint32 (clock m) else t_disp m)
    /\ t_hb (exec loop m)
       = (if HB_PERIOD_MS <=? hb_elapsed m then uint32 (clock m) else t_hb m)
    /\ led (exec loop m)
       = (if HB_PERIOD_MS <=? hb_elapsed m then true
          else led m && negb (HB_ON_MS <=? hb_elapsed m))
    /\ clock (exec loop m) = clock m
    /\ trace (exec loop m) = trace m ++ emitted loop m
    /\ (due t_disp DISP_INTERVAL_MS m = false -> d = []).
Proof.
  destruct (after_render_summary m)
    as (d & Ht & C & Hf & Hfa & Hca & Htm & Hts & Htd & Hhb & Hled & Hclk
        & Hser & Hpin & Hnd).
  exists d.
  assert (L : report_line (after_acquire m) = fresh_line m).
  { unfold report_line, fresh_line, fresh_value.
    rewrite Hca, Hfa, Hf. reflexivity. }
  rewrite L in Ht. clear L Hfa Hca.
  assert (T : trace (exec loop m)
              = trace m
                ++ (if due t_meas MEAS_INTERVAL_MS m
                    then map EvAnalogRead (readings m) else [])
                ++ (if due t_ser SER_INTERVAL_MS m && serial_up m
                    then [EvSerial (fresh_line m)] else [])
                ++ d ++ hb_events m
              /\ filtered_V (exec loop m) = filtered_V (after_render m)
              /\ t_meas (exec loop m) = t_meas (after_render m)
              /\ t_ser (exec loop m) = t_ser (after_render m)
              /\ t_disp (exec loop m) = t_disp (after_render m)
              /\ t_hb (exec loop m)
                 = (if HB_PERIOD_MS <=? hb_elapsed m
                    then uint32 (clock m) else t_hb m)
              /\ led (exec loop m)
                 = (if HB_PERIOD_MS <=? hb_elapsed m then true
                    else led m && negb (HB_ON_MS <=? hb_elapsed m))
              /\ clock (exec loop m) = clock m).
  { rewrite loop_exec, heartbeat_exact. unfold hb_events, hb_elapsed.
    rewrite Hhb, Hclk, Hled. clear Hf Htm Hts Htd Hser Hpin.
    revert Ht Hclk Hhb Hled. generalize (after_render m).
    intros ar Ht Hclk Hhb Hled.
    destruct (HB_PERIOD_MS <=? _); [ | destruct (led m);
      [ destruct (HB_ON_MS <=? _) | ] ]; cbn [andb negb]; fields;
      rewrite ?Ht, ?app_nil_r, <- ?app_assoc;
      split_all; reflexivity || assumption. }
  destruct T as (T1 & T2 & T3 & T4 & T5 & T6 & T7 & T8).
  pose proof (emitted_app loop m _ T1) as E.
  split_all; try assumption; try (apply C).
  - rewrite T2. exact Hf.
  - rewrite T3. exact Htm.
  - rewrite T4. exact Hts.
  - rewrite T5. exact Htd.
  - rewrite E. exact T1.
Qed.
Lemma count_all_draw (ops : list DrawOp) :
  count is_draw (map EvDraw ops) = List.length ops.
Proof.
  unfold count. induction ops as [|d ops IH]; cbn [map filter is_draw].
  - reflexivity.
  - cbn [List.length]. rewrite IH. reflexivity.
Qed.


Lemma dispVolts_idle (m : Machine) :
  use_hv_mode m = pin_range m ->
  last_hv_mode m = pin_range m ->
  moved m = false ->
  exec dispVolts m = set_trace (trace m ++ [EvModeRead (mode_pin_high m)]) m.
Proof.
  open_machine m. unfold pin_range, moved. fields. intros -> -> Hm.
  destruct pin; run_sketch; rewrite Hm; reflexivity.
Qed.

(** ** What a pass adds to the trace, counted *)

Lemma loop_counts (m : Machine) :
  count is_analog_read (emitted loop m)
  = (if due t_meas MEAS_INTERVAL_MS m then 8 else 0)%nat
  /\ count is_serial (emitted loop m)
     = (if due t_ser SER_INTERVAL_MS m && serial_up m then 1 else 0)%nat
  /\ count is_mode_read (emitted loop m)
     = (if due t_disp DISP_INTERVAL_MS m then 1 else 0)%nat
  /\ count is_led_on (emitted loop m)
     = (if HB_PERIOD_MS <=? hb_elapsed m then 1%nat else 0%nat)
  /\ count is_led_off (emitted loop m)
     = (if HB_PERIOD_MS <=? hb_elapsed m then 0%nat
        else if led m && (HB_ON_MS <=? hb_elapsed m) then 1%nat else 0%nat).
Proof.
  destruct (loop_summary m) as (d & E & (Ca & Cs & Cm & Con & Coff) & _).
  rewrite E, !count_app, Ca, Cs, Cm, Con, Coff. clear E Ca Cs Cm Con Coff.
  unfold hb_events.
  generalize (readings_length m). generalize (readings m). intros codes Hc.
  destruct (due t_meas MEAS_INTERVAL_MS m);
    rewrite ?count_reads, ?(count_no_reads is_serial),
      ?(count_no_reads is_mode_read), ?(count_no_reads is_led_on),
      ?(count_no_reads is_led_off), ?Hc by reflexivity;
    destruct (due t_ser SER_INTERVAL_MS m && serial_up m);
    destruct (due t_disp DISP_INTERVAL_MS m);
    destruct (HB_PERIOD_MS <=? hb_elapsed m);
    destruct (led m && (HB_ON_MS <=? hb_elapsed m));
    split_all; reflexivity.
Qed.

(** ** The timers from one pass to the next *)

Lemma due_later (last : Machine -> Z) (interval : Z) (m m' : Machine) (d : Z) :
  0 <= d < 2 ^ 32 ->
  clock m' = clock m + d ->
  last m' = uint32 (clock m) ->
  due last interval m' = (interval <=? d).
Proof.
  intros Hd Hc Hl. unfold due. rewrite Hl.
  rewrite (uint32_elapsed (uint32 (clock m)) d (clock m')); [reflexivity | exact Hd | ].
  rewrite Hc, uint32_add_l. reflexivity.
Qed.

Lemma loop_timers (m : Machine) :
  t_meas (exec loop m)
  = (if due t_meas MEAS_INTERVAL_MS m then uint32 (clock m) else t_meas m)
  /\ t_ser (exec loop m)
     = (if due t_ser SER_INTERVAL_MS m then uint32 (clock m) else t_ser m)
  /\ t_disp (exec loop m)
     = (if due t_disp DISP_INTERVAL_MS m then uint32 (clock m) else t_disp m)
  /\ t_hb (exec loop m)
     = (if HB_PERIOD_MS <=? hb_elapsed m then uint32 (clock m) else t_hb m)
  /\ led (exec loop m)
     = (if HB_PERIOD_MS <=? hb_elapsed m then true
        else led m && negb (HB_ON_MS <=? hb_elapsed m))
  /\ clock (exec loop m) = clock m
  /\ filtered_V (exec loop m) = fresh_value m.
Proof.
  destruct (loop_summary m)
    as (d & _ & _ & Hf & Hm & Hs & Hd & Hh & Hl & Hc & _).
  split_all; assumption.
Qed.

Lemma loop_trace (m : Machine) :
  trace (exec loop m) = trace m ++ emitted loop m.
Proof.
  destruct (loop_summary m)
    as (d & _ & _ & _ & _ & _ & _ & _ & _ & _ & H & _).
  exact H.
Qed.

(** ** The state a pass leaves *)

Lemma settle (c t interval : Z) :
  0 < interval ->
  (interval <=? uint32 (uint32 c
                        - (if interval <=? uint32 (uint32 c - t)
                           then uint32 c else t))) = false.
Proof.
  intros H. destruct (interval <=? uint32 (uint32 c - t)) eqn:E.
  - rewrite uint32_self. apply Z.leb_gt. exact H.
  - exact E.
Qed.

Lemma loop_settled (m : Machine) :
  let m' := exec loop m in
  due t_meas MEAS_INTERVAL_MS m' = false
  /\ due t_ser SER_INTERVAL_MS m' = false
  /\ due t_disp DISP_INTERVAL_MS m' = false
  /\ (HB_PERIOD_MS <=? hb_elapsed m') = false
  /\ led m' && (HB_ON_MS <=? hb_elapsed m') = false.
Proof.
  intros m'.
  destruct (loop_timers m) as (Tm & Ts & Td & Th & Tl & Tc & _).
  fold m' in Tm, Ts, Td, Th, Tl, Tc. clearbody m'.
  unfold due, hb_elapsed in *. rewrite Tm, Ts, Td, Th, Tl, Tc.
  clear Tm Ts Td Th Tl Tc.
  split_all; try (apply settle; reflexivity).
  destruct (HB_PERIOD_MS <=? uint32 (uint32 (clock m) - t_hb m)) eqn:E;
    [ rewrite uint32_self; reflexivity | ].
  destruct (led m); [ | reflexivity ].
  destruct (HB_ON_MS <=? _); reflexivity.
Qed.

Lemma loop_idle (m : Machine) :
  due t_meas MEAS_INTERVAL_MS m = false ->
  due t_ser SER_INTERVAL_MS m = false ->
  due t_disp DISP_INTERVAL_MS m = false ->
  (HB_PERIOD_MS <=? hb_elapsed m) = false ->
  led m && (HB_ON_MS <=? hb_elapsed m) = false ->
  exec loop m = m.
Proof.
  intros Hm Hs Hd Hp Hl.
  rewrite loop_exec.
  assert (E : after_render m = m).
  { unfold after_render, after_report, after_acquire. cbv zeta.
    rewrite Hm, Hs, Hd. reflexivity. }
  rewrite E, heartbeat_exact, Hp, Hl. reflexivity.
Qed.

Lemma present_same (i : Inputs) (m : Machine) :
  clock m = in_clock i ->
  mode_pin_high m = in_mode_pin_high i ->
  serial_up m = in_serial_up i ->
  present i m = m.
Proof.
  open_machine m. fields. intros -> -> ->. reflexivity.
Qed.

(** ** The heartbeat between two periods *)

Lemma pass_within_period (i : Inputs) (m : Machine) (c d : Z) :
  t_hb m = uint32 c ->
  in_clock i = c + d ->
  0 <= d < HB_PERIOD_MS ->
  t_hb (pass i m) = t_hb m
  /\ led (pass i m) = led m && (d <? HB_ON_MS)
  /\ count is_led_on (trace (pass i m)) = count is_led_on (trace m)
  /\ count is_led_off (trace (pass i m))
     = (if led m && negb (d <? HB_ON_MS)
        then S (count is_led_off (trace m))
        else count is_led_off (trace m)).
Proof.
  intros Ht Hc Hd. unfold pass.
  destruct (loop_timers (present i m)) as (_ & _ & _ & Th & Tl & _).
  destruct (loop_counts (present i m)) as (_ & _ & _ & Con & Coff).
  pose proof (loop_trace (present i m)) as Tr.
  assert (E : hb_elapsed (present i m) = d).
  { unfold hb_elapsed. change (t_hb (present i m)) with (t_hb m).
    change (clock (present i m)) with (in_clock i).
    rewrite Ht. apply uint32_elapsed.
    - unfold HB_PERIOD_MS in Hd. lia.
    - rewrite Hc, uint32_add_l. reflexivity. }
  rewrite E in *. clear E.
  change (led (present i m)) with (led m) in *.
  change (t_hb (present i m)) with (t_hb m) in *.
  change (trace (present i m)) with (trace m) in *.
  revert Th Tl Con Coff Tr.
  generalize (emitted loop (present i m)).
  generalize (exec loop (present i m)).
  intros m' evs Th Tl Con Coff Tr.
  assert (P : (HB_PERIOD_MS <=? d) = false) by (apply Z.leb_gt; lia).
  rewrite P in *.
  assert (O : (HB_ON_MS <=? d) = negb (d <? HB_ON_MS))
    by (rewrite Z.ltb_antisym, negb_involutive; reflexivity).
  rewrite O in *. rewrite negb_involutive in Tl.
  rewrite Tr, !count_app, Con, Coff, Nat.add_0_r.
  split_all; try solve [assumption | reflexivity].
  destruct (led m && negb (d <? HB_ON_MS)); lia.
Qed.

Lemma run_cons (i : Inputs) (ins : list Inputs) (m : Machine) :
  run (i :: ins) m = run ins (pass i m).
Proof. reflexivity. Qed.

Lemma run_within_period (c : Z) (ds : list Z) :
  Forall (fun d => 0 <= d < HB_PERIOD_MS) ds ->
  forall (ins : list Inputs) (m : Machine),
    t_hb m = uint32 c ->
    map in_clock ins = map (Z.add c) ds ->
    t_hb (run ins m) = t_hb m
    /\ led (run ins m) = led m && forallb (fun d => d <? HB_ON_MS) ds
    /\ count is_led_on (trace (run ins m)) = count is_led_on (trace m)
    /\ count is_led_off (trace (run ins m))
       = (if led m && negb (forallb (fun d => d <? HB_ON_MS) ds)
          then S (count is_led_off (trace m))
          else count is_led_off (trace m)).
Proof.
  induction 1 as [|d ds Hd Hds IH]; intros ins m Ht Hc.
  - destruct ins; [ | discriminate ].
    change (run [] m) with m. cbn [forallb negb].
    rewrite andb_true_r, andb_false_r.
    split_all; reflexivity.
  - destruct ins as [|i ins]; [ discriminate | ].
    cbn [map] in Hc. injection Hc as Hi Hc.
    rewrite run_cons.
    destruct (pass_within_period i m c d Ht Hi Hd) as (Pt & Pl & Pon & Poff).
    destruct (IH ins (pass i m)) as (Rt & Rl & Ron & Roff);
      [ congruence | exact Hc | ].
    revert Pt Pl Pon Poff Rt Rl Ron Roff.
    generalize (run ins (pass i m)). generalize (pass i m).
    intros m1 m2 Pt Pl Pon Poff Rt Rl Ron Roff.
    rewrite Rt, Rl, Ron, Roff, Pt, Pl, Pon, Poff.
    cbn [forallb].
    split_all;
      destruct (led m), (d <? HB_ON_MS),
        (forallb (fun d0 => d0 <? HB_ON_MS) ds); reflexivity.
Qed.

Lemma loop_inputs (m : Machine) :
  serial_up (exec loop m) = serial_up m
  /\ mode_pin_high (exec loop m) = mode_pin_high m.
Proof.
  destruct (after_render_summary m)
    as (d & _ & _ & _ & _ & _ & _ & _ & _ & _ & _ & _ & Hs & Hp & _).
  rewrite loop_exec, heartbeat_exact.
  revert Hs Hp. generalize (after_render m). intros ar Hs Hp.
  destruct (HB_PERIOD_MS <=? _); [ | destruct (led ar && _) ]; fields;
    split; assumption.
Qed.

Lemma printVolts_exec (m : Machine) :
  msg_buf (exec printVolts m) = report_line m
  /\ trace (exec printVolts m)
     = trace m ++ (if serial_up m then [EvSerial (report_line m)] else []).
Proof.
  open_machine m. destruct ser; split; fields;
    rewrite ?app_nil_r; reflexivity.
Qed.

(** ** The events of the display *)

Lemma display_only (d : list Event) :
  count is_analog_read d = 0%nat -> count is_serial d = 0%nat ->
  count is_led_on d = 0%nat -> count is_led_off d = 0%nat ->
  forallb is_display d = true.
Proof.
  unfold count. induction d as [|e d IH]; intros Ha Hs Hon Hoff.
  - reflexivity.
  - destruct e as [c | p | a | s | [|] | o];
      cbn [filter is_analog_read is_serial is_led_on is_led_off
           List.length forallb is_display andb] in *;
      try discriminate; apply IH; assumption.
Qed.

(** ** Passes one millisecond apart *)

Lemma succ_div (T N : Z) :
  0 < T -> 0 <= N ->
  (N mod T = T - 1 -> (N + 1) / T = N / T + 1 /\ (N + 1) mod T = 0)
  /\ (N mod T <> T - 1 ->
      (N + 1) / T = N / T /\ (N + 1) mod T = N mod T + 1).
Proof.
  intros HT HN.
  pose proof (Z.div_mod N T ltac:(lia)) as E.
  pose proof (Z.mod_pos_bound N T HT) as B.
  split; intros H.
  - assert (E1 : N + 1 = T * (N / T + 1) + 0) by lia.
    split.
    + symmetry. apply (Z.div_unique_pos (N + 1) T (N / T + 1) 0); lia.
    + symmetry. apply (Z.mod_unique_pos (N + 1) T (N / T + 1) 0); lia.
  - assert (E1 : N + 1 = T * (N / T) + (N mod T + 1)) by lia.
    split.
    + symmetry. apply (Z.div_unique_pos (N + 1) T (N / T) (N mod T + 1)); lia.
    + symmetry. apply (Z.mod_unique_pos (N + 1) T (N / T) (N mod T + 1)); lia.
Qed.

(** A timer that stands at the last multiple of its interval, one
    millisecond later. *)
Lemma due_on_tick (last : Machine -> Z) (T c N : Z) (m : Machine) :
  0 < T -> 0 <= N -> N + 1 < 2 ^ 32 ->
  clock m = c + (N + 1) ->
  last m = uint32 (c + T * (N / T)) ->
  due last T m = ((N + 1) mod T =? 0)
  /\ (if due last T m then uint32 (clock m) else last m)
     = uint32 (c + T * ((N + 1) / T))
  /\ (N + 1) / T = N / T + (if due last T m then 1 else 0).
Proof.
  intros HT HN HB Hc Hl.
  pose proof (Z.div_mod N T ltac:(lia)) as E.
  pose proof (Z.mod_pos_bound N T HT) as B.
  pose proof (Z.mod_le N T HN HT) as L.
  assert (D : due last T m = (T <=? N mod T + 1)).
  { unfold due. rewrite Hl, Hc.
    rewrite (uint32_elapsed (uint32 (c + T * (N / T))) (N mod T + 1)).
    - reflexivity.
    - lia.
    - rewrite uint32_add_l. f_equal. lia. }
  destruct (succ_div T N HT HN) as [S1 S2].
  rewrite D. destruct (Z.eq_dec (N mod T) (T - 1)) as [H | H].
  - destruct (S1 H) as [Q R]. rewrite Q, R.
    replace (T <=? N mod T + 1) with true by (symmetry; apply Z.leb_le; lia).
    split; [ reflexivity | split; [ | reflexivity ] ].
    rewrite Hc. f_equal. lia.
  - destruct (S2 H) as [Q R]. rewrite Q, R.
    replace (T <=? N mod T + 1) with false by (symmetry; apply Z.leb_gt; lia).
    split; [ symmetry; apply Z.eqb_neq; lia | split; [ exact Hl | lia ] ].
Qed.

Lemma run_snoc (ins : list Inputs) (i : Inputs) (m : Machine) :
  run (ins ++ [i]) m = pass i (run ins m).
Proof. unfold run. rewrite fold_left_app. reflexivity. Qed.

Lemma pass_trace (i : Inputs) (m : Machine) :
  trace (pass i m) = trace m ++ emitted loop (present i m).
Proof. unfold pass. rewrite loop_trace. reflexivity. Qed.

(** The state after [n] passes one millisecond apart, from a state in
    which all four timers stand at [c]. *)
Lemma pass_on_tick (i : Inputs) (m0 m : Machine) (c : Z) (n : nat) :
  Z.of_nat n + 1 < 2 ^ 32 ->
  in_clock i = c + (Z.of_nat n + 1) ->
  in_serial_up i = true ->
  ticked c n m0 m ->
  ticked c (S n) m0 (pass i m).
Proof.
  intros HB Hc Hup (Im & Is & Id & Ih & Cm & Cs & Cd & Ch & Il).
  pose proof (loop_timers (present i m)) as (Tm & Ts & Td & Th & Tl & _).
  pose proof (loop_counts (present i m)) as (Km & Ks & Kd & Kh & _).
  pose proof (pass_trace i m) as Tr.
  change (HB_PERIOD_MS <=? hb_elapsed (present i m))
    with (due t_hb HB_PERIOD_MS (present i m)) in *.
  assert (C : clock (present i m) = c + (Z.of_nat n + 1)) by exact Hc.
  assert (U : serial_up (present i m) = true) by exact Hup.
  assert (E : hb_elapsed (present i m) = Z.of_nat n mod 1000 + 1).
  { unfold hb_elapsed. change (t_hb (present i m)) with (t_hb m).
    rewrite C, Ih.
    pose proof (Z.div_mod (Z.of_nat n) 1000 ltac:(lia)) as E.
    pose proof (Z.mod_pos_bound (Z.of_nat n) 1000 ltac:(lia)) as B.
    apply uint32_elapsed; [ lia | ].
    rewrite uint32_add_l. f_equal. unfold HB_PERIOD_MS. lia. }
  destruct (due_on_tick t_meas MEAS_INTERVAL_MS c (Z.of_nat n) (present i m))
    as (Dm & Nm & Qm); try solve [reflexivity | lia | assumption].
  destruct (due_on_tick t_ser SER_INTERVAL_MS c (Z.of_nat n) (present i m))
    as (Ds & Ns & Qs); try solve [reflexivity | lia | assumption].
  destruct (due_on_tick t_disp DISP_INTERVAL_MS c (Z.of_nat n) (present i m))
    as (Dd & Nd & Qd); try solve [reflexivity | lia | assumption].
  destruct (due_on_tick t_hb HB_PERIOD_MS c (Z.of_nat n) (present i m))
    as (Dh & Nh & Qh); try solve [reflexivity | lia | assumption].
  rewrite U, andb_true_r in Ks.
  unfold pass in *. rewrite E in Tl. clear E.
  change (led (present i m)) with (led m) in Tl.
  revert Tm Ts Td Th Tl Km Ks Kd Kh Tr.
  generalize (emitted loop (present i m)).
  generalize (exec loop (present i m)). intros m' evs.
  intros Tm Ts Td Th Tl Km Ks Kd Kh Tr.
  unfold ticked. rewrite Nat2Z.inj_succ. unfold Z.succ.
  rewrite Tm, Ts, Td, Th, Tl, Tr, !count_app, Km, Ks, Kd, Kh, Cm, Cs, Cd, Ch.
  rewrite Nm, Ns, Nd, Nh, Il. clear Tm Ts Td Th Tl Tr Km Ks Kd Kh.
  assert (Pm : Z.to_nat ((Z.of_nat n + 1) / MEAS_INTERVAL_MS)
               = (Z.to_nat (Z.of_nat n / MEAS_INTERVAL_MS)
                  + (if due t_meas MEAS_INTERVAL_MS (present i m)
                     then 1 else 0))%nat).
  { rewrite Qm. pose proof (Z.div_pos (Z.of_nat n) MEAS_INTERVAL_MS).
    destruct (due t_meas _ _); unfold MEAS_INTERVAL_MS in *; lia. }
  assert (Ps : Z.to_nat ((Z.of_nat n + 1) / SER_INTERVAL_MS)
               = (Z.to_nat (Z.of_nat n / SER_INTERVAL_MS)
                  + (if due t_ser SER_INTERVAL_MS (present i m)
                     then 1 else 0))%nat).
  { rewrite Qs. pose proof (Z.div_pos (Z.of_nat n) SER_INTERVAL_MS).
    destruct (due t_ser _ _); unfold SER_INTERVAL_MS in *; lia. }
  assert (Pd : Z.to_nat ((Z.of_nat n + 1) / DISP_INTERVAL_MS)
               = (Z.to_nat (Z.of_nat n / DISP_INTERVAL_MS)
                  + (if due t_disp DISP_INTERVAL_MS (present i m)
                     then 1 else 0))%nat).
  { rewrite Qd. pose proof (Z.div_pos (Z.of_nat n) DISP_INTERVAL_MS).
    destruct (due t_disp _ _); unfold DISP_INTERVAL_MS in *; lia. }
  assert (Ph : Z.to_nat ((Z.of_nat n + 1) / HB_PERIOD_MS)
               = (Z.to_nat (Z.of_nat n / HB_PERIOD_MS)
                  + (if due t_hb HB_PERIOD_MS (present i m)
                     then 1 else 0))%nat).
  { rewrite Qh. pose proof (Z.div_pos (Z.of_nat n) HB_PERIOD_MS).
    destruct (due t_hb _ _); unfold HB_PERIOD_MS in *; lia. }
  rewrite Pm, Ps, Pd, Ph.
  split_all; try reflexivity.
  - destruct (due t_meas _ _); lia.
  - destruct (due t_ser _ _); lia.
  - destruct (due t_disp _ _); lia.
  - destruct (due t_hb _ _); lia.
  - rewrite Dh. unfold lit_after, HB_PERIOD_MS, HB_ON_MS.
    pose proof (Z.mod_pos_bound (Z.of_nat n) 1000 ltac:(lia)) as B.
    destruct (succ_div 1000 (Z.of_nat n) ltac:(lia) ltac:(lia)) as [S1 S2].
    destruct (Z.eq_dec (Z.of_nat n mod 1000) 999) as [H | H].
    + destruct (S1 H) as [_ R]. rewrite R.
      change (0 =? 0) with true. cbv iota.
      replace (Z.of_nat n + 1 <? 1000) with false
        by (symmetry; apply Z.ltb_ge;
            pose proof (Z.div_mod (Z.of_nat n) 1000 ltac:(lia));
            pose proof (Z.div_pos (Z.of_nat n) 1000); lia).
      reflexivity.
    + destruct (S2 H) as [Q R]. rewrite R.
      replace (Z.of_nat n mod 1000 + 1 =? 0) with false
        by (symmetry; apply Z.eqb_neq; lia).
      cbv iota.
      pose proof (Z.div_mod (Z.of_nat n) 1000 ltac:(lia)) as E.
      pose proof (Z.div_pos (Z.of_nat n) 1000 ltac:(lia) ltac:(lia)) as P.
      destruct (Z.of_nat n <? 1000) eqn:L1;
        [ apply Z.ltb_lt in L1 | apply Z.ltb_ge in L1 ].
      * assert (M : Z.of_nat n mod 1000 = Z.of_nat n)
          by (apply Z.mod_small; lia).
        rewrite M in *.
        replace (Z.of_nat n + 1 <? 1000) with true
          by (symmetry; apply Z.ltb_lt; lia).
        replace (15 <=? Z.of_nat n + 1)
          with (negb (Z.of_nat n + 1 <? 15))
          by (rewrite Z.ltb_antisym, negb_involutive; reflexivity).
        rewrite negb_involutive.
        destruct (led m0); cbn [andb]; [ | reflexivity ].
        destruct (Z.of_nat n <? 15) eqn:A, (Z.of_nat n + 1 <? 15) eqn:A';
          try reflexivity; apply Z.ltb_lt in A' || apply Z.ltb_ge in A';
          apply Z.ltb_lt in A || apply Z.ltb_ge in A; lia.
      * replace (Z.of_nat n + 1 <? 1000) with false
          by (symmetry; apply Z.ltb_ge; lia).
        replace (15 <=? Z.of_nat n mod 1000 + 1)
          with (negb (Z.of_nat n mod 1000 + 1 <? 15))
          by (rewrite Z.ltb_antisym, negb_involutive; reflexivity).
        rewrite negb_involutive.
        destruct (Z.of_nat n mod 1000 <? 15) eqn:A,
                 (Z.of_nat n mod 1000 + 1 <? 15) eqn:A';
          try reflexivity; apply Z.ltb_lt in A' || apply Z.ltb_ge in A';
          apply Z.ltb_lt in A || apply Z.ltb_ge in A; lia.
Qed.

Lemma run_on_ticks (m0 : Machine) (c : Z) (n : nat) :
  forall ins : list Inputs,
    Z.of_nat n < 2 ^ 32 ->
    map in_clock ins = map (fun k => c + Z.of_nat k) (seq 1 n) ->
    forallb in_serial_up ins = true ->
    ticked c 0 m0 m0 ->
    ticked c n m0 (run ins m0).
Proof.
  induction n as [|n IH]; intros ins HB Hc Hup H0.
  - destruct ins; [ exact H0 | discriminate ].
  - rewrite seq_S, map_app in Hc. cbn [map] in Hc.
    apply map_eq_app in Hc. destruct Hc as (ins1 & ins2 & -> & H1 & H2).
    destruct ins2 as [|i [|]]; try discriminate.
    cbn [map] in H2. injection H2 as H2.
    rewrite forallb_app in Hup. apply andb_prop in Hup.
    destruct Hup as [U1 U2]. cbn [forallb] in U2.
    rewrite andb_true_r in U2.
    rewrite run_snoc. apply (pass_on_tick i m0 _ c n).
    + lia.
    + rewrite H2. lia.
    + exact U2.
    + apply IH; [ lia | exact H1 | exact U1 | exact H0 ].
Qed.

(** * Further properties, stated *)

(** ** Elapsed time *)

(** X1.  [ms_since] measures elapsed time correctly across the wrap-around
    of the 32-bit millisecond counter: for a time stamp taken with
    [millis()] and read back [d] milliseconds later, with [d] below 2^32,
    [ms_since] returns [d], whatever the clock was when the stamp was
    taken; it changes nothing. *)
Theorem ms_since_wraps (m0 m : Machine) (d : Z) :
  0 <= d < 2 ^ 32 ->
  clock m = clock m0 + d ->
  eval (ms_since (eval millis m0)) m = d
  /\ exec (ms_since (eval millis m0)) m = m.
Proof.
  intros Hd Hc. split; [ | reflexivity ].
  unfold eval, ms_since, millis, bind, gets, ret. cbn [fst snd].
  apply uint32_elapsed; [ exact Hd | ].
  rewrite Hc, uint32_add_l. reflexivity.
Qed.

(** A stamp taken 10 ms before the counter wraps, read 5 ms after. *)
Lemma ms_since_wraps_witness :
  eval (ms_since (eval millis (set_clock (2 ^ 32 - 10) (bench 0))))
       (set_clock (2 ^ 32 + 5) (bench 0)) = 15
  /\ exec (ms_since (eval millis (set_clock (2 ^ 32 - 10) (bench 0))))
          (set_clock (2 ^ 32 + 5) (bench 0))
     = set_clock (2 ^ 32 + 5) (bench 0).
Proof.
  refine (ms_since_wraps (set_clock (2 ^ 32 - 10) (bench 0))
            (set_clock (2 ^ 32 + 5) (bench 0)) 15 _ _).
  - lia.
  - vm_compute. reflexivity.
Defined.

(** ** The bar graph *)

(** X2.  [drawBarGraph] always draws the 44 segments of the bar, from left
    to right, 4 pixels wide every 5 pixels from x = 10, all within the
    columns 10 to 229: first the lit ones in the colour given, then the
    rest in the dim colour 0x2102.  The number of lit segments is the
    number of active pixels divided by 5 and rounded up, kept between 0
    and 44.  Nothing but the display is touched. *)
Theorem bar_graph_segments (val : f32) (color : Z) (m : Machine) :
  let n := lit_segments (bar_active_px (use_hv_mode m) val) in
  (n <= 44)%nat
  /\ emitted (drawBarGraph val color) m
     = map (segment color) (seq 0 n) ++ map (segment 0x2102) (seq n (44 - n))
  /\ Forall (fun e => exists x c, e = EvDraw (FillRect x 32 4 12 c)
                                  /\ 10 <= x /\ x + 4 <= 230)
            (emitted (drawBarGraph val color) m)
  /\ exec (drawBarGraph val color) m
     = set_trace (trace m ++ emitted (drawBarGraph val color) m) m.
Proof.
  intros n.
  assert (E : emitted (drawBarGraph val color) m
              = map (segment color) (seq 0 n)
                ++ map (segment 0x2102) (seq n (44 - n))).
  { apply emitted_app. unfold exec. rewrite drawBarGraph_run.
    cbn [snd]. unfold drawn. fields. rewrite bar_ops_level. reflexivity. }
  pose proof (lit_segments_max (bar_active_px (use_hv_mode m) val)) as Hn.
  fold n in Hn.
  split_all.
  - exact Hn.
  - exact E.
  - rewrite E. apply Forall_app. split; apply Forall_forall; intros e He;
      apply in_map_iff in He; destruct He as (k & <- & Hk);
      apply in_seq in Hk; unfold segment;
      eexists; eexists; (split; [reflexivity | ]);
      unfold BAR_X_START; lia.
  - rewrite E. unfold exec. rewrite drawBarGraph_run. cbn [snd].
    unfold drawn. rewrite bar_ops_level. reflexivity.
Qed.

(** X3.  The bar saturates: when the value is more than the full scale of
    the range in use (3.3 V direct, 0.5 V in kV range) all 44 segments are
    lit, and when the value is negative none is. *)
Theorem bar_graph_clamps (val : f32) (color : Z) (m : Machine) :
  let q := F32.div val (if use_hv_mode m then FS_KV_MODE else FS_V_MODE) in
  (F32.ltb (F32.of_Z 1) q = true ->
   emitted (drawBarGraph val color) m = map (segment color) (seq 0 44))
  /\ (F32.ltb q (F32.of_Z 0) = true ->
      emitted (drawBarGraph val color) m = map (segment 0x2102) (seq 0 44)).
Proof.
  intros q.
  assert (E : forall px, bar_active_px (use_hv_mode m) val = px ->
              emitted (drawBarGraph val color) m
              = map (segment color) (seq 0 (lit_segments px))
                ++ map (segment 0x2102)
                       (seq (lit_segments px) (44 - lit_segments px))).
  { intros px Hpx. apply emitted_app. unfold exec.
    rewrite drawBarGraph_run. cbn [snd]. unfold drawn. fields.
    rewrite Hpx, bar_ops_level. reflexivity. }
  split; intros H.
  - rewrite (E 220 (bar_px_over _ _ H)).
    change (lit_segments 220) with 44%nat. cbn [Nat.sub seq map].
    apply app_nil_r.
  - rewrite (E 0 (bar_px_under _ _ H)).
    change (lit_segments 0) with 0%nat. reflexivity.
Qed.

(** Five volts on the direct range; minus one volt on the kV range. *)
Lemma bar_graph_clamps_witness :
  emitted (drawBarGraph (F32.of_Z 5) 0xFFE0) (bench 0)
  = map (segment 0xFFE0) (seq 0 44)
  /\ emitted (drawBarGraph (F32.of_Z (-1)) 0xFD20)
             (set_use_hv_mode true (bench 0))
     = map (segment 0x2102) (seq 0 44).
Proof.
  split.
  - refine (proj1 (bar_graph_clamps (F32.of_Z 5) 0xFFE0 (bench 0)) _).
    vm_compute. reflexivity.
  - refine (proj2 (bar_graph_clamps (F32.of_Z (-1)) 0xFD20
                     (set_use_hv_mode true (bench 0))) _).
    vm_compute. reflexivity.
Defined.

(** ** The value region and the chrome *)

(** X4.  [updateMainUI] lays the number and its unit out as one block: the
    number in large digits at [x], the unit area (45 pixels wide) and the
    unit label 6 pixels right of the end of the number, then the
    pin-voltage line (kV range) or its erasure (direct range), then the
    bar.  [x] is chosen so that the number and 45 pixels more are centred
    in the 240 pixels of the screen to within one pixel; as long as the
    number is at most 183 pixels wide the block lies on the screen. *)
Theorem main_ui_layout (v : f32) (m : Machine) :
  let hv := use_hv_mode m in
  let color := if hv then ORA_BURNING else ORA_AMBER in
  let text := dtostrf (if hv then F32.mul v (F32.of_Z 10) else v) 5 2 in
  let w := uint16 (glyph_width m u8g2_font_inb27_mn text) in
  exists x,
    emitted (updateMainUI v) m
    = map EvDraw
        ([ Print u8g2_font_inb27_mn color COL_BLACK x 100 text;
           FillRect (x + w + 6) 70 45 35 COL_BLACK;
           Print u8g2_font_9x15_tr color COL_BLACK (x + w + 6) 100
                 (if hv then "kV" else "V")%string;
           if hv
           then Print u8g2_font_9x15_tr TAN_PALLADIAN COL_BLACK 10 20
                      (fmt_f 0 3 v ++ "V")%string
           else FillRect 10 5 100 20 COL_BLACK ]
         ++ bar_ops (bar_active_px hv v) color)
    /\ -1 <= 240 - (2 * x + w + 45) <= 1
    /\ (w <= 183 -> 0 <= x /\ x + w + 6 + 45 <= 240).
Proof.
  intros hv color text w.
  exists (Z.quot (240 - w - 45) 2).
  pose proof (uint16_range (glyph_width m u8g2_font_inb27_mn text)) as Hw.
  fold w in Hw.
  destruct (centring w) as (C1 & C2 & C3).
  split; [ | split; [ exact C1 | intros H; split; [apply C2 | apply C3]; lia ] ].
  apply emitted_app.
  destruct (updateMainUI_run v m) as (f & c & b & x & y & E).
  unfold exec. rewrite E. cbn [snd]. unfold drawn. fields.
  reflexivity.
Qed.

(** X5.  The two drawing routines only draw.  [drawStaticUI] issues 14
    drawing operations (the axis, eleven tick marks, the two footer
    labels) that depend on nothing but the glyph metrics and the file
    name; [updateMainUI] issues 48 (number, unit area, unit label,
    pin-voltage line, 44 bar segments).  Neither emits anything else nor
    changes a variable of the sketch, a timer, the converter or the
    LED. *)
Theorem drawing_only_draws (v : f32) (m : Machine) :
  emitted drawStaticUI m
  = map EvDraw (chrome_ops (glyph_width m) (display_filename_str m))
  /\ List.length (emitted drawStaticUI m) = 14%nat
  /\ count is_draw (emitted drawStaticUI m) = 14%nat
  /\ only_drawn m (exec drawStaticUI m)
  /\ List.length (emitted (updateMainUI v) m) = 48%nat
  /\ count is_draw (emitted (updateMainUI v) m) = 48%nat
  /\ only_drawn m (exec (updateMainUI v) m).
Proof.
  destruct (drawStaticUI_run m) as (f & c & b & x & y & E).
  destruct (updateMainUI_run v m) as (f' & c' & b' & x' & y' & E').
  assert (S : emitted drawStaticUI m
              = map EvDraw (chrome_ops (glyph_width m)
                                       (display_filename_str m))).
  { apply emitted_app. unfold exec. rewrite E. reflexivity. }
  assert (U : emitted (updateMainUI v) m
              = map EvDraw (value_ops (glyph_width m) (use_hv_mode m) v)).
  { apply emitted_app. unfold exec. rewrite E'. reflexivity. }
  split_all.
  - exact S.
  - rewrite S. reflexivity.
  - rewrite S, count_all_draw. reflexivity.
  - unfold exec. rewrite E. cbn [snd]. unfold only_drawn, same_board.
    fields. split_all; reflexivity.
  - rewrite U. reflexivity.
  - rewrite U, count_all_draw. reflexivity.
  - unfold exec. rewrite E'. cbn [snd]. unfold only_drawn, same_board.
    fields. split_all; reflexivity.
Qed.

(** ** A second evaluation of the range *)


(** ** The file name shown in the footer *)

(** X7.  The file name that [initHardware] takes from a path is the part
    after the last separator: the path is some prefix followed by the
    name, the name holds no slash and no backslash, and the prefix is
    empty or ends in a separator.  A path without separator is its own
    name. *)
Theorem basename_is_last_component (path : string) :
  exists dir,
    path = (dir ++ basename path)%string
    /\ no_sep (basename path) = true
    /\ (dir = EmptyString
        \/ exists dir' c, dir = (dir' ++ String c EmptyString)%string
                          /\ is_sep c = true)
    /\ (no_sep path = true -> basename path = path).
Proof.
  rewrite basename_unfold.
  destruct (basename_from_split path) as (dir & E & D).
  exists dir. split_all.
  - exact E.
  - apply basename_from_no_sep.
  - exact D.
  - intros H. apply basename_from_plain. exact H.
Qed.

(** X8.  For a path that ends in a separator followed by a name without
    separators, the file name is that name, whatever comes before -
    further separators of either kind included. *)
Theorem basename_of_path (dir name : string) (c : ascii) :
  is_sep c = true -> no_sep name = true ->
  basename (dir ++ String c name) = name.
Proof.
  intros Hc Hn. rewrite basename_unfold.
  apply basename_from_last; assumption.
Qed.

Lemma basename_of_path_witness :
  basename ("/home/sketches" ++ String (ascii_of_nat 92) "Voltmeter_kV_TFT.ino")
  = "Voltmeter_kV_TFT.ino"%string.
Proof.
  refine (basename_of_path "/home/sketches" "Voltmeter_kV_TFT.ino"
            (ascii_of_nat 92) _ _);
    vm_compute; reflexivity.
Defined.

(** ** One pass through [loop] *)

(** X9.  The four timed activities are scheduled independently of one
    another, and each runs at most once in a pass: a pass takes eight
    conversions if the acquisition is due and none otherwise, sends one
    line if the report is due and the port is up and none otherwise, reads
    the mode pin once if the rendering is due and not at all otherwise,
    and switches the LED on once if the heartbeat period has elapsed and
    otherwise off once if it is on and has been for 15 ms - each decided
    by its own timer as the pass finds it, whatever the other activities
    do in the same pass. *)
Theorem pass_marks (m : Machine) :
  let evs := emitted loop m in
  count is_analog_read evs
  = (if due t_meas MEAS_INTERVAL_MS m then 8 else 0)%nat
  /\ count is_serial evs
     = (if due t_ser SER_INTERVAL_MS m && serial_up m then 1 else 0)%nat
  /\ count is_mode_read evs
     = (if due t_disp DISP_INTERVAL_MS m then 1 else 0)%nat
  /\ count is_led_on evs
     = (if HB_PERIOD_MS <=? hb_elapsed m then 1%nat else 0%nat)
  /\ count is_led_off evs
     = (if HB_PERIOD_MS <=? hb_elapsed m then 0%nat
        else if led m && (HB_ON_MS <=? hb_elapsed m) then 1%nat else 0%nat).
Proof. exact (loop_counts m). Qed.

(** X10.  Every interval is measured from the pass in which the activity
    last ran, not on a fixed grid: an activity that runs in a pass runs
    again in the next pass, [d] milliseconds later, exactly when [d] is at
    least its interval (17, 101, 250 and 1000 ms), also when the 32-bit
    counter wraps in between.  A pass that comes late therefore delays
    all later runs of the activity. *)
Theorem rerun_after_interval (m : Machine) (i : Inputs) (d : Z) :
  0 <= d < 2 ^ 32 ->
  in_clock i = clock m + d ->
  let m' := present i (exec loop m) in
  (due t_meas MEAS_INTERVAL_MS m = true ->
   due t_meas MEAS_INTERVAL_MS m' = (MEAS_INTERVAL_MS <=? d))
  /\ (due t_ser SER_INTERVAL_MS m = true ->
      due t_ser SER_INTERVAL_MS m' = (SER_INTERVAL_MS <=? d))
  /\ (due t_disp DISP_INTERVAL_MS m = true ->
      due t_disp DISP_INTERVAL_MS m' = (DISP_INTERVAL_MS <=? d))
  /\ (due t_hb HB_PERIOD_MS m = true ->
      due t_hb HB_PERIOD_MS m' = (HB_PERIOD_MS <=? d)).
Proof.
  intros Hd Hc m'.
  destruct (loop_timers m) as (Tm & Ts & Td & Th & _ & _ & _).
  change (HB_PERIOD_MS <=? hb_elapsed m) with (due t_hb HB_PERIOD_MS m) in Th.
  assert (C : clock m' = clock m + d) by exact Hc.
  assert (Em : t_meas m' = t_meas (exec loop m)) by reflexivity.
  assert (Es : t_ser m' = t_ser (exec loop m)) by reflexivity.
  assert (Ed : t_disp m' = t_disp (exec loop m)) by reflexivity.
  assert (Eh : t_hb m' = t_hb (exec loop m)) by reflexivity.
  clearbody m'.
  split_all; intros H; rewrite H in *;
    apply (due_later _ _ m); solve [assumption | congruence].
Qed.

(** The bench at 17 ms, when the acquisition is due; the next pass 3 ms
    later. *)
Lemma rerun_after_interval_witness :
  due t_meas MEAS_INTERVAL_MS
      (present (mkInputs 20 true true) (exec loop (set_clock 17 (bench 0))))
  = (MEAS_INTERVAL_MS <=? 3).
Proof.
  refine (proj1 (rerun_after_interval (set_clock 17 (bench 0))
                   (mkInputs 20 true true) 3 _ _) _).
  - lia.
  - vm_compute. reflexivity.
  - vm_compute. reflexivity.
Defined.

(** X11.  A report that falls due while the serial port is down is lost,
    not deferred: the pass sends nothing, the report timer is set all the
    same, and no report is due in a pass less than 101 ms later, even if
    the port is up again by then. *)
Theorem report_lost_when_port_down (m : Machine) (i : Inputs) (d : Z) :
  due t_ser SER_INTERVAL_MS m = true ->
  serial_up m = false ->
  0 <= d < SER_INTERVAL_MS ->
  in_clock i = clock m + d ->
  count is_serial (emitted loop m) = 0%nat
  /\ t_ser (exec loop m) = uint32 (clock m)
  /\ due t_ser SER_INTERVAL_MS (present i (exec loop m)) = false
  /\ count is_serial (emitted loop (present i (exec loop m))) = 0%nat.
Proof.
  intros Hdue Hdown Hd Hc.
  destruct (loop_counts m) as (_ & Cs & _).
  destruct (loop_timers m) as (_ & Ts & _).
  rewrite Hdue in Ts. rewrite Hdue, Hdown in Cs.
  assert (N : due t_ser SER_INTERVAL_MS (present i (exec loop m)) = false).
  { rewrite (due_later t_ser SER_INTERVAL_MS m _ d).
    - apply Z.leb_gt. lia.
    - unfold SER_INTERVAL_MS in Hd. lia.
    - exact Hc.
    - exact Ts. }
  split_all.
  - exact Cs.
  - exact Ts.
  - exact N.
  - destruct (loop_counts (present i (exec loop m))) as (_ & Cs' & _).
    rewrite N in Cs'. exact Cs'.
Qed.

(** The bench at 101 ms with the port down; the next pass 50 ms later with
    the port up. *)
Lemma report_lost_when_port_down_witness :
  count is_serial
    (emitted loop (set_serial_up false (set_clock 101 (bench 0)))) = 0%nat
  /\ t_ser (exec loop (set_serial_up false (set_clock 101 (bench 0))))
     = uint32 (clock (set_serial_up false (set_clock 101 (bench 0))))
  /\ due t_ser SER_INTERVAL_MS
       (present (mkInputs 151 true true)
          (exec loop (set_serial_up false (set_clock 101 (bench 0)))))
     = false
  /\ count is_serial
       (emitted loop
          (present (mkInputs 151 true true)
             (exec loop (set_serial_up false (set_clock 101 (bench 0))))))
     = 0%nat.
Proof.
  refine (report_lost_when_port_down
            (set_serial_up false (set_clock 101 (bench 0)))
            (mkInputs 151 true true) 50 _ _ _ _).
  - vm_compute. reflexivity.
  - vm_compute. reflexivity.
  - unfold SER_INTERVAL_MS. lia.
  - vm_compute. reflexivity.
Defined.

(** X12.  The line sent in a pass shows the state in which the pass ends:
    its time stamp is the clock of the pass and its value is the filtered
    value after the acquisition of the same pass, if there is one.  The
    filtered value changes by the acquisition only: neither the report nor
    the rendering - a change of range included - nor the heartbeat touches
    it. *)
Theorem report_is_fresh (m : Machine) :
  filter is_serial (emitted loop m)
  = (if due t_ser SER_INTERVAL_MS m && serial_up m
     then [EvSerial (report_line (exec loop m))] else [])
  /\ filtered_V (exec loop m)
     = (if due t_meas MEAS_INTERVAL_MS m
        then ema (convert (use_hv_mode m) (readings m)) (filtered_V m)
        else filtered_V m).
Proof.
  destruct (loop_summary m)
    as (d & E & (Ca & Cs & Cm & Con & Coff) & Hf & _ & _ & _ & _ & _ & Hc & _).
  split; [ | exact Hf ].
  assert (L : report_line (exec loop m) = fresh_line m).
  { unfold report_line, fresh_line. rewrite Hf, Hc. reflexivity. }
  rewrite L, E, !filter_app. clear L E.
  rewrite (count_zero_filter is_serial d Cs).
  assert (A : filter is_serial
                (if due t_meas MEAS_INTERVAL_MS m
                 then map EvAnalogRead (readings m) else []) = []).
  { apply count_zero_filter. destruct (due t_meas MEAS_INTERVAL_MS m);
      [ apply count_no_reads | ]; reflexivity. }
  assert (H : filter is_serial (hb_events m) = []).
  { unfold hb_events.
    destruct (HB_PERIOD_MS <=? hb_elapsed m);
      [ | destruct (led m && (HB_ON_MS <=? hb_elapsed m)) ]; reflexivity. }
  rewrite A, H. cbn [Datatypes.app].
  destruct (due t_ser SER_INTERVAL_MS m && serial_up m); reflexivity.
Qed.

(** ** The heartbeat *)

(** X13.  The LED after a pass: on if the heartbeat period of 1000 ms has
    elapsed (the timer is then set to the clock of the pass), otherwise on
    only if it was on and less than 15 ms have elapsed since the timer was
    set.  No pass leaves the LED on with 15 ms or more on the heartbeat
    timer, and no pass leaves the heartbeat due. *)
Theorem heartbeat_pass (m : Machine) :
  let e := hb_elapsed m in
  let m' := exec loop m in
  led m' = (if HB_PERIOD_MS <=? e then true
            else led m && negb (HB_ON_MS <=? e))
  /\ t_hb m' = (if HB_PERIOD_MS <=? e then uint32 (clock m) else t_hb m)
  /\ led m' && (HB_ON_MS <=? hb_elapsed m') = false
  /\ (HB_PERIOD_MS <=? hb_elapsed m') = false.
Proof.
  intros e m'.
  destruct (loop_timers m) as (_ & _ & _ & Th & Tl & _).
  destruct (loop_settled m) as (_ & _ & _ & Sp & Sl).
  split_all; assumption.
Qed.

(** X14.  A pass leaves nothing to do for a second pass in the same
    millisecond: with the same clock, mode pin and port state, the second
    pass reads nothing, sends nothing, draws nothing and changes
    nothing. *)
Theorem pass_idempotent (i : Inputs) (m : Machine) :
  pass i (pass i m) = pass i m
  /\ emitted loop (present i (pass i m)) = [].
Proof.
  destruct (loop_inputs (present i m)) as (Hs' & Hp').
  destruct (loop_timers (present i m)) as (_ & _ & _ & _ & _ & Hc & _).
  destruct (loop_settled (present i m)) as (Sm & Ss & Sd & Sp & Sl).
  cbv zeta in Sm, Ss, Sd, Sp, Sl.
  change (serial_up (present i m)) with (in_serial_up i) in Hs'.
  change (mode_pin_high (present i m)) with (in_mode_pin_high i) in Hp'.
  change (clock (present i m)) with (in_clock i) in Hc.
  unfold pass.
  revert Hc Sm Ss Sd Sp Sl Hs' Hp'.
  generalize (exec loop (present i m)). intros m1 Hc Sm Ss Sd Sp Sl Hs' Hp'.
  assert (P : present i m1 = m1) by (apply present_same; assumption).
  rewrite P.
  assert (I : exec loop m1 = m1) by (apply loop_idle; assumption).
  split; [ exact I | ].
  apply emitted_app. rewrite I, app_nil_r. reflexivity.
Qed.

(** X15.  Between two heartbeats - in passes that come, in any number,
    less than 1000 ms after the heartbeat timer was set - the timer stays
    as it is, the LED is never switched on, and it is switched off once if
    it was on: in the first pass that comes 15 ms or more after the timer
    was set.  The LED is on at the end exactly if it was on and all the
    passes came within 15 ms. *)
Theorem heartbeat_within_period (m : Machine) (ins : list Inputs)
    (c : Z) (ds : list Z) :
  t_hb m = uint32 c ->
  map in_clock ins = map (Z.add c) ds ->
  Forall (fun d => 0 <= d < HB_PERIOD_MS) ds ->
  let m' := run ins m in
  t_hb m' = t_hb m
  /\ led m' = led m && forallb (fun d => d <? HB_ON_MS) ds
  /\ count is_led_on (trace m') = count is_led_on (trace m)
  /\ count is_led_off (trace m')
     = (if led m && negb (forallb (fun d => d <? HB_ON_MS) ds)
        then S (count is_led_off (trace m))
        else count is_led_off (trace m)).
Proof.
  intros Ht Hc Hd m'. apply (run_within_period c ds Hd ins m Ht Hc).
Qed.

(** The bench lit at 1000 ms, then passes 3, 14, 15 and 400 ms later. *)
Lemma heartbeat_within_period_witness :
  let m := exec loop (set_clock 1000 (bench 0)) in
  let ins := map (fun d => mkInputs (1000 + d) true true) [3; 14; 15; 400] in
  led (run ins m) = led m && forallb (fun d => d <? HB_ON_MS) [3; 14; 15; 400].
Proof.
  refine (proj1 (proj2 (heartbeat_within_period
            (exec loop (set_clock 1000 (bench 0)))
            (map (fun d => mkInputs (1000 + d) true true) [3; 14; 15; 400])
            1000 [3; 14; 15; 400] _ _ _))).
  - vm_compute. reflexivity.
  - vm_compute. reflexivity.
  - unfold HB_PERIOD_MS. repeat (constructor; [lia | ]). constructor.
Defined.

(** ** The width of what is printed *)

(** X16.  The lines of the report line up in columns: for a filtered value
    from 0 up to 9.99995 V (exclusive) every line is 16 characters long -
    seven for the time stamp, a comma and a space, six for the value, a
    newline - as long as the clock reads less than 10 000 000 ms.  From
    10 000 000 ms on (2 h 46 min 40 s after start) the time stamp outgrows
    its field and the lines are 17 to 19 characters long. *)
Theorem report_line_width (m : Machine) :
  serial_up m = true ->
  F32.is_finite (filtered_V m) = true ->
  F32.sign (filtered_V m) = false ->
  (F32.to_Q (filtered_V m) < 199999 # 20000)%Q ->
  exists line,
    emitted printVolts m = [EvSerial line]
    /\ (uint32 (clock m) < 10 ^ 7 -> String.length line = 16%nat)
    /\ (10 ^ 7 <= uint32 (clock m)
        -> (17 <= String.length line <= 19)%nat).
Proof.
  intros Hup Hf Hs Hq. exists (report_line m).
  destruct (printVolts_exec m) as (_ & Ht). rewrite Hup in Ht.
  split; [ apply emitted_app; exact Ht | ].
  unfold report_line. rewrite !length_append, (fmt_f_6_4_width _ Hf Hs Hq).
  change (String.length newline) with 1%nat.
  change (String.length ", ") with 2%nat.
  destruct (fmt_u_7_width (uint32 (clock m))) as (_ & W7 & W8).
  rewrite uint32_idem in W7, W8.
  split; intros H; [ rewrite (W7 H); reflexivity | specialize (W8 H); lia ].
Qed.

(** 0.5 V on the bench, 101 ms after start. *)
Lemma report_line_width_witness :
  exists line,
    emitted printVolts
      (set_filtered_V (F32.lit 5 10) (set_clock 101 (bench 0)))
    = [EvSerial line]
    /\ (uint32 (clock (set_filtered_V (F32.lit 5 10)
                         (set_clock 101 (bench 0)))) < 10 ^ 7
        -> String.length line = 16%nat)
    /\ (10 ^ 7 <= uint32 (clock (set_filtered_V (F32.lit 5 10)
                                   (set_clock 101 (bench 0))))
        -> (17 <= String.length line <= 19)%nat).
Proof.
  refine (report_line_width
            (set_filtered_V (F32.lit 5 10) (set_clock 101 (bench 0)))
            _ _ _ _);
    vm_compute; reflexivity.
Defined.

(** X17.  [printVolts] cannot overrun [msg_buf]: whatever binary32 number
    the filtered value is - infinities and NaN included - and whatever the
    clock reads, the line it formats is 16 to 58 characters long, well
    within the 128 bytes of the buffer. *)
Theorem report_line_fits_buffer (m : Machine) :
  valid_binary 24 128 (filtered_V m) = true ->
  msg_buf (exec printVolts m) = report_line m
  /\ (16 <= String.length (msg_buf (exec printVolts m)) <= 58)%nat.
Proof.
  intros V. destruct (printVolts_exec m) as (Hb & _).
  rewrite Hb. split; [ reflexivity | ].
  unfold report_line. rewrite !length_append.
  change (String.length newline) with 1%nat.
  change (String.length ", ") with 2%nat.
  pose proof (fmt_f_6_4_bound _ V) as F.
  destruct (fmt_u_7_width (uint32 (clock m))) as (W & _).
  rewrite W. clear W.
  assert (T : (String.length (dec_string (uint32 (uint32 (clock m)))) <= 10)%nat).
  { apply dec_string_length_le; [ | lia ].
    pose proof (uint32_range (uint32 (clock m))) as R.
    change (2 ^ 32) with 4294967296 in R.
    change (10 ^ Z.of_nat 10) with 10000000000. lia. }
  lia.
Qed.

Lemma report_line_fits_buffer_witness :
  msg_buf (exec printVolts (bench 0)) = report_line (bench 0)
  /\ (16 <= String.length (msg_buf (exec printVolts (bench 0))) <= 58)%nat.
Proof.
  refine (report_line_fits_buffer (bench 0) _).
  vm_compute. reflexivity.
Defined.

(** X18.  The number in large digits keeps its width: for a displayed
    value from 0 up to 99.995 (exclusive) - volts in direct range,
    kilovolts in kV range - [updateMainUI] prints exactly five characters,
    so the text fits its buffer of 24 bytes. *)
Theorem number_takes_five_cells (v : f32) (m : Machine) :
  let hv := use_hv_mode m in
  let shown := if hv then F32.mul v (F32.of_Z 10) else v in
  F32.is_finite shown = true ->
  F32.sign shown = false ->
  (F32.to_Q shown < 19999 # 200)%Q ->
  (exists x,
      nth_error (emitted (updateMainUI v) m) 0
      = Some (EvDraw (Print u8g2_font_inb27_mn
                            (if hv then ORA_BURNING else ORA_AMBER) COL_BLACK
                            x 100 (dtostrf shown 5 2))))
  /\ String.length (dtostrf shown 5 2) = 5%nat.
Proof.
  intros hv shown Hf Hs Hq.
  assert (E : emitted (updateMainUI v) m
              = map EvDraw (value_ops (glyph_width m) (use_hv_mode m) v)).
  { apply emitted_app. unfold exec.
    destruct (updateMainUI_run v m) as (f & c & b & x & y & R).
    rewrite R. reflexivity. }
  split.
  - rewrite E. eexists. reflexivity.
  - apply dtostrf_5_2_width; assumption.
Qed.

(** 1.65 V in direct range. *)
Lemma number_takes_five_cells_witness :
  String.length
    (dtostrf (if use_hv_mode (bench 0)
              then F32.mul (F32.lit 165 100) (F32.of_Z 10)
              else F32.lit 165 100) 5 2) = 5%nat.
Proof.
  refine (proj2 (number_takes_five_cells (F32.lit 165 100) (bench 0) _ _ _));
    vm_compute; reflexivity.
Defined.

(** ** The order of a pass *)

(** X19.  What a pass does comes in the order of the source: first the
    eight conversions, then the line of the report, then the range
    evaluation with its drawing (mode pin, attenuation, display - nothing
    at all when the rendering is not due), last the LED. *)
Theorem pass_order (m : Machine) :
  exists d,
    emitted loop m
    = (if due t_meas MEAS_INTERVAL_MS m
       then map EvAnalogRead (readings m) else [])
      ++ (if due t_ser SER_INTERVAL_MS m && serial_up m
          then [EvSerial (report_line (exec loop m))] else [])
      ++ d
      ++ (if HB_PERIOD_MS <=? hb_elapsed m then [EvLed true]
          else if led m && (HB_ON_MS <=? hb_elapsed m) then [EvLed false]
          else [])
    /\ forallb is_display d = true
    /\ (due t_disp DISP_INTERVAL_MS m = false -> d = []).
Proof.
  destruct (loop_summary m)
    as (d & E & (Ca & Cs & Cm & Con & Coff) & Hf & _ & _ & _ & _ & _ & Hc
        & _ & Hnd).
  exists d.
  assert (L : report_line (exec loop m) = fresh_line m).
  { unfold report_line, fresh_line. rewrite Hf, Hc. reflexivity. }
  rewrite L. split_all.
  - exact E.
  - apply display_only; assumption.
  - exact Hnd.
Qed.

(** ** Passes one millisecond apart *)

(** X20.  With one pass per millisecond, starting right after a pass in
    which all four activities ran (all timers at the clock [c] of that
    pass), the activities keep to their grid for any number [n] of
    milliseconds below 2^32, also across the wrap-around of the counter:
    after [n] passes the acquisition has run [n / 17] times (eight
    conversions each), the report [n / 101] times, the rendering [n / 250]
    times and the LED has been switched on [n / 1000] times; every timer
    stands at the last multiple of its interval, and from the first
    heartbeat on the LED is on after the pass exactly if fewer than 15 ms
    of the current period of 1000 ms have elapsed. *)
Theorem cadence_every_ms (m : Machine) (ins : list Inputs) (c : Z) (n : nat) :
  t_meas m = uint32 c -> t_ser m = uint32 c ->
  t_disp m = uint32 c -> t_hb m = uint32 c ->
  map in_clock ins = map (fun k => c + Z.of_nat k) (seq 1 n) ->
  forallb in_serial_up ins = true ->
  Z.of_nat n < 2 ^ 32 ->
  let m' := run ins m in
  count is_analog_read (trace m')
  = (count is_analog_read (trace m) + 8 * (n / 17))%nat
  /\ count is_serial (trace m') = (count is_serial (trace m) + n / 101)%nat
  /\ count is_mode_read (trace m')
     = (count is_mode_read (trace m) + n / 250)%nat
  /\ count is_led_on (trace m') = (count is_led_on (trace m) + n / 1000)%nat
  /\ t_meas m' = uint32 (c + 17 * (Z.of_nat n / 17))
  /\ t_ser m' = uint32 (c + 101 * (Z.of_nat n / 101))
  /\ t_disp m' = uint32 (c + 250 * (Z.of_nat n / 250))
  /\ t_hb m' = uint32 (c + 1000 * (Z.of_nat n / 1000))
  /\ led m' = (if Z.of_nat n <? 1000 then led m && (Z.of_nat n <? 15)
               else Z.of_nat n mod 1000 <? 15).
Proof.
  intros Hm Hs Hd Hh Hc Hup HB m'.
  assert (T0 : ticked c 0 m m).
  { unfold ticked, lit_after. cbn [Z.of_nat].
    change (0 / MEAS_INTERVAL_MS) with 0. change (0 / SER_INTERVAL_MS) with 0.
    change (0 / DISP_INTERVAL_MS) with 0. change (0 / HB_PERIOD_MS) with 0.
    rewrite !Z.mul_0_r, Z.add_0_r. change (Z.to_nat 0) with 0%nat.
    rewrite !Nat.add_0_r.
    change (0 <? HB_PERIOD_MS) with true. change (0 <? HB_ON_MS) with true.
    rewrite andb_true_r. split_all; solve [assumption | reflexivity]. }
  pose proof (run_on_ticks m c n ins HB Hc Hup T0) as T.
  fold m' in T. clearbody m'.
  destruct T as (Im & Is & Id & Ih & Cm & Cs & Cd & Ch & Il).
  unfold MEAS_INTERVAL_MS, SER_INTERVAL_MS, DISP_INTERVAL_MS, HB_PERIOD_MS
    in *.
  replace (Z.of_nat n / 17) with (Z.of_nat (n / 17)) in Cm
    by (rewrite Nat2Z.inj_div; reflexivity).
  replace (Z.of_nat n / 101) with (Z.of_nat (n / 101)) in Cs
    by (rewrite Nat2Z.inj_div; reflexivity).
  replace (Z.of_nat n / 250) with (Z.of_nat (n / 250)) in Cd
    by (rewrite Nat2Z.inj_div; reflexivity).
  replace (Z.of_nat n / 1000) with (Z.of_nat (n / 1000)) in Ch
    by (rewrite Nat2Z.inj_div; reflexivity).
  rewrite Nat2Z.id in Cm, Cs, Cd, Ch.
  split_all; assumption.
Qed.

(** The bench after start-up, run for a thousand passes one millisecond
    apart. *)
Lemma cadence_every_ms_witness :
  count is_led_on (trace (run (ms_inputs 1000) (bench 0)))
  = (count is_led_on (trace (bench 0)) + 1000 / 1000)%nat.
Proof.
  refine (proj1 (proj2 (proj2 (proj2
            (cadence_every_ms (bench 0) (ms_inputs 1000) 0 1000
               _ _ _ _ _ _ _)))));
    vm_compute; reflexivity.
Defined.
